(** * ChainPay protocol: the reward settlement engine

    A shallow embedding of
    - [blockchain/contracts/RewardTreasury.sol] (module [RewardTreasury]),
    - [backend/blockchain.go], the ledger client (module [LedgerClient]),
    - the backend's main package: the HTTP and WebSocket heartbeat
      handlers and the block monitor (module [Server]),
    with the properties of the natural-language specification stated and
    settled against them.  Further parts of the program (the reward
    processor, the read path of the ledger client, the frontend's reward
    accounting) and further properties of all of them follow. *)

From stdpp Require Import gmap strings list fin_maps.
From Stdlib Require Import ZArith NArith Lia.
From Stdlib.Strings Require Import Ascii Byte.
From Stdlib Require Import Sorted.

Local Open Scope N_scope.

(** ** Results of fallible code *)

Inductive result (E A : Type) : Type :=
| Ok (a : A)
| Err (e : E).
Arguments Ok {E A} a.
Arguments Err {E A} e.

Definition rbind {E A B} (c : result E A) (k : A -> result E B) : result E B :=
  match c with
  | Ok a => k a
  | Err e => Err e
  end.

#[global] Instance result_bind {E} : MBind (result E) :=
  fun A B k c => rbind c k.
#[global] Instance result_ret {E} : MRet (result E) := fun A a => Ok a.

Definition is_ok {E A} (r : result E A) : bool :=
  match r with Ok _ => true | Err _ => false end.

(** * The treasury contract *)

Module RewardTreasury.

(** [address] is a 160-bit value and [bytes32] a 256-bit value; the null
    address is 0.  [uint256] values are naturals below [2^256]; Solidity
    0.8 arithmetic is checked, an overflow reverts the call. *)
Abbreviation address := N (only parsing).
Abbreviation bytes32 := N (only parsing).
Abbreviation uint256 := N (only parsing).

Definition MAX_UINT256 : N := 2 ^ 256 - 1.

(** Revert reasons, one per [require] message of the contract, and the
    arithmetic panic of checked arithmetic. *)
Inductive Revert : Type :=
| CallerIsNotOwner            (* "caller is not owner" *)
| CallerIsNotRewardSigner     (* "caller is not reward signer" *)
| InvalidSignerAddress        (* "invalid signer address" *)
| MustSendETH                 (* "must send ETH" *)
| InvalidRecipient            (* "invalid recipient" *)
| AmountMustBePositive        (* "amount must be positive" *)
| RewardAlreadyClaimed        (* "reward already claimed" *)
| InsufficientTreasuryBalance (* "insufficient treasury balance" *)
| TransferFailed              (* "transfer failed" *)
| ArrayLengthMismatch         (* "array length mismatch" *)
| EmptyBatch                  (* "empty batch" *)
| BatchTooLarge               (* "batch too large" *)
| RateMustBePositive          (* "rate must be positive" *)
| InvalidAddress              (* "invalid address" *)
| InsufficientBalance         (* "insufficient balance" *)
| WithdrawalFailed            (* "withdrawal failed" *)
| InvalidOwnerAddress         (* "invalid owner address" *)
| ArithmeticPanic.            (* Panic(0x11) *)

Inductive Event : Type :=
| RewardClaimed (recipient : address) (amount : uint256) (claimId : bytes32)
                (timestamp : uint256)
| TreasuryFunded (funder : address) (amount : uint256) (newBalance : uint256)
| RewardSignerUpdated (oldSigner newSigner : address)
| RewardRateUpdated (oldRate newRate : uint256)
| EmergencyWithdrawal (to : address) (amount : uint256).

(** Contract storage, together with the two facts of the account the code
    reads: its own address and its balance.  [claimedRewards] is a
    [mapping(bytes32 => bool)] that is only ever written [true]: the set of
    keys marked true.  [userTotalEarnings] is a [mapping(address =>
    uint256)]; an absent key reads 0. *)
Record State : Type := mkState {
  this : address;
  balance : uint256;
  owner : address;
  rewardSigner : address;
  totalRewardsDistributed : uint256;
  totalClaimsProcessed : uint256;
  rewardPerHeartbeat : uint256;
  claimedRewards : gset N;
  userTotalEarnings : gmap N N
}.

(** The environment of one transaction: [msg.sender], [block.timestamp],
    and for every address whether a plain value transfer to it succeeds
    (an externally owned account accepts; a contract may reject). *)
Record Msg : Type := mkMsg {
  sender : address;
  timestamp : uint256;
  accepts : address -> bool
}.

Definition require (b : bool) (e : Revert) : result Revert unit :=
  if b then Ok tt else Err e.

Definition checked_add (a b : uint256) : result Revert uint256 :=
  if a + b <=? MAX_UINT256 then Ok (a + b) else Err ArithmeticPanic.

Definition earnings (s : State) (user : address) : uint256 :=
  default 0 (userTotalEarnings s !! user).

Definition is_claimed (s : State) (claimId : bytes32) : bool :=
  bool_decide (claimId ∈ claimedRewards s).

Definition set_balance (b : uint256) (s : State) : State :=
  mkState (this s) b (owner s) (rewardSigner s) (totalRewardsDistributed s)
          (totalClaimsProcessed s) (rewardPerHeartbeat s) (claimedRewards s)
          (userTotalEarnings s).

Definition set_owner (o : address) (s : State) : State :=
  mkState (this s) (balance s) o (rewardSigner s) (totalRewardsDistributed s)
          (totalClaimsProcessed s) (rewardPerHeartbeat s) (claimedRewards s)
          (userTotalEarnings s).

Definition set_rewardSigner (a : address) (s : State) : State :=
  mkState (this s) (balance s) (owner s) a (totalRewardsDistributed s)
          (totalClaimsProcessed s) (rewardPerHeartbeat s) (claimedRewards s)
          (userTotalEarnings s).

Definition set_rewardPerHeartbeat (r : uint256) (s : State) : State :=
  mkState (this s) (balance s) (owner s) (rewardSigner s)
          (totalRewardsDistributed s) (totalClaimsProcessed s) r
          (claimedRewards s) (userTotalEarnings s).

(** The four storage writes of a settlement, lines 108-113 and 151-154. *)
Definition record_claim (recipient : address) (claimId : bytes32)
    (total claims earned : uint256) (s : State) : State :=
  mkState (this s) (balance s) (owner s) (rewardSigner s) total claims
          (rewardPerHeartbeat s) ({[claimId]} ∪ claimedRewards s)
          (<[recipient := earned]> (userTotalEarnings s)).

(** [to.call{value: amount}("")]: the low-level call returns [false] when
    the balance does not cover [amount] or the callee rejects the transfer.
    A transfer to the contract itself runs its own [receive], which emits
    [TreasuryFunded] and leaves the balance as it was.  The code of any
    other callee is not followed: it accepts the value or refuses it, and
    calls it might make back into the contract are separate transactions
    of the model. *)
Definition call_value (m : Msg) (to : address) (amount : uint256) (s : State)
    : option (State * list Event) :=
  if negb (amount <=? balance s) then None
  else if to =? this s then
    Some (s, [TreasuryFunded (this s) amount (balance s)])
  else if accepts m to then Some (set_balance (balance s - amount) s, [])
  else None.

Definition constructor (m : Msg) (value : uint256)
    (self _rewardSigner : address) : result Revert (State * list Event) :=
  require (negb (_rewardSigner =? 0)) InvalidSignerAddress ;;
  Ok (mkState self value (sender m) _rewardSigner 0 0 1000 ∅ ∅,
      if 0 <? value then [TreasuryFunded (sender m) value value] else []).

Definition fundTreasury (m : Msg) (value : uint256) (s : State)
    : result Revert (State * list Event) :=
  require (0 <? value) MustSendETH ;;
  let s' := set_balance (balance s + value) s in
  Ok (s', [TreasuryFunded (sender m) value (balance s')]).

Definition receive (m : Msg) (value : uint256) (s : State)
    : result Revert (State * list Event) :=
  let s' := set_balance (balance s + value) s in
  Ok (s', [TreasuryFunded (sender m) value (balance s')]).

(** The body shared by [processReward] (lines 102-119) and one iteration of
    the loop of [batchProcessRewards] (lines 147-159), the balance check of
    line 105 apart. *)
Definition settle (m : Msg) (recipient : address) (amount : uint256)
    (claimId : bytes32) (s : State) : result Revert (State * list Event) :=
  total ← checked_add (totalRewardsDistributed s) amount;
  claims ← checked_add (totalClaimsProcessed s) 1;
  earned ← checked_add (earnings s recipient) amount;
  let s1 := record_claim recipient claimId total claims earned s in
  match call_value m recipient amount s1 with
  | None => Err TransferFailed
  | Some (s2, evs) =>
      Ok (s2, evs ++ [RewardClaimed recipient amount claimId (timestamp m)])
  end.

Definition processReward (m : Msg) (recipient : address) (amount : uint256)
    (claimId : bytes32) (s : State) : result Revert (State * list Event) :=
  require (sender m =? rewardSigner s) CallerIsNotRewardSigner ;;
  require (negb (recipient =? 0)) InvalidRecipient ;;
  require (0 <? amount) AmountMustBePositive ;;
  require (negb (is_claimed s claimId)) RewardAlreadyClaimed ;;
  require (amount <=? balance s) InsufficientTreasuryBalance ;;
  settle m recipient amount claimId s.

(** The first loop of [batchProcessRewards], lines 140-143. *)
Fixpoint sum_amounts (amounts : list uint256) (totalAmount : uint256)
    : result Revert uint256 :=
  match amounts with
  | [] => Ok totalAmount
  | a :: rest => t ← checked_add totalAmount a; sum_amounts rest t
  end.

(** The second loop, lines 146-160, over the three arrays in step (they
    have the same length by the first [require]). *)
Fixpoint batch_loop (m : Msg) (entries : list (address * uint256 * bytes32))
    (s : State) (evs : list Event) : result Revert (State * list Event) :=
  match entries with
  | [] => Ok (s, evs)
  | (recipient, amount, claimId) :: rest =>
      require (negb (recipient =? 0)) InvalidRecipient ;;
      require (0 <? amount) AmountMustBePositive ;;
      require (negb (is_claimed s claimId)) RewardAlreadyClaimed ;;
      r ← settle m recipient amount claimId s;
      batch_loop m rest (fst r) (evs ++ snd r)
  end.

Definition zip3 (recipients : list address) (amounts : list uint256)
    (claimIds : list bytes32) : list (address * uint256 * bytes32) :=
  zip (zip recipients amounts) claimIds.

Definition batchProcessRewards (m : Msg) (recipients : list address)
    (amounts : list uint256) (claimIds : list bytes32) (s : State)
    : result Revert (State * list Event) :=
  require (sender m =? rewardSigner s) CallerIsNotRewardSigner ;;
  require (Nat.eqb (length recipients) (length amounts)
           && Nat.eqb (length amounts) (length claimIds)) ArrayLengthMismatch ;;
  require (Nat.ltb 0 (length recipients)) EmptyBatch ;;
  require (Nat.leb (length recipients) 100) BatchTooLarge ;;
  totalAmount ← sum_amounts amounts 0;
  require (totalAmount <=? balance s) InsufficientTreasuryBalance ;;
  batch_loop m (zip3 recipients amounts claimIds) s [].

Definition setRewardSigner (m : Msg) (_newSigner : address) (s : State)
    : result Revert (State * list Event) :=
  require (sender m =? owner s) CallerIsNotOwner ;;
  require (negb (_newSigner =? 0)) InvalidSignerAddress ;;
  Ok (set_rewardSigner _newSigner s,
      [RewardSignerUpdated (rewardSigner s) _newSigner]).

Definition setRewardRate (m : Msg) (_newRate : uint256) (s : State)
    : result Revert (State * list Event) :=
  require (sender m =? owner s) CallerIsNotOwner ;;
  require (0 <? _newRate) RateMustBePositive ;;
  Ok (set_rewardPerHeartbeat _newRate s,
      [RewardRateUpdated (rewardPerHeartbeat s) _newRate]).

Definition emergencyWithdraw (m : Msg) (to : address) (amount : uint256)
    (s : State) : result Revert (State * list Event) :=
  require (sender m =? owner s) CallerIsNotOwner ;;
  require (negb (to =? 0)) InvalidAddress ;;
  require (amount <=? balance s) InsufficientBalance ;;
  match call_value m to amount s with
  | None => Err WithdrawalFailed
  | Some (s', evs) => Ok (s', evs ++ [EmergencyWithdrawal to amount])
  end.

Definition transferOwnership (m : Msg) (newOwner : address) (s : State)
    : result Revert (State * list Event) :=
  require (sender m =? owner s) CallerIsNotOwner ;;
  require (negb (newOwner =? 0)) InvalidOwnerAddress ;;
  Ok (set_owner newOwner s, []).

(** View functions. *)
Definition getTreasuryBalance (s : State) : uint256 := balance s.
Definition getUserEarnings (s : State) (user : address) : uint256 :=
  earnings s user.
Definition getStats (s : State) : uint256 * uint256 * uint256 * uint256 :=
  (balance s, totalRewardsDistributed s, totalClaimsProcessed s,
   rewardPerHeartbeat s).

(** The external interface of the deployed contract.  Only [fundTreasury]
    and [receive] are payable and carry a value; the other functions are
    called without value. *)
Inductive Call : Type :=
| CFundTreasury (value : uint256)
| CReceive (value : uint256)
| CProcessReward (recipient : address) (amount : uint256) (claimId : bytes32)
| CBatchProcessRewards (recipients : list address) (amounts : list uint256)
                       (claimIds : list bytes32)
| CSetRewardSigner (_newSigner : address)
| CSetRewardRate (_newRate : uint256)
| CEmergencyWithdraw (to : address) (amount : uint256)
| CTransferOwnership (newOwner : address)
| CGetTreasuryBalance
| CGetUserEarnings (user : address)
| CIsClaimProcessed (claimId : bytes32)
| CGetStats.

Definition call (m : Msg) (c : Call) (s : State)
    : result Revert (State * list Event) :=
  match c with
  | CFundTreasury v => fundTreasury m v s
  | CReceive v => receive m v s
  | CProcessReward r a c => processReward m r a c s
  | CBatchProcessRewards rs az cs => batchProcessRewards m rs az cs s
  | CSetRewardSigner a => setRewardSigner m a s
  | CSetRewardRate r => setRewardRate m r s
  | CEmergencyWithdraw to a => emergencyWithdraw m to a s
  | CTransferOwnership o => transferOwnership m o s
  | CGetTreasuryBalance | CGetUserEarnings _ | CIsClaimProcessed _
  | CGetStats => Ok (s, [])
  end.

(** A transaction either commits the new state or reverts to the old one. *)
Definition transact (m : Msg) (c : Call) (s : State) : State :=
  match call m c s with
  | Ok (s', _) => s'
  | Err _ => s
  end.

Fixpoint run (tx : list (Msg * Call)) (s : State) : State :=
  match tx with
  | [] => s
  | (m, c) :: rest => run rest (transact m c s)
  end.

(** States of a deployed contract. *)
Inductive reachable : State -> Prop :=
| reachable_deploy m value self signer s evs :
    constructor m value self signer = Ok (s, evs) -> reachable s
| reachable_call m c s :
    reachable s -> reachable (transact m c s).

End RewardTreasury.

(** * The ledger client (backend/blockchain.go) *)

Module LedgerClient.

(** ** go-ethereum helpers the client calls

    [common.IsHexAddress], [common.HexToAddress], [Address.Bytes] and
    [big.Int.Bytes] belong to the go-ethereum and Go libraries; they are
    written out here as those libraries document them. *)

Definition has0xPrefix (s : string) : bool :=
  match s with
  | String "0"%char (String c _) =>
      (Ascii.eqb c "x"%char || Ascii.eqb c "X"%char)%bool
  | _ => false
  end.

Definition isHexCharacter (c : ascii) : bool :=
  let n := N_of_ascii c in
  ((48 <=? n) && (n <=? 57) || (97 <=? n) && (n <=? 102)
   || (65 <=? n) && (n <=? 70))%bool.

Fixpoint allHex (s : string) : bool :=
  match s with
  | EmptyString => true
  | String c rest => (isHexCharacter c && allHex rest)%bool
  end.

Definition strip0x (s : string) : string :=
  if has0xPrefix s then
    match s with String _ (String _ rest) => rest | _ => s end
  else s.

(** [IsHexAddress]: an optional [0x] prefix followed by exactly 40
    hexadecimal digits.  The null address is well formed. *)
Definition IsHexAddress (s : string) : bool :=
  (Nat.eqb (String.length (strip0x s)) 40 && allHex (strip0x s))%bool.

Definition hexDigit (c : ascii) : N :=
  let n := N_of_ascii c in
  if (48 <=? n) && (n <=? 57) then n - 48
  else if (97 <=? n) && (n <=? 102) then n - 87
  else n - 55.

Fixpoint hexValue (s : string) (acc : N) : N :=
  match s with
  | EmptyString => acc
  | String c rest => hexValue rest (16 * acc + hexDigit c)
  end.

(** [HexToAddress] on a string that passed [IsHexAddress]: the 160-bit
    value of its digits. *)
Definition HexToAddress (s : string) : N := hexValue (strip0x s) 0.

Definition byte_of_N (n : N) : byte :=
  default Byte.x00 (Byte.of_N (n mod 256)).

(** The [len] low-order bytes of [n], most significant first. *)
Fixpoint be_fixed (len : nat) (n : N) : list byte :=
  match len with
  | O => []
  | S k => byte_of_N (n / 256 ^ N.of_nat k) :: be_fixed k n
  end.

(** [Address.Bytes]: 20 bytes. *)
Definition Address_Bytes (a : N) : list byte := be_fixed 20 a.

(** The base-256 digits of [n], least significant first, none for 0. *)
Fixpoint le_digits (fuel : nat) (n : N) : list byte :=
  match fuel with
  | O => []
  | S f => if n =? 0 then [] else byte_of_N n :: le_digits f (n / 256)
  end.

(** [big.Int.Bytes]: the absolute value as a big-endian byte slice
    without leading zeros; the sign is dropped and 0 is the empty slice. *)
Definition Int_Bytes (x : Z) : list byte :=
  rev (le_digits (N.to_nat (N.size (Z.abs_N x))) (Z.abs_N x)).

(** Reading a big-endian byte slice back ([big.Int.SetBytes]). *)
Definition SetBytes (bs : list byte) : N :=
  fold_left (fun acc b => 256 * acc + Byte.to_N b) bs 0.

(** [uint64] arithmetic of [currentNonce++] and [currentNonce--]. *)
Definition UINT64 : N := 2 ^ 64.
Definition inc64 (n : N) : N := (n + 1) mod UINT64.
Definition dec64 (n : N) : N := (n + UINT64 - 1) mod UINT64.

(** The three byte slices hashed at lines 197-201, concatenated. *)
Definition claim_preimage (recipientAddr : N) (amount : Z) (unixNano : Z)
    : list byte :=
  Address_Bytes recipientAddr ++ Int_Bytes amount ++ Int_Bytes unixNano.

Section Client.

(** [crypto.Keccak256Hash]: Keccak-256 of the concatenated arguments, a
    32-byte value.  The client only hashes with it; it stays a parameter. *)
Variable Keccak256 : list byte -> list byte.

(** The claim identifier of lines 196-201. *)
Definition claimID (recipientAddr : N) (amount : Z) (unixNano : Z)
    : list byte :=
  Keccak256 (claim_preimage recipientAddr amount unixNano).

(** The arguments packed for [processReward]. *)
Record CallData : Type := mkCallData {
  cd_recipient : N;
  cd_amount : Z;
  cd_claimId : list byte
}.

(** A legacy transaction as built by [types.NewTransaction].  Where the
    code returns the hash of the signed transaction, the model returns the
    transaction the hash names. *)
Record Tx : Type := mkTx {
  tx_nonce : N;
  tx_to : N;
  tx_value : Z;
  tx_gasLimit : N;
  tx_gasPrice : N;
  tx_data : option CallData
}.

(** The errors [ProcessReward] returns, by the message that wraps them.
    All but the first wrap the error of the library call or request that
    failed ([fmt.Errorf] with [%w]). *)
Inductive Error : Type :=
| InvalidRecipientAddress   (* "invalid recipient address" *)
| FailedToPack              (* "failed to pack function call" *)
| FailedToGetGasPrice       (* "failed to get gas price" *)
| FailedToEstimateGas       (* "failed to estimate gas" *)
| FailedToSign              (* "failed to sign transaction" *)
| FailedToSend.             (* "failed to send transaction" *)

(** [err.Error()]: the wrapper's text, then a colon and the text of the
    wrapped error, [cause]. *)
Definition Error_text (cause : string) (e : Error) : string :=
  match e with
  | InvalidRecipientAddress => "invalid recipient address"%string
  | FailedToPack => ("failed to pack function call: " ++ cause)%string
  | FailedToGetGasPrice => ("failed to get gas price: " ++ cause)%string
  | FailedToEstimateGas => ("failed to estimate gas: " ++ cause)%string
  | FailedToSign => ("failed to sign transaction: " ++ cause)%string
  | FailedToSend => ("failed to send transaction: " ++ cause)%string
  end.

(** What the clock, the library and the ledger answer during one call of
    [ProcessReward]: the clock reading of line 200 and the outcome of each
    request ([None] or [false]: the request returns an error), and the
    text of the error that the failing one returns, [cause]. *)
Record Answers : Type := mkAnswers {
  unixNano : Z;
  pack_ok : bool;
  suggestGasPrice : option N;
  estimateGas : option N;
  sign_ok : bool;
  send_ok : bool;
  cause : string
}.

(** One call of [ProcessReward]: its arguments and the answers it gets. *)
Record Attempt : Type := mkAttempt {
  recipient : string;
  amount : Z;
  answers : Answers
}.

(** The fields of [BlockchainClient] the reward path reads or writes.
    [contractAddress] is 0 when no contract is configured; [nonceMux] is
    the goroutine holding the mutex, if any. *)
Record Client : Type := mkClient {
  contractAddress : N;
  currentNonce : N;
  nonceMux : option nat
}.

(** Requests to the ledger. *)
Inductive Rpc : Type :=
| SuggestGasPrice
| EstimateGas
| SendTransaction (tx : Tx)
| BalanceAt (addr : N).

(** What a goroutine does to shared state or to the network, in order. *)
Inductive Action : Type :=
| ALock
| AUnlock
| ATakeNonce (nonce : N)     (* nonce := currentNonce; currentNonce++ *)
| AReturnNonce               (* currentNonce-- *)
| ACall (r : Rpc).

Record World : Type := mkWorld {
  client : Client;
  submitted : list Tx;            (* accepted by [SendTransaction], in order *)
  trace : list (nat * Action)     (* newest last *)
}.

(** Where a goroutine stands inside [ProcessReward].  [data] is [Some] on
    the contract path and [None] on the direct-transfer path. *)
Inductive Pc : Type :=
| PcEntry
| PcGasPrice (to : N) (data : option CallData)
| PcLock (to : N) (data : option CallData) (gasPrice : N)
| PcTakeNonce (to : N) (data : option CallData) (gasPrice : N)
| PcUnlock (to : N) (data : option CallData) (gasPrice : N) (nonce : N)
| PcEstimateGas (data : CallData) (gasPrice : N) (nonce : N)
| PcSign (tx : Tx)
| PcSend (tx : Tx)
| PcRollbackLock (e : Error)
| PcRollbackDec (e : Error)
| PcRollbackUnlock (e : Error)
| PcReturn (r : result Error Tx).

Definition with_client (c : Client) (w : World) : World :=
  mkWorld c (submitted w) (trace w).

Definition logged (g : nat) (a : Action) (w : World) : World :=
  mkWorld (client w) (submitted w) (trace w ++ [(g, a)]).

Definition set_nonce (n : N) (c : Client) : Client :=
  mkClient (contractAddress c) n (nonceMux c).

Definition set_mux (h : option nat) (c : Client) : Client :=
  mkClient (contractAddress c) (currentNonce c) h.

(** [nonceMux.Lock()]: proceeds only when the mutex is free. *)
Definition lock (g : nat) (next : Pc) (stay : Pc) (w : World) : Pc * World :=
  match nonceMux (client w) with
  | None => (next, logged g ALock (with_client (set_mux (Some g) (client w)) w))
  | Some _ => (stay, w)
  end.

Definition unlock (g : nat) (w : World) : World :=
  logged g AUnlock (with_client (set_mux None (client w)) w).

(** One atomic step of goroutine [g] running attempt [a]. *)
Definition step (g : nat) (a : Attempt) (pc : Pc) (w : World) : Pc * World :=
  match pc with
  | PcEntry =>
      (* ProcessReward, lines 180-186 *)
      if contractAddress (client w) =? 0 then
        (* sendDirectTransfer, lines 271-275 *)
        if negb (IsHexAddress (recipient a)) then
          (PcReturn (Err InvalidRecipientAddress), w)
        else (PcGasPrice (HexToAddress (recipient a)) None, w)
      else
        (* sendContractReward, lines 190-207 *)
        if negb (IsHexAddress (recipient a)) then
          (PcReturn (Err InvalidRecipientAddress), w)
        else
          let recipientAddr := HexToAddress (recipient a) in
          let claimId :=
            claimID recipientAddr (amount a) (unixNano (answers a)) in
          let data := mkCallData recipientAddr (amount a) claimId in
          if pack_ok (answers a) then
            (PcGasPrice (contractAddress (client w)) (Some data), w)
          else (PcReturn (Err FailedToPack), w)
  | PcGasPrice to data =>
      (* lines 210-213, 278-281 *)
      let w := logged g (ACall SuggestGasPrice) w in
      match suggestGasPrice (answers a) with
      | Some gp => (PcLock to data gp, w)
      | None => (PcReturn (Err FailedToGetGasPrice), w)
      end
  | PcLock to data gp =>
      (* lines 216, 284 *)
      lock g (PcTakeNonce to data gp) pc w
  | PcTakeNonce to data gp =>
      (* lines 217-218, 285-286: both statements, inside the critical
         section *)
      let nonce := currentNonce (client w) in
      (PcUnlock to data gp nonce,
       logged g (ATakeNonce nonce)
         (with_client (set_nonce (inc64 nonce) (client w)) w))
  | PcUnlock to data gp nonce =>
      (* lines 219, 287; the direct path builds its transaction at once *)
      match data with
      | Some d => (PcEstimateGas d gp nonce, unlock g w)
      | None => (PcSign (mkTx nonce to (amount a) 21000 gp None), unlock g w)
      end
  | PcEstimateGas d gp nonce =>
      (* lines 222-246 *)
      let w := logged g (ACall EstimateGas) w in
      match estimateGas (answers a) with
      | Some gasLimit =>
          let to := contractAddress (client w) in
          (PcSign (mkTx nonce to 0 gasLimit gp (Some d)), w)
      | None => (PcRollbackLock FailedToEstimateGas, w)
      end
  | PcSign tx =>
      (* lines 249-255, 300-306 *)
      if sign_ok (answers a) then (PcSend tx, w)
      else (PcRollbackLock FailedToSign, w)
  | PcSend tx =>
      (* lines 258-266, 309-317 *)
      let w := logged g (ACall (SendTransaction tx)) w in
      if send_ok (answers a) then
        (PcReturn (Ok tx), mkWorld (client w) (submitted w ++ [tx]) (trace w))
      else (PcRollbackLock FailedToSend, w)
  | PcRollbackLock e => lock g (PcRollbackDec e) pc w
  | PcRollbackDec e =>
      let nonce := dec64 (currentNonce (client w)) in
      (PcRollbackUnlock e,
       logged g AReturnNonce (with_client (set_nonce nonce (client w)) w))
  | PcRollbackUnlock e => (PcReturn (Err e), unlock g w)
  | PcReturn r => (pc, w)
  end.

(** Goroutine [g] running alone for [fuel] steps. *)
Fixpoint run_alone (fuel : nat) (g : nat) (a : Attempt) (pc : Pc) (w : World)
    : Pc * World :=
  match fuel with
  | O => (pc, w)
  | S f => let '(pc', w') := step g a pc w in run_alone f g a pc' w'
  end.

(** [ProcessReward] called by goroutine [g] with no other goroutine inside
    it: at most eleven steps separate entry from return. *)
Definition ProcessReward (g : nat) (a : Attempt) (w : World)
    : option (result Error Tx) * World :=
  match run_alone 11 g a PcEntry w with
  | (PcReturn r, w') => (Some r, w')
  | (_, w') => (None, w')
  end.

(** ** Concurrent calls

    A pool of goroutines, each inside one call of [ProcessReward]; a
    schedule names the goroutine that takes the next step. *)
Record Pool : Type := mkPool {
  goroutines : list (Attempt * Pc);
  world : World
}.

Definition spawn (attempts : list Attempt) (w : World) : Pool :=
  mkPool (map (fun a => (a, PcEntry)) attempts) w.

Definition sched_step (g : nat) (p : Pool) : Pool :=
  match goroutines p !! g with
  | Some (a, pc) =>
      let '(pc', w') := step g a pc (world p) in
      mkPool (<[g := (a, pc')]> (goroutines p)) w'
  | None => p
  end.

Definition schedule (sch : list nat) (p : Pool) : Pool :=
  fold_left (fun p g => sched_step g p) sch p.

Definition returned (p : Pool) : list (option (result Error Tx)) :=
  map (fun t => match snd t with PcReturn r => Some r | _ => None end)
      (goroutines p).

Definition nonces_used (w : World) : list N := map tx_nonce (submitted w).

(** [GetBalance], lines 144-156: a local format check, then one request. *)
Definition GetBalance (g : nat) (addr : string) (answer : option Z) (w : World)
    : option Z * World :=
  if negb (IsHexAddress addr) then (None, w)
  else (answer, logged g (ACall (BalanceAt (HexToAddress addr))) w).

End Client.

End LedgerClient.

(** * The server: heartbeat handlers and block monitor *)

Module Server.

Import LedgerClient.

(** [int64] increment of [session.Heartbeats++] and [TotalHeartbeats++]. *)
Definition inc_int64 (h : Z) : Z :=
  ((h + 1 + 2 ^ 63) mod 2 ^ 64 - 2 ^ 63)%Z.

Record Config : Type := mkConfig {
  ContractAddress : string;
  RewardPerHeartbeat : Z
}.

Record ClientSession : Type := mkClientSession {
  WalletAddress : string;
  Heartbeats : Z;
  TotalEarned : Z
}.

Record BlockInfo : Type := mkBlockInfo {
  Number : N;
  Hash : string;
  Timestamp : Z;
  TxCount : Z
}.

Record ServerStats : Type := mkServerStats {
  TotalHeartbeats : Z;
  TotalRewards : Z;
  BlockHeight : N;
  LastBlockTime : Z
}.

Record HeartbeatRequest : Type := mkHeartbeatRequest {
  req_WalletAddress : string;
  req_AdID : string;
  req_Duration : Z
}.

(** The JSON body of a heartbeat reply.  [TxHash] is the submitted
    transaction the hash names; [NewBalance] is the balance in wei that
    [weiToEther] renders, when it could be read. *)
Record HeartbeatResponse : Type := mkHeartbeatResponse {
  Success : bool;
  RewardWei : Z;
  TxHash : option Tx;
  Message : string;
  NewBalance : option Z
}.

(** [http.Error] writes its message followed by a newline. *)
Definition newline : string := String (ascii_of_N 10) EmptyString.

Inductive HttpReply : Type :=
| HttpError (status : nat) (text : string)
| HttpJSON (body : HeartbeatResponse).

(** Values of the [map[string]interface{}] replies written to a socket. *)
Inductive Value : Type :=
| VString (s : string)
| VInt (z : Z)
| VBool (b : bool)
| VHash (tx : option Tx).     (* [None]: the empty string *)

(** Messages read from a socket, by their ["type"]. *)
Inductive WSMessage : Type :=
| MsgRegister (wallet_address : option string)  (* [None]: not a string *)
| MsgHeartbeat
| MsgPing
| MsgOther.

(** What the handlers share: the ledger client and the statistics. *)
Record ServerState : Type := mkServerState {
  blockchain : World;
  stats : ServerStats
}.

Definition add_reward (rewardWei : Z) (st : ServerStats) : ServerStats :=
  mkServerStats (inc_int64 (TotalHeartbeats st)) (TotalRewards st + rewardWei)
                (BlockHeight st) (LastBlockTime st).

Section Handlers.

Variable Keccak256 : list byte -> list byte.
Variable config : Config.

(** [handleHeartbeat], lines 325-380.  [body] is the decoded request
    ([None]: the body does not decode); [ans] and [bal] are the answers to
    the reward call and to the balance read.  The result is [None] when the
    reward call does not return. *)
Definition handleHeartbeat (g : nat) (body : option HeartbeatRequest)
    (ans : Answers) (bal : option Z) (s : ServerState)
    : option HttpReply * ServerState :=
  match body with
  | None => (Some (HttpError 400 ("Invalid request body" ++ newline)), s)
  | Some req =>
      if String.eqb (req_WalletAddress req) "" then
        (Some (HttpError 400 ("Wallet address required" ++ newline)), s)
      else
        let rewardWei := RewardPerHeartbeat config in
        match ProcessReward Keccak256 g
                (mkAttempt (req_WalletAddress req) rewardWei ans)
                (blockchain s) with
        | (None, w) => (None, mkServerState w (stats s))
        | (Some (Err e), w) =>
            (Some (HttpJSON
               (mkHeartbeatResponse false rewardWei None
                  ("Reward queued but transaction failed: "
                   ++ Error_text (cause ans) e)
                  None)),
             mkServerState w (stats s))
        | (Some (Ok txHash), w) =>
            let '(newBalance, w) :=
              GetBalance g (req_WalletAddress req) bal w in
            (Some (HttpJSON
               (mkHeartbeatResponse true rewardWei (Some txHash)
                  "Reward processed successfully" newBalance)),
             mkServerState w (add_reward rewardWei (stats s)))
        end
  end.

(** The effect of one socket message: the handler goes on with a session,
    having written some replies, or it panics (Go slices out of range), or
    it waits inside the reward call. *)
Inductive WSResult : Type :=
| WSContinue (session : ClientSession) (written : list (gmap string Value))
             (s : ServerState)
| WSPanic
| WSBlocked.

(** The reply of lines 504-523; [r] is the transaction named by [txHash],
    or the text of [err]. *)
Definition rewardReply (session : ClientSession) (rewardWei : Z)
    (r : result string Tx) (bal : option Z) : gmap string Value :=
  let response : gmap string Value :=
    <["heartbeats" := VInt (Heartbeats session)]>
    (<["tx_hash" := VHash (match r with Ok tx => Some tx | Err _ => None end)]>
    (<["reward_wei" := VInt rewardWei]>
    (<["success" := VBool (is_ok r)]>
    (<["type" := VString "reward"]> ∅)))) in
  match r with
  | Ok _ =>
      let response :=
        <["total_earned" := VInt (TotalEarned session)]> response in
      match bal with
      | Some b => <["balance_wei" := VInt b]> (<["balance" := VInt b]> response)
      | None => response
      end
  | Err text => <["error" := VString text]> response
  end.

(** One iteration of the loop of [handleWSMessages], lines 489-530. *)
Definition handleWSMessage (g : nat) (msg : WSMessage) (ans : Answers)
    (bal : option Z) (session : ClientSession) (s : ServerState) : WSResult :=
  match msg with
  | MsgRegister (Some addr) =>
      (* line 494 slices [addr[:10]] after the assignment *)
      if Nat.ltb (String.length addr) 10 then WSPanic
      else WSContinue (mkClientSession addr (Heartbeats session)
                         (TotalEarned session)) [] s
  | MsgRegister None => WSContinue session [] s
  | MsgHeartbeat =>
      if String.eqb (WalletAddress session) "" then WSContinue session [] s
      else
        let session :=
          mkClientSession (WalletAddress session)
            (inc_int64 (Heartbeats session)) (TotalEarned session) in
        let rewardWei := RewardPerHeartbeat config in
        match ProcessReward Keccak256 g
                (mkAttempt (WalletAddress session) rewardWei ans)
                (blockchain s) with
        | (None, _) => WSBlocked
        | (Some (Err e), w) =>
            WSContinue session
              [rewardReply session rewardWei
                 (Err (Error_text (cause ans) e)) None]
              (mkServerState w (stats s))
        | (Some (Ok txHash), w) =>
            let session :=
              mkClientSession (WalletAddress session) (Heartbeats session)
                (TotalEarned session + rewardWei) in
            let '(balance, w) := GetBalance g (WalletAddress session) bal w in
            WSContinue session
              [rewardReply session rewardWei (Ok txHash) balance]
              (mkServerState w (stats s))
        end
  | MsgPing => WSContinue session [<["type" := VString "pong"]> ∅] s
  | MsgOther => WSContinue session [] s
  end.

(** The loop of [handleWSMessages] over the messages read until the
    connection fails. *)
Fixpoint handleWSMessages (g : nat)
    (msgs : list (WSMessage * Answers * option Z)) (session : ClientSession)
    (written : list (gmap string Value)) (s : ServerState) : WSResult :=
  match msgs with
  | [] => WSContinue session written s
  | (msg, ans, bal) :: rest =>
      match handleWSMessage g msg ans bal session s with
      | WSContinue session' out s' =>
          handleWSMessages g rest session' (written ++ out) s'
      | WSPanic => WSPanic
      | WSBlocked => WSBlocked
      end
  end.

End Handlers.

(** ** Block monitor, lines 535-562

    [lastBlock] is the local variable of the loop, [blockUpdates] the
    blocks sent on the channel, oldest first (a send waits while the buffer
    of 100 is full; it is never dropped). *)
Record Monitor : Type := mkMonitor {
  lastBlock : N;
  blockUpdates : list BlockInfo;
  monitorStats : ServerStats
}.

Definition observe (block : BlockInfo) (st : ServerStats) : ServerStats :=
  mkServerStats (TotalHeartbeats st) (TotalRewards st) (Number block)
                (Timestamp block).

(** One tick of the ticker; [poll] is [None] when [GetLatestBlock] fails. *)
Definition tick (poll : option BlockInfo) (m : Monitor) : Monitor :=
  match poll with
  | None => m
  | Some block =>
      if lastBlock m <? Number block then
        mkMonitor (Number block) (blockUpdates m ++ [block])
                  (observe block (monitorStats m))
      else m
  end.

Definition monitor_loop (polls : list (option BlockInfo)) (m : Monitor)
    : Monitor :=
  fold_left (fun m poll => tick poll m) polls m.

(** [blockMonitor] from its start ([var lastBlock uint64] is 0) until the
    context is cancelled, having polled [polls]. *)
Definition blockMonitor (polls : list (option BlockInfo)) (st : ServerStats)
    : Monitor :=
  monitor_loop polls (mkMonitor 0 [] st).

Definition published (m : Monitor) : list N := map Number (blockUpdates m).

End Server.

(** * Specification vocabulary *)

Import RewardTreasury.

(** The sum of [userTotalEarnings] over all addresses (absent keys are 0). *)
Definition sum_earnings (m : gmap N N) : N :=
  map_fold (fun _ v acc => v + acc) 0 m.

(** The bookkeeping invariant of the treasury. *)
Definition treasury_invariant (s : State) : Prop :=
  totalRewardsDistributed s = sum_earnings (userTotalEarnings s)
  /\ totalClaimsProcessed s = N.of_nat (size (claimedRewards s)).

(** The amounts a call settles when it commits. *)
Definition amounts_of (c : Call) : list N :=
  match c with
  | CProcessReward _ a _ => [a]
  | CBatchProcessRewards _ az _ => az
  | _ => []
  end.

(** The amounts settled by the transactions of [tx] that commit, in order:
    one per successful [processReward], one per entry of a successful
    [batchProcessRewards]. *)
Fixpoint settled (tx : list (Msg * Call)) (s : State) : list N :=
  match tx with
  | [] => []
  | (m, c) :: rest =>
      (if is_ok (call m c s) then amounts_of c else [])
      ++ settled rest (transact m c s)
  end.

Definition sum_list (l : list N) : N := fold_right N.add 0 l.

(** The roles and counters of a state are in range. *)
Definition within_bounds (s : State) : Prop :=
  rewardSigner s <> 0
  /\ 0 < rewardPerHeartbeat s
  /\ totalRewardsDistributed s <= MAX_UINT256
  /\ totalClaimsProcessed s <= MAX_UINT256.

(** A batch of two rewards used in examples. *)
Definition two_rewards : Call :=
  CBatchProcessRewards [5; 6] [1000; 2000] [7; 8].

(** A deployment used in examples: owner 1, reward signer 2, the contract
    at address 100 funded with 10000 wei; every recipient accepts value. *)
Definition by_owner : Msg := mkMsg 1 1700000000 (fun _ => true).
Definition by_signer : Msg := mkMsg 2 1700000000 (fun _ => true).
Definition deployed : State := mkState 100 10000 1 2 0 0 1000 ∅ ∅.

Import LedgerClient.

(** The value of base-256 digits given least significant first. *)
Definition le_value (bs : list byte) : N :=
  fold_right (fun b acc => Byte.to_N b + 256 * acc) 0 bs.

Definition answered {A} (o : option A) : bool :=
  match o with Some _ => true | None => false end.

(** Whether a call gets as far as taking a sequence number: the recipient
    is well formed, the call data packs (contract path) and the gas price
    request succeeds. *)
Definition takes_nonce (c : Client) (a : Attempt) : bool :=
  (IsHexAddress (recipient a)
   && ((contractAddress c =? 0) || pack_ok (answers a))
   && answered (suggestGasPrice (answers a)))%bool.

(** The first request that fails once the sequence number is taken: gas
    estimation (contract path only), signing or sending. *)
Definition fails_after_nonce (c : Client) (a : Attempt) : option Error :=
  if (negb (contractAddress c =? 0)
      && negb (answered (estimateGas (answers a))))%bool
  then Some FailedToEstimateGas
  else if negb (sign_ok (answers a)) then Some FailedToSign
  else if negb (send_ok (answers a)) then Some FailedToSend
  else None.

(** A stand-in digest for closed examples: the last 32 bytes, padded. *)
Definition last32 (bs : list byte) : list byte :=
  take 32 (rev bs ++ replicate 32 Byte.x00).

Definition all_ok : Answers :=
  mkAnswers 1700000000000000000 true (Some 1000000000) (Some 60000) true true
    "".
Definition estimate_fails : Answers :=
  mkAnswers 1700000000000000001 true (Some 1000000000) None true true
    "execution reverted".
Definition send_fails : Answers :=
  mkAnswers 1700000000000000002 true (Some 1000000000) (Some 60000) true false
    "connection refused".

Definition alice : string := "0x1111111111111111111111111111111111111111".
Definition bob : string := "0x2222222222222222222222222222222222222222".
Definition null_address : string :=
  "0x0000000000000000000000000000000000000000".

(** A client with the contract at address 192 and next sequence number 7,
    and one with no contract configured. *)
Definition contract_world : World := mkWorld (mkClient 192 7 None) [] [].
Definition direct_world : World := mkWorld (mkClient 0 7 None) [] [].

(** Three concurrent calls on the contract path: goroutine 0 pays the null
    address, which the contract refuses, so its gas estimation fails;
    goroutines 1 and 2 pay alice and bob.  In [race_schedule] goroutines 0
    and 1 take their sequence numbers, 0 fails and gives its number back, 1
    submits, then 2 runs from entry to submission. *)
Definition race_attempts : list Attempt :=
  [mkAttempt null_address 1000 estimate_fails;
   mkAttempt alice 1000 all_ok;
   mkAttempt bob 1000 all_ok].

Definition race_schedule : list nat :=
  [0; 0; 0; 0; 0;  1; 1; 1; 1; 1;  0; 0; 0; 0;  1; 1; 1;
   2; 2; 2; 2; 2; 2; 2; 2]%nat.

Definition succeeded (r : option (result Error Tx)) : bool :=
  match r with Some (Ok _) => true | _ => false end.

(** Calls of [ProcessReward] made one after the other by goroutine [g],
    each returning before the next starts; the results are collected. *)
Fixpoint in_sequence (Keccak256 : list byte -> list byte) (g : nat)
    (attempts : list Attempt) (w : World)
    : list (option (result Error Tx)) * World :=
  match attempts with
  | [] => ([], w)
  | a :: rest =>
      let '(r, w1) := ProcessReward Keccak256 g a w in
      let '(rs, w2) := in_sequence Keccak256 g rest w1 in
      (r :: rs, w2)
  end.

(** [k; k+1; ...; k+n-1]. *)
Fixpoint consecutive (k : N) (n : nat) : list N :=
  match n with
  | O => []
  | S m => k :: consecutive (k + 1) m
  end.

Definition count_succeeded (rs : list (option (result Error Tx))) : nat :=
  length (List.filter succeeded rs).

Import Server.

(** A polled block of height [h], and the polls of the scenario. *)
Definition block_at (h : N) : BlockInfo := mkBlockInfo h "" 0 0.
Definition no_stats : ServerStats := mkServerStats 0 0 0 0.
Definition polls_5_5_6_8 : list (option BlockInfo) :=
  [Some (block_at 5); Some (block_at 5); Some (block_at 6); Some (block_at 8)].

(** The reward call a heartbeat triggers. *)
Definition heartbeat_attempt (config : Config) (wallet : string) (ans : Answers)
    : Attempt :=
  mkAttempt wallet (RewardPerHeartbeat config) ans.


Definition default_config : Config := mkConfig "" 1000.
Definition idle_server : ServerState := mkServerState contract_world no_stats.
Definition unregistered : ClientSession := mkClientSession "" 0 0.
Definition registered : ClientSession := mkClientSession alice 3 3000.

(** The program points between [Lock] and [Unlock]. *)
Definition holding (pc : Pc) : bool :=
  match pc with
  | PcTakeNonce _ _ _ | PcUnlock _ _ _ _
  | PcRollbackDec _ | PcRollbackUnlock _ => true
  | _ => false
  end.

(** Reading a trace with the holder of the mutex in hand: [Lock] needs the
    mutex free, [Unlock] and every access to the counter need their
    goroutine to hold it, and no request goes to the network from a
    goroutine that holds it.  [None] is a breach. *)
Definition check_action (st : option (option nat)) (x : nat * Action)
    : option (option nat) :=
  match st with
  | None => None
  | Some h =>
      match snd x with
      | ALock => match h with None => Some (Some (fst x)) | Some _ => None end
      | AUnlock => if decide (h = Some (fst x)) then Some None else None
      | ATakeNonce _ | AReturnNonce =>
          if decide (h = Some (fst x)) then Some h else None
      | ACall _ => if decide (h = Some (fst x)) then None else Some h
      end
  end.

Definition mutex_discipline (tr : list (nat * Action)) : option (option nat) :=
  fold_left check_action tr (Some None).

(** What every schedule keeps true of a pool. *)
Definition pool_invariant (p : Pool) : Prop :=
  mutex_discipline (trace (world p)) = Some (nonceMux (client (world p)))
  /\ forall g a pc,
       goroutines p !! g = Some (a, pc) ->
       (holding pc = true <-> nonceMux (client (world p)) = Some g).

(** The sequence number a goroutine has taken and not yet submitted. *)
Definition pc_nonce (pc : Pc) : option N :=
  match pc with
  | PcUnlock _ _ _ n | PcEstimateGas _ _ n => Some n
  | PcSign tx | PcSend tx => Some (tx_nonce tx)
  | _ => None
  end.

Definition in_flight (p : Pool) : list N :=
  omap (fun t => pc_nonce (snd t)) (goroutines p).

Definition rolling_back (pc : Pc) : bool :=
  match pc with
  | PcRollbackLock _ | PcRollbackDec _ | PcRollbackUnlock _ => true
  | _ => false
  end.

(** Program points of the contract path. *)
Definition contract_path (pc : Pc) : bool :=
  match pc with
  | PcGasPrice _ (Some _) | PcLock _ (Some _) _ | PcTakeNonce _ (Some _) _
  | PcUnlock _ (Some _) _ _ | PcEstimateGas _ _ _ => true
  | _ => false
  end.

(** The [m] sequence numbers handed out from [k] on, in [uint64]. *)
Definition issued (k : N) (m : nat) : list N :=
  map (fun i => (k + N.of_nat i) mod UINT64) (seq 0 m).

(** What every schedule keeps true when no call fails after taking its
    sequence number: nobody rolls back, and the numbers in flight together
    with the numbers submitted are those handed out so far. *)
Definition no_rollback_invariant (ca k : N) (p : Pool) : Prop :=
  contractAddress (client (world p)) = ca
  /\ (forall g a pc,
        goroutines p !! g = Some (a, pc) ->
        fails_after_nonce (mkClient ca 0 None) a = None
        /\ rolling_back pc = false
        /\ (contract_path pc = true -> ca <> 0))
  /\ exists m,
       in_flight p ++ nonces_used (world p) ≡ₚ issued k m
       /\ currentNonce (client (world p)) = (k + N.of_nat m) mod UINT64.

(** The claim identifiers a call consumes when it commits. *)
Definition claims_of (c : Call) : list N :=
  match c with
  | CProcessReward _ _ cid => [cid]
  | CBatchProcessRewards _ _ cids => cids
  | _ => []
  end.

(** The claim identifiers consumed by the transactions of [tx] that
    commit, in order. *)
Fixpoint consumed (tx : list (Msg * Call)) (s : State) : list N :=
  match tx with
  | [] => []
  | (m, c) :: rest =>
      (if is_ok (call m c s) then claims_of c else [])
      ++ consumed rest (transact m c s)
  end.

(** The state a committed [processReward] leaves, and its events. *)
Definition rewarded (m : Msg) (r a c : N) (s : State) : State * list Event :=
  (mkState (this s) (if r =? this s then balance s else balance s - a)
     (owner s) (rewardSigner s) (totalRewardsDistributed s + a)
     (totalClaimsProcessed s + 1) (rewardPerHeartbeat s)
     ({[c]} ∪ claimedRewards s)
     (<[r := earnings s r + a]> (userTotalEarnings s)),
   (if r =? this s then [TreasuryFunded (this s) a (balance s)] else [])
   ++ [RewardClaimed r a c (timestamp m)]).

(** The calls of [processReward] that a batch stands for. *)
Definition singles (m : Msg) (entries : list (N * N * N)) : list (Msg * Call) :=
  map (fun e => (m, CProcessReward (fst (fst e)) (snd (fst e)) (snd e))) entries.

(** An upper bound on the steps a goroutine still takes before it
    returns, by program point. *)
Definition rank (pc : Pc) : nat :=
  match pc with
  | PcEntry => 11
  | PcGasPrice _ _ => 10
  | PcLock _ _ _ => 9
  | PcTakeNonce _ _ _ => 8
  | PcUnlock _ _ _ _ => 7
  | PcEstimateGas _ _ _ => 6
  | PcSign _ => 5
  | PcSend _ => 4
  | PcRollbackLock _ => 3
  | PcRollbackDec _ => 2
  | PcRollbackUnlock _ => 1
  | PcReturn _ => 0
  end.

Definition has_returned (pc : Pc) : bool :=
  match pc with PcReturn _ => true | _ => false end.

Definition work (p : Pool) : nat :=
  sum_list_with (fun t => rank (snd t)) (goroutines p).

Definition all_returned (p : Pool) : Prop :=
  Forall (fun t => has_returned (snd t) = true) (goroutines p).

(** The holder of the mutex is one of the pool's goroutines. *)
Definition holder_in_pool (p : Pool) : Prop :=
  forall g, nonceMux (client (world p)) = Some g ->
            is_Some (goroutines p !! g).

(** The recipient and the amount a submitted transaction pays: the
    arguments packed for [processReward] on the contract path, the
    destination and the value on the direct path. *)
Definition pays (tx : Tx) : N * Z :=
  match tx_data tx with
  | Some d => (cd_recipient d, cd_amount d)
  | None => (tx_to tx, tx_value tx)
  end.

(** * Further parts of the program *)

(** ** The reward processor (server, lines 565-577)

    [rewardProcessor] takes the queued requests one after the other and
    calls [ProcessReward] for each; the error of a failed call is logged
    and the loop goes on.  The result is the log, or [None] when a call
    waits for the mutex and the loop with it. *)
Record RewardRequest : Type := mkRewardRequest {
  rq_WalletAddress : string;
  rq_Amount : Z;
  rq_Heartbeats : Z;
  rq_Timestamp : Z
}.

Fixpoint rewardProcessor (Keccak256 : list byte -> list byte) (g : nat)
    (rewardQueue : list (RewardRequest * Answers)) (w : World)
    : option (list Error) * World :=
  match rewardQueue with
  | [] => (Some [], w)
  | (req, ans) :: rest =>
      match ProcessReward Keccak256 g
              (mkAttempt (rq_WalletAddress req) (rq_Amount req) ans) w with
      | (None, w') => (None, w')
      | (Some (Ok _), w') => rewardProcessor Keccak256 g rest w'
      | (Some (Err e), w') =>
          let '(log, w'') := rewardProcessor Keccak256 g rest w' in
          (cons e <$> log, w'')
      end
  end.

(** ** Calls and the payments they submit *)

(** The transaction a call that has returned success reports. *)
Definition ok_tx (pc : Pc) : option Tx :=
  match pc with PcReturn (Ok tx) => Some tx | _ => None end.

Definition reported (p : Pool) : list Tx :=
  omap (fun t => ok_tx (snd t)) (goroutines p).

(** What a program point carries (destination, call data or transaction)
    pays the attempt's recipient the attempt's amount. *)
Definition carries (a : Attempt) (pc : Pc) : Prop :=
  let want := (HexToAddress (recipient a), amount a) in
  match pc with
  | PcGasPrice to data | PcLock to data _ | PcTakeNonce to data _
  | PcUnlock to data _ _ =>
      match data with
      | Some d => (cd_recipient d, cd_amount d) = want
      | None => to = fst want
      end
  | PcEstimateGas d _ _ => (cd_recipient d, cd_amount d) = want
  | PcSign tx | PcSend tx | PcReturn (Ok tx) => pays tx = want
  | _ => True
  end.

(** What every schedule keeps true of the calls and the ledger, from a
    pool started on the world [w0] with the attempts [attempts]. *)
Definition payments_invariant (w0 : World) (attempts : list Attempt)
    (p : Pool) : Prop :=
  map fst (goroutines p) = attempts
  /\ submitted (world p) ≡ₚ submitted w0 ++ reported p
  /\ forall g a pc, goroutines p !! g = Some (a, pc) -> carries a pc.

(** ** The contract under another reward rate *)

(** Which of the transactions of [tx] commit ([None]) and which revert,
    with their revert reasons. *)
Fixpoint outcomes (tx : list (Msg * Call)) (s : State)
    : list (option Revert) :=
  match tx with
  | [] => []
  | (m, c) :: rest =>
      match call m c s with Ok _ => None | Err e => Some e end
      :: outcomes rest (transact m c s)
  end.

(** The outcome of a call, with the reward rate of its state replaced. *)
Definition with_rate (rate : N) (r : result Revert (State * list Event))
    : result Revert (State * list Event) :=
  match r with
  | Ok (s, evs) => Ok (set_rewardPerHeartbeat rate s, evs)
  | Err e => Err e
  end.

(** ** Reading the contract (backend/blockchain.go, lines 320-446) *)

(** A read-only call of the contract through [CallContract], by the
    function packed, and a request of the read path. *)
Inductive ContractQuery : Type :=
| QGetStats
| QGetTreasuryBalance
| QGetUserEarnings (user : N).

Inductive Read : Type :=
| RBalanceAt (addr : N)
| RCallContract (to : N) (q : ContractQuery).

Inductive ReadError : Type :=
| InvalidAddressFormat      (* "invalid address format" *)
| FailedToPackCall          (* "failed to pack call", "failed to pack getStats call" *)
| FailedToCallContract.     (* "failed to call contract" *)

(** [result[:32]] read as an unsigned integer. *)
Definition word (i : nat) (result : list byte) : N :=
  SetBytes (take 32 (drop (32 * i) result)).

(** [GetUserEarnings], lines 393-423.  [packs] tells whether [Pack]
    succeeds, [reply] is what [CallContract] returns ([None]: an error).
    The result comes with the requests made. *)
Definition GetUserEarnings (c : Client) (address : string) (packs : bool)
    (reply : option (list byte)) : result ReadError N * list Read :=
  if contractAddress c =? 0 then (Ok 0, [])
  else if negb (IsHexAddress address) then (Err InvalidAddressFormat, [])
  else if negb packs then (Err FailedToPackCall, [])
  else
    let addr := HexToAddress address in
    let request := [RCallContract (contractAddress c) (QGetUserEarnings addr)] in
    match reply with
    | None => (Err FailedToCallContract, request)
    | Some result =>
        if Nat.ltb (length result) 32 then (Ok 0, request)
        else (Ok (word 0 result), request)
    end.

(** [ContractStats], lines 35-40.  [Balance] is [None] for a nil pointer. *)
Record ContractStats : Type := mkContractStats {
  cs_Balance : option Z;
  cs_TotalDistributed : Z;
  cs_TotalClaims : Z;
  cs_RewardRate : Z
}.

(** [big.Int.Int64] of a non-negative value: its low 64 bits read as a
    signed integer. *)
Definition Int64 (n : N) : Z :=
  let low := Z.of_N (n mod 2 ^ 64) in
  if (low <? 2 ^ 63)%Z then low else (low - 2 ^ 64)%Z.

(** [UnpackIntoInterface] for the four [uint256] outputs of [getStats]:
    four 32-byte words, an error when the data is shorter. *)
Definition Unpack_getStats (result : list byte) : option (N * N * N * N) :=
  if Nat.ltb (length result) 128 then None
  else Some (word 0 result, word 1 result, word 2 result, word 3 result).

(** [getStatsIndividually], lines 371-390. *)
Definition getStatsIndividually (c : Client) (rewardPerHeartbeat : Z)
    (balanceResult : option (list byte)) : ContractStats * list Read :=
  let balance :=
    match balanceResult with
    | Some result =>
        if Nat.leb 32 (length result) then Z.of_N (word 0 result) else 0%Z
    | None => 0%Z
    end in
  (mkContractStats (Some balance) 0 0 rewardPerHeartbeat,
   [RCallContract (contractAddress c) QGetTreasuryBalance]).

(** [GetContractStats], lines 321-368.  [signerAddress] and
    [rewardPerHeartbeat] are the client's signer and the configured
    reward; [signerBalance], [statsResult] and [balanceResult] are the
    answers to the balance request and to the two contract calls. *)
Definition GetContractStats (c : Client) (signerAddress : N)
    (rewardPerHeartbeat : Z) (packs : bool) (signerBalance : option Z)
    (statsResult balanceResult : option (list byte))
    : result ReadError ContractStats * list Read :=
  if contractAddress c =? 0 then
    (Ok (mkContractStats signerBalance 0 0 rewardPerHeartbeat),
     [RBalanceAt signerAddress])
  else if negb packs then (Err FailedToPackCall, [])
  else
    let request := [RCallContract (contractAddress c) QGetStats] in
    match statsResult with
    | None => (Err FailedToCallContract, request)
    | Some result =>
        match Unpack_getStats result with
        | None =>
            let '(stats, more) :=
              getStatsIndividually c rewardPerHeartbeat balanceResult in
            (Ok stats, request ++ more)
        | Some (balance, totalDistributed, totalClaims, ratePerHeartbeat) =>
            (Ok (mkContractStats (Some (Z.of_N balance))
                   (Z.of_N totalDistributed) (Int64 totalClaims)
                   (Z.of_N ratePerHeartbeat)),
             request)
        end
    end.

(** What the ledger returns for a read-only call of the contract in
    state [s]: the ABI encoding of the view function's result, one
    32-byte big-endian word per [uint256]. *)
Definition eth_call (s : State) (q : ContractQuery) : list byte :=
  match q with
  | QGetStats =>
      let '(balance, totalDistributed, totalClaims, rate) := getStats s in
      be_fixed 32 balance ++ be_fixed 32 totalDistributed
      ++ be_fixed 32 totalClaims ++ be_fixed 32 rate
  | QGetTreasuryBalance => be_fixed 32 (getTreasuryBalance s)
  | QGetUserEarnings user => be_fixed 32 (getUserEarnings s user)
  end.

(** [WaitForTransaction], lines 426-446.  [waitMined] is the outcome of
    [bind.WaitMined] (called on an empty transaction, not on [txHash]);
    [receipts i] is the answer to the [i]-th [TransactionReceipt] request
    for the hash.  The result comes with the number of requests made and
    of seconds slept. *)
Section Wait.

Variable Receipt : Type.

Fixpoint poll (receipts : nat -> option Receipt) (i : nat) (left : nat)
    : option Receipt * nat * nat :=
  match left with
  | O => (None, i, i)
  | S left' =>
      match receipts i with
      | Some receipt => (Some receipt, S i, i)
      | None => poll receipts (S i) left'
      end
  end.

Definition WaitForTransaction (waitMined : option Receipt)
    (receipts : nat -> option Receipt) : option Receipt * nat * nat :=
  match waitMined with
  | Some receipt => (Some receipt, 0%nat, 0%nat)
  | None => poll receipts 0 30
  end.

End Wait.

(** ** Replies written to a socket *)

Definition is_reward (reply : gmap string Value) : bool :=
  match reply !! "type"%string with
  | Some (VString t) => String.eqb t "reward"
  | _ => false
  end.

Definition is_success (reply : gmap string Value) : bool :=
  match reply !! "success"%string with
  | Some (VBool b) => is_reward reply && b
  | _ => false
  end.

Definition is_failure (reply : gmap string Value) : bool :=
  match reply !! "success"%string with
  | Some (VBool b) => is_reward reply && negb b
  | _ => false
  end.

Definition successes (out : list (gmap string Value)) : nat :=
  length (List.filter is_success out).

Definition failures (out : list (gmap string Value)) : nat :=
  length (List.filter is_failure out).

(** A reply the socket loop writes: the answer to a ping, or the outcome
    of a reward call with the configured reward. *)
Definition loop_reply (config : Config) (reply : gmap string Value) : Prop :=
  (is_reward reply = false /\ is_success reply = false
   /\ is_failure reply = false)
  \/ (is_reward reply = true
      /\ reply !! "reward_wei"%string = Some (VInt (RewardPerHeartbeat config))
      /\ is_success reply = negb (is_failure reply)).

(** A [register] message whose address is shorter than the ten bytes
    line 494 slices off it. *)
Definition short_register (msg : WSMessage) : bool :=
  match msg with
  | MsgRegister (Some addr) => Nat.ltb (String.length addr) 10
  | _ => false
  end.

(** ** The frontend's reward accounting (frontend/app.js)

    [ChainPayApp] keeps [heartbeatCount], a JavaScript number, and
    [sessionEarnings], a BigInt, and hands the session earnings to the
    wallet as its cached balance.  The messages are those the server
    writes: JSON objects with a string ["type"], a boolean ["success"]
    and the reward as a decimal string in ["reward_wei"], which [VInt]
    stands for. *)
Module ChainPayApp.

Record App : Type := mkApp {
  heartbeatCount : N;
  sessionEarnings : Z;
  walletBalance : Z
}.

(** [heartbeatCount++] on a number that counts up from 0: exact up to
    2^53, where adding one no longer changes the number. *)
Definition increment (n : N) : N := if n <? 2 ^ 53 then n + 1 else n.

(** Whether a field of a message is truthy ([None]: the field is absent). *)
Definition truthy (v : option Value) : bool :=
  match v with
  | Some (VBool b) => b
  | Some (VString s) => negb (String.eqb s "")
  | Some (VInt z) => negb (z =? 0)%Z
  | Some (VHash tx) => match tx with Some _ => true | None => false end
  | None => false
  end.

(** [BigInt(data.reward_wei || fallback)].  A decimal string is not
    empty, hence truthy, and converts to the integer it spells; an absent
    field gives the fallback.  Other values are not written by the server
    and not followed here ([None]). *)
Definition reward_of (data : gmap string Value) (fallback : Z) : option Z :=
  match data !! "reward_wei"%string with
  | Some (VInt z) => Some z
  | None => Some fallback
  | Some _ => None
  end.

(** [handleRewardMessage], lines 248-284: both branches count the
    heartbeat and add the reward to the session earnings; they differ in
    the fallback for an absent reward. *)
Definition handleRewardMessage (data : gmap string Value) (app : App)
    : option App :=
  rewardWei ← reward_of data
                (if truthy (data !! "success"%string) then 0 else 1000)%Z;
  let earnings := (sessionEarnings app + rewardWei)%Z in
  Some (mkApp (increment (heartbeatCount app)) earnings earnings).

(** [handleWebSocketMessage], lines 213-243.  The other message types
    write to the page or to [rewardPerHeartbeat], not to these fields. *)
Definition handleWebSocketMessage (data : gmap string Value) (app : App)
    : option App :=
  match data !! "type"%string with
  | Some (VString t) =>
      if String.eqb t "reward" then handleRewardMessage data app
      else Some app
  | _ => Some app
  end.

(** [websocket.onmessage] for the messages received, in order. *)
Fixpoint onmessage (received : list (gmap string Value)) (app : App)
    : option App :=
  match received with
  | [] => Some app
  | data :: rest =>
      app' ← handleWebSocketMessage data app; onmessage rest app'
  end.

End ChainPayApp.

(** * The treasury's events as a ledger *)




(** ** Sequence numbers outstanding *)

(** The program points at which a call holds a sequence number it has
    neither submitted nor given back. *)
Definition owes (pc : Pc) : bool :=
  match pc with
  | PcUnlock _ _ _ _ | PcEstimateGas _ _ _ | PcSign _ | PcSend _
  | PcRollbackLock _ | PcRollbackDec _ => true
  | _ => false
  end.

Definition outstanding (p : Pool) : nat :=
  sum_list_with (fun t => if owes (snd t) then 1%nat else 0%nat)
    (goroutines p).

(** * The treasury contract: proofs *)

Lemma sum_earnings_empty : sum_earnings ∅ = 0.
Proof. apply map_fold_empty. Qed.

Lemma sum_earnings_fresh (m : gmap N N) k v :
  m !! k = None -> sum_earnings (<[k := v]> m) = v + sum_earnings m.
Proof.
  intros Hk. unfold sum_earnings.
  rewrite map_fold_insert_L; [reflexivity | intros; lia | exact Hk].
Qed.

Lemma sum_earnings_insert (m : gmap N N) k a :
  sum_earnings (<[k := default 0 (m !! k) + a]> m) = sum_earnings m + a.
Proof.
  destruct (m !! k) as [v|] eqn:Hk; simpl.
  - rewrite <- insert_delete_eq.
    rewrite sum_earnings_fresh by apply lookup_delete_eq.
    rewrite <- (insert_delete_id m k v Hk) at 2.
    rewrite sum_earnings_fresh by apply lookup_delete_eq. lia.
  - rewrite sum_earnings_fresh by exact Hk. lia.
Qed.

Lemma require_ok b e : require b e = Ok tt -> b = true.
Proof. destruct b; [reflexivity | discriminate]. Qed.

Lemma checked_add_ok a b c : checked_add a b = Ok c -> c = a + b.
Proof. unfold checked_add. destruct (a + b <=? MAX_UINT256); congruence. Qed.

Lemma is_claimed_true s c : is_claimed s c = true <-> c ∈ claimedRewards s.
Proof. unfold is_claimed. apply bool_decide_eq_true. Qed.

Lemma is_claimed_false s c : is_claimed s c = false <-> c ∉ claimedRewards s.
Proof. unfold is_claimed. apply bool_decide_eq_false. Qed.

(** A value transfer changes the balance only. *)
Lemma call_value_frame m to a s s' evs :
  call_value m to a s = Some (s', evs) ->
  s' = set_balance (balance s') s /\ balance s' <= balance s.
Proof.
  unfold call_value. intros H.
  destruct (a <=? balance s) eqn:Hb; simpl in H; [|discriminate].
  destruct (to =? this s).
  - injection H as <- _. split; [by destruct s | lia].
  - destruct (accepts m to); [|discriminate].
    injection H as <- _. simpl. split; [reflexivity | lia].
Qed.

(** Unfolding a successful settlement. *)
Lemma settle_ok m r a c s s' evs :
  settle m r a c s = Ok (s', evs) ->
  totalRewardsDistributed s' = totalRewardsDistributed s + a
  /\ totalClaimsProcessed s' = totalClaimsProcessed s + 1
  /\ userTotalEarnings s' = <[r := earnings s r + a]> (userTotalEarnings s)
  /\ claimedRewards s' = {[c]} ∪ claimedRewards s
  /\ owner s' = owner s /\ rewardSigner s' = rewardSigner s
  /\ rewardPerHeartbeat s' = rewardPerHeartbeat s /\ this s' = this s
  /\ balance s' <= balance s.
Proof.
  unfold settle. intros H.
  destruct (checked_add (totalRewardsDistributed s) a) as [t|] eqn:Ht;
    [|discriminate].
  destruct (checked_add (totalClaimsProcessed s) 1) as [n|] eqn:Hn;
    [|discriminate].
  destruct (checked_add (earnings s r) a) as [e|] eqn:He; [|discriminate].
  cbn in H.
  destruct (call_value m r a (record_claim r c t n e s))
    as [[s2 evs2]|] eqn:Hc; [|discriminate].
  injection H as <- _.
  apply call_value_frame in Hc as [-> Hle].
  apply checked_add_ok in Ht, Hn, He. subst. simpl in *. tauto.
Qed.

Lemma settle_invariant m r a c s s' evs :
  c ∉ claimedRewards s -> treasury_invariant s ->
  settle m r a c s = Ok (s', evs) -> treasury_invariant s'.
Proof.
  intros Hc [Ht Hn] H.
  apply settle_ok in H as (Ht' & Hn' & Hu & Hcl & _).
  split.
  - rewrite Ht', Hu, Ht. unfold earnings. by rewrite sum_earnings_insert.
  - rewrite Hn', Hn. rewrite Hcl.
    rewrite size_union by (apply disjoint_singleton_l; exact Hc).
    rewrite size_singleton. lia.
Qed.

Lemma batch_loop_invariant m entries : forall s evs s' evs',
  treasury_invariant s ->
  batch_loop m entries s evs = Ok (s', evs') -> treasury_invariant s'.
Proof.
  induction entries as [|[[r a] c] rest IH]; intros s evs s' evs' Hinv H.
  - by injection H as <- _.
  - cbn in H.
    destruct (negb (r =? 0)); [|discriminate].
    destruct (0 <? a); [|discriminate].
    destruct (is_claimed s c) eqn:Hc; [discriminate|].
    cbn in H.
    destruct (settle m r a c s) as [[s1 evs1]|] eqn:Hs; [|discriminate].
    cbn in H. eapply IH; [|exact H].
    eapply settle_invariant; [|exact Hinv|exact Hs].
    by apply is_claimed_false.
Qed.

Lemma set_balance_invariant b s :
  treasury_invariant s -> treasury_invariant (set_balance b s).
Proof. intros H. exact H. Qed.

Lemma call_invariant m c s s' evs :
  treasury_invariant s -> call m c s = Ok (s', evs) -> treasury_invariant s'.
Proof.
  intros Hinv H.
  destruct c as [v | v | r a cid | rs az cs | ns | rt | to a | o | | u | cid | ];
    cbn in H.
  - unfold fundTreasury in H. destruct (0 <? v); [|discriminate].
    by injection H as <- _.
  - by injection H as <- _.
  - unfold processReward in H.
    destruct (sender m =? rewardSigner s); [|discriminate].
    destruct (negb (r =? 0)); [|discriminate].
    destruct (0 <? a); [|discriminate].
    destruct (is_claimed s cid) eqn:Hc; [discriminate|].
    destruct (a <=? balance s); [|discriminate].
    cbn in H. eapply settle_invariant; [|exact Hinv|exact H].
    by apply is_claimed_false.
  - unfold batchProcessRewards in H.
    destruct (sender m =? rewardSigner s); [|discriminate].
    destruct (_ && _)%bool; [|discriminate].
    destruct (Nat.ltb 0 _); [|discriminate].
    destruct (Nat.leb _ 100); [|discriminate].
    cbn in H. destruct (sum_amounts az 0) as [t|]; [|discriminate].
    cbn in H. destruct (t <=? balance s); [|discriminate].
    cbn in H. eapply batch_loop_invariant; [exact Hinv|exact H].
  - unfold setRewardSigner in H.
    destruct (sender m =? owner s); [|discriminate].
    destruct (negb (ns =? 0)); [|discriminate].
    by injection H as <- _.
  - unfold setRewardRate in H.
    destruct (sender m =? owner s); [|discriminate].
    destruct (0 <? rt); [|discriminate].
    by injection H as <- _.
  - unfold emergencyWithdraw in H.
    destruct (sender m =? owner s); [|discriminate].
    destruct (negb (to =? 0)); [|discriminate].
    destruct (a <=? balance s); [|discriminate].
    cbn in H.
    destruct (call_value m to a s) as [[s1 evs1]|] eqn:Hc; [|discriminate].
    injection H as <- _. apply call_value_frame in Hc as [-> _].
    by apply set_balance_invariant.
  - unfold transferOwnership in H.
    destruct (sender m =? owner s); [|discriminate].
    destruct (negb (o =? 0)); [|discriminate].
    by injection H as <- _.
  - by injection H as <- _.
  - by injection H as <- _.
  - by injection H as <- _.
  - by injection H as <- _.
Qed.

Lemma transact_invariant m c s :
  treasury_invariant s -> treasury_invariant (transact m c s).
Proof.
  intros Hinv. unfold transact.
  destruct (call m c s) as [[s' evs]|] eqn:H; [|exact Hinv].
  eapply call_invariant; eassumption.
Qed.

Lemma constructor_invariant m value self signer s evs :
  constructor m value self signer = Ok (s, evs) -> treasury_invariant s.
Proof.
  unfold constructor. destruct (negb (signer =? 0)); [|discriminate].
  intros H. injection H as <- _. split; simpl.
  - by rewrite sum_earnings_empty.
  - reflexivity.
Qed.

(** C10. In every reachable state of the contract,
    [totalRewardsDistributed] is the sum of [userTotalEarnings] over all
    addresses and [totalClaimsProcessed] is the number of claim identifiers
    marked in [claimedRewards]; every call of the interface ([processReward],
    [batchProcessRewards], the administrative and the view functions),
    committed or reverted, preserves the two equations. *)
Theorem treasury_bookkeeping_invariant :
  (forall s, reachable s -> treasury_invariant s)
  /\ (forall m c s,
        treasury_invariant s -> treasury_invariant (transact m c s)).
Proof.
  split.
  - induction 1 as [m value self signer s evs H | m c s _ IH].
    + eapply constructor_invariant, H.
    + by apply transact_invariant.
  - exact transact_invariant.
Qed.

(** ** Counters and settled amounts *)

Lemma batch_loop_totals m entries : forall s evs s' evs',
  batch_loop m entries s evs = Ok (s', evs') ->
  totalRewardsDistributed s'
    = totalRewardsDistributed s + sum_list (map (fun e => snd (fst e)) entries)
  /\ totalClaimsProcessed s'
    = totalClaimsProcessed s + N.of_nat (length entries).
Proof.
  induction entries as [|[[r a] c] rest IH]; intros s evs s' evs' H.
  - injection H as <- _. simpl. lia.
  - cbn in H.
    destruct (negb (r =? 0)); [|discriminate].
    destruct (0 <? a); [|discriminate].
    destruct (is_claimed s c); [discriminate|].
    cbn in H.
    destruct (settle m r a c s) as [[s1 evs1]|] eqn:Hs; [|discriminate].
    cbn in H. apply IH in H as [Ht Hn].
    apply settle_ok in Hs as (Ht1 & Hn1 & _).
    rewrite Ht, Hn, Ht1, Hn1. cbn [map sum_list fold_right fst snd length].
    fold (sum_list (map (fun e : N * N * N => snd (fst e)) rest)). lia.
Qed.

Lemma zip3_amounts (rs az cs : list N) :
  length rs = length az -> length az = length cs ->
  map (fun e => snd (fst e)) (zip3 rs az cs) = az.
Proof.
  revert az cs. unfold zip3.
  induction rs as [|r rs IH]; intros [|a az] [|c cs] H1 H2;
    try discriminate; [reflexivity|].
  cbn. f_equal. apply IH; simpl in *; lia.
Qed.

Lemma call_totals m c s s' evs :
  call m c s = Ok (s', evs) ->
  totalRewardsDistributed s'
    = totalRewardsDistributed s + sum_list (settled [(m, c)] s)
  /\ totalClaimsProcessed s'
    = totalClaimsProcessed s + N.of_nat (length (settled [(m, c)] s)).
Proof.
  intros H. cbn [settled]. rewrite H, app_nil_r. cbn [is_ok].
  destruct c as [v | v | r a cid | rs az cs | ns | rt | to a | o | | u | cid | ];
    cbn in H; cbn [amounts_of length];
    try (unfold sum_list; cbn [fold_right]).
  - unfold fundTreasury in H. destruct (0 <? v); [|discriminate].
    injection H as <- _. simpl. lia.
  - injection H as <- _. simpl. lia.
  - unfold processReward in H.
    destruct (sender m =? rewardSigner s); [|discriminate].
    destruct (negb (r =? 0)); [|discriminate].
    destruct (0 <? a); [|discriminate].
    destruct (is_claimed s cid); [discriminate|].
    destruct (a <=? balance s); [|discriminate].
    cbn in H. apply settle_ok in H as (-> & -> & _). lia.
  - unfold batchProcessRewards in H.
    destruct (sender m =? rewardSigner s); [|discriminate].
    destruct (_ && _)%bool eqn:Hlen; [|discriminate].
    destruct (Nat.ltb 0 _); [|discriminate].
    destruct (Nat.leb _ 100); [|discriminate].
    cbn in H. destruct (sum_amounts az 0) as [t|]; [|discriminate].
    cbn in H. destruct (t <=? balance s); [|discriminate].
    cbn in H. apply andb_prop in Hlen as [H1 H2].
    apply Nat.eqb_eq in H1, H2.
    apply batch_loop_totals in H as [-> ->].
    rewrite zip3_amounts by assumption.
    unfold zip3. rewrite !length_zip_with. split; [reflexivity|].
    f_equal. f_equal. lia.
  - unfold setRewardSigner in H.
    destruct (sender m =? owner s); [|discriminate].
    destruct (negb (ns =? 0)); [|discriminate].
    injection H as <- _. simpl. lia.
  - unfold setRewardRate in H.
    destruct (sender m =? owner s); [|discriminate].
    destruct (0 <? rt); [|discriminate].
    injection H as <- _. simpl. lia.
  - unfold emergencyWithdraw in H.
    destruct (sender m =? owner s); [|discriminate].
    destruct (negb (to =? 0)); [|discriminate].
    destruct (a <=? balance s); [|discriminate].
    cbn in H.
    destruct (call_value m to a s) as [[s1 evs1]|] eqn:Hc; [|discriminate].
    injection H as <- _. apply call_value_frame in Hc as [-> _]. simpl. lia.
  - unfold transferOwnership in H.
    destruct (sender m =? owner s); [|discriminate].
    destruct (negb (o =? 0)); [|discriminate].
    injection H as <- _. simpl. lia.
  - injection H as <- _. simpl. lia.
  - injection H as <- _. simpl. lia.
  - injection H as <- _. simpl. lia.
  - injection H as <- _. simpl. lia.
Qed.

Lemma settled_reverted m c s e : call m c s = Err e -> settled [(m, c)] s = [].
Proof. intros H. cbn. rewrite H. reflexivity. Qed.

Lemma settled_cons m c rest s :
  settled ((m, c) :: rest) s
  = settled [(m, c)] s ++ settled rest (transact m c s).
Proof. cbn. by rewrite app_nil_r. Qed.

Lemma sum_list_app l k : sum_list (l ++ k) = sum_list l + sum_list k.
Proof.
  induction l as [|x l IH]; cbn; [reflexivity|].
  fold (sum_list (l ++ k)). fold (sum_list l). lia.
Qed.

Lemma sum_list_replicate K A : sum_list (replicate K A) = N.of_nat K * A.
Proof.
  induction K as [|K IH]; [reflexivity|].
  cbn [replicate sum_list fold_right]. fold (sum_list (replicate K A)). lia.
Qed.

Lemma run_totals tx : forall s,
  totalRewardsDistributed (run tx s)
    = totalRewardsDistributed s + sum_list (settled tx s)
  /\ totalClaimsProcessed (run tx s)
    = totalClaimsProcessed s + N.of_nat (length (settled tx s)).
Proof.
  induction tx as [|[m c] rest IH]; intros s.
  - simpl. lia.
  - rewrite settled_cons.
    cbn [run]. destruct (IH (transact m c s)) as [Ht Hn].
    rewrite Ht, Hn, sum_list_app, length_app. unfold transact.
    destruct (call m c s) as [[s' evs]|e] eqn:H.
    + apply call_totals in H as [-> ->]. lia.
    + rewrite (settled_reverted _ _ _ _ H). simpl. lia.
Qed.

(** C6. Starting from zero counters, after transactions of which exactly K
    settlements succeed, each of amount A, [getStats] reports a distributed
    total of K * A and K claims processed. *)
Theorem stats_after_K_settlements :
  forall (tx : list (Msg * Call)) (s : State) (K : nat) (A : N),
    totalRewardsDistributed s = 0 ->
    totalClaimsProcessed s = 0 ->
    settled tx s = replicate K A ->
    exists bal rate,
      getStats (run tx s) = (bal, N.of_nat K * A, N.of_nat K, rate).
Proof.
  intros tx s K A Ht Hn Hs.
  destruct (run_totals tx s) as [Ht' Hn'].
  rewrite Hs, Ht, sum_list_replicate in Ht'.
  rewrite Hs, Hn, length_replicate in Hn'.
  exists (balance (run tx s)), (rewardPerHeartbeat (run tx s)).
  unfold getStats. rewrite Ht', Hn'. reflexivity.
Qed.

Example deployed_by_constructor :
  exists evs, constructor by_owner 10000 100 2 = Ok (deployed, evs).
Proof. eexists. reflexivity. Qed.

Lemma stats_after_K_settlements_witness :
  let tx := [(by_signer, CProcessReward 5 1000 7);
             (by_signer, CProcessReward 6 1000 8)] in
  totalRewardsDistributed deployed = 0
  /\ totalClaimsProcessed deployed = 0
  /\ settled tx deployed = replicate 2 1000
  /\ exists bal rate,
       getStats (run tx deployed) = (bal, N.of_nat 2 * 1000, N.of_nat 2, rate).
Proof.
  intros tx.
  assert (Hs : settled tx deployed = replicate 2 1000)
    by (vm_compute; reflexivity).
  split; [reflexivity|]. split; [reflexivity|]. split; [exact Hs|].
  exact (stats_after_K_settlements tx deployed 2 1000 eq_refl eq_refl Hs).
Defined.

(** ** Duplicate claims *)










(** * The ledger client: proofs *)

(** ** Claim identifiers *)

Lemma byte_of_N_value n : Byte.to_N (byte_of_N n) = n mod 256.
Proof.
  unfold byte_of_N.
  destruct (Byte.of_N (n mod 256)) as [b|] eqn:H.
  - simpl. by apply Byte.to_of_N.
  - apply Byte.of_N_None_iff in H.
    pose proof (N.mod_upper_bound n 256). lia.
Qed.

Lemma le_digits_value fuel : forall n,
  n < 2 ^ N.of_nat fuel -> le_value (le_digits fuel n) = n.
Proof.
  induction fuel as [|f IH]; intros n Hn.
  - simpl in *. lia.
  - cbn [le_digits]. destruct (n =? 0) eqn:H0.
    + apply N.eqb_eq in H0. by subst.
    + cbn [le_value fold_right]. fold (le_value (le_digits f (n / 256))).
      rewrite byte_of_N_value, IH.
      * rewrite (N.div_mod n 256) at 3 by lia. lia.
      * rewrite Nat2N.inj_succ, N.pow_succ_r' in Hn.
        apply N.Div0.div_lt_upper_bound.
        assert (0 < 2 ^ N.of_nat f) by (apply N.neq_0_lt_0, N.pow_nonzero; lia).
        lia.
Qed.

Lemma SetBytes_rev bs : SetBytes (rev bs) = le_value bs.
Proof.
  unfold SetBytes. induction bs as [|b bs IH]; [reflexivity|].
  cbn [rev le_value fold_right]. rewrite fold_left_app. cbn [fold_left].
  rewrite IH. fold (le_value bs). lia.
Qed.

(** [SetBytes] reads back what [Bytes] wrote, sign apart. *)
Lemma SetBytes_Int_Bytes x : SetBytes (Int_Bytes x) = Z.abs_N x.
Proof.
  unfold Int_Bytes. rewrite SetBytes_rev. apply le_digits_value.
  rewrite N2Nat.id. apply N.size_gt.
Qed.

Lemma Int_Bytes_opp x : Int_Bytes (- x) = Int_Bytes x.
Proof. unfold Int_Bytes. by rewrite Zabs2N.inj_opp. Qed.

Lemma Int_Bytes_inj x y :
  (0 <= x)%Z -> (0 <= y)%Z -> Int_Bytes x = Int_Bytes y -> x = y.
Proof.
  intros Hx Hy H. apply (f_equal SetBytes) in H.
  rewrite !SetBytes_Int_Bytes in H. lia.
Qed.

Lemma claim_preimage_inj r a t1 t2 :
  (0 <= t1)%Z -> (0 <= t2)%Z ->
  claim_preimage r a t1 = claim_preimage r a t2 -> t1 = t2.
Proof.
  unfold claim_preimage. intros H1 H2 H.
  apply app_inv_head, app_inv_head in H. by apply Int_Bytes_inj.
Qed.

Lemma last32_length bs : length (last32 bs) = 32%nat.
Proof.
  unfold last32. rewrite length_take, length_app, length_replicate. lia.
Qed.

(** C7.  The claim identifier is Keccak-256, a 32-byte digest, of the
    recipient's 20 bytes followed by the bytes of the amount and of the
    nanosecond clock reading: a function of the three values and of
    nothing else.  For equal recipient and amount and two distinct clock
    readings (nanoseconds since 1970, so not negative) the hashed byte
    strings differ.  Hence the two identifiers are distinct unless
    Keccak-256 itself collides: an equality of the identifiers exhibits
    two distinct byte strings with one digest, and there is none when the
    hash does not collide on the two strings. *)
Theorem claimID_distinct_timestamps :
  forall (Keccak256 : list byte -> list byte) (r : N) (a t1 t2 : Z),
    (0 <= t1)%Z -> (0 <= t2)%Z -> t1 <> t2 ->
    claim_preimage r a t1 <> claim_preimage r a t2
    /\ (claimID Keccak256 r a t1 = claimID Keccak256 r a t2 ->
        exists x y : list byte, x <> y /\ Keccak256 x = Keccak256 y)
    /\ ((Keccak256 (claim_preimage r a t1)
         = Keccak256 (claim_preimage r a t2) ->
         claim_preimage r a t1 = claim_preimage r a t2) ->
        claimID Keccak256 r a t1 <> claimID Keccak256 r a t2)
    /\ ((forall bs, length (Keccak256 bs) = 32%nat) ->
        length (claimID Keccak256 r a t1) = 32%nat
        /\ length (claimID Keccak256 r a t2) = 32%nat).
Proof.
  intros K r a t1 t2 H1 H2 Hne.
  assert (Hpre : claim_preimage r a t1 <> claim_preimage r a t2)
    by (intros H; by apply Hne, (claim_preimage_inj r a)).
  split; [exact Hpre|]. split; [|split].
  - intros H. by exists (claim_preimage r a t1), (claim_preimage r a t2).
  - intros Hcol H. by apply Hpre, Hcol.
  - intros Hlen. split; apply Hlen.
Qed.

Lemma claimID_distinct_timestamps_witness :
  let r := HexToAddress alice in
  let t1 := 1700000000000000000%Z in
  let t2 := 1700000000000000001%Z in
  (0 <= t1)%Z /\ (0 <= t2)%Z /\ t1 <> t2
  /\ claim_preimage r 1000 t1 <> claim_preimage r 1000 t2
  /\ claimID last32 r 1000 t1 <> claimID last32 r 1000 t2
  /\ length (claimID last32 r 1000 t1) = 32%nat.
Proof.
  intros r t1 t2.
  assert (H1 : (0 <= t1)%Z) by (unfold t1; lia).
  assert (H2 : (0 <= t2)%Z) by (unfold t2; lia).
  assert (Hne : t1 <> t2) by (unfold t1, t2; lia).
  destruct (claimID_distinct_timestamps last32 r 1000 t1 t2 H1 H2 Hne)
    as (Hpre & _ & Hdist & Hlen).
  split; [exact H1|]. split; [exact H2|]. split; [exact Hne|].
  split; [exact Hpre|]. split.
  - apply Hdist. intros H. vm_compute in H. discriminate H.
  - apply (Hlen last32_length).
Defined.

(** Why the clock readings are taken not negative: [Bytes] drops the sign,
    so the values 1 and -1, of which a clock gives only the first, are
    hashed to one identifier. *)
Lemma claimID_ignores_sign :
  forall (Keccak256 : list byte -> list byte) (r : N) (a : Z),
    claimID Keccak256 r a 1 = claimID Keccak256 r a (-1).
Proof. intros K r a. reflexivity. Qed.

(** ** The sequence counter *)

Lemma dec64_inc64 n : n < UINT64 -> dec64 (inc64 n) = n.
Proof.
  unfold dec64, inc64, UINT64. intros Hn.
  destruct (N.eq_dec n (2 ^ 64 - 1)) as [->|Hne]; [reflexivity|].
  rewrite (N.mod_small (n + 1)) by lia.
  replace (n + 1 + 2 ^ 64 - 1) with (n + 1 * 2 ^ 64) by lia.
  rewrite N.Div0.mod_add. apply N.mod_small. lia.
Qed.

(** Closes the conjuncts about the world a run ends in. *)
Ltac run_done :=
  split; [reflexivity|]; cbn; repeat split; rewrite <- ?app_assoc;
  try reflexivity; try (intros; by apply dec64_inc64).

(** A returned call takes no further step: nothing is retried. *)
Lemma returned_is_final K fuel g a r w :
  run_alone K fuel g a (PcReturn r) w = (PcReturn r, w).
Proof. induction fuel as [|f IH]; [reflexivity|]. exact IH. Qed.

(** The rollback of lines 231-235, 251-254, 260-263, 302-305 and 311-314,
    from any state in which the mutex is free: lock, decrement by one,
    unlock, return the error. *)
Lemma rollback_steps K g a e w :
  nonceMux (client w) = None ->
  exists w',
    run_alone K 3 g a (PcRollbackLock e) w = (PcReturn (Err e), w')
    /\ currentNonce (client w') = dec64 (currentNonce (client w))
    /\ nonceMux (client w') = None
    /\ submitted w' = submitted w
    /\ trace w' = trace w ++ [(g, ALock); (g, AReturnNonce); (g, AUnlock)].
Proof.
  destruct w as [[ca n mux] sub tr]. simpl. intros ->.
  eexists. cbn. unfold lock. run_done.
Qed.

(** C4. A call of [ProcessReward] that has taken its sequence number and
    then fails (gas estimation, signing, or sending) takes the mutex,
    decrements the counter by exactly one, releases the mutex and returns
    the error of the failed step to its caller; it has taken one sequence
    number and given one back, and it submitted nothing.  There is no
    second try: between taking the number and giving it back the call
    makes each request at most once, the gas estimate on the contract
    path and, when signing succeeded, one [SendTransaction] of the
    transaction it built, and after the rollback it returns. *)
Theorem failed_submission_rolls_back :
  forall (Keccak256 : list byte -> list byte) (g : nat) (a : Attempt)
         (w : World) (e : Error),
    nonceMux (client w) = None ->
    takes_nonce (client w) a = true ->
    fails_after_nonce (client w) a = Some e ->
    exists w' calls,
      ProcessReward Keccak256 g a w = (Some (Err e), w')
      /\ currentNonce (client w') = dec64 (inc64 (currentNonce (client w)))
      /\ (currentNonce (client w) < UINT64 ->
          currentNonce (client w') = currentNonce (client w))
      /\ nonceMux (client w') = None
      /\ submitted w' = submitted w
      /\ trace w' =
           trace w
           ++ [(g, ACall SuggestGasPrice); (g, ALock);
               (g, ATakeNonce (currentNonce (client w))); (g, AUnlock)]
           ++ map (fun r => (g, ACall r)) calls
           ++ [(g, ALock); (g, AReturnNonce); (g, AUnlock)]
      /\ match e with
         | FailedToEstimateGas =>
             contractAddress (client w) <> 0
             /\ estimateGas (answers a) = None
             /\ calls = [EstimateGas]
         | FailedToSign =>
             sign_ok (answers a) = false
             /\ calls = (if contractAddress (client w) =? 0 then []
                         else [EstimateGas])
         | FailedToSend =>
             send_ok (answers a) = false
             /\ exists gp tx,
                  suggestGasPrice (answers a) = Some gp
                  /\ (if contractAddress (client w) =? 0 then
                        tx = mkTx (currentNonce (client w))
                               (HexToAddress (recipient a)) (amount a)
                               21000 gp None
                        /\ calls = [SendTransaction tx]
                      else
                        exists gasLimit,
                          estimateGas (answers a) = Some gasLimit
                          /\ tx = mkTx (currentNonce (client w))
                                    (contractAddress (client w)) 0 gasLimit gp
                                    (Some (mkCallData
                                             (HexToAddress (recipient a))
                                             (amount a)
                                             (claimID Keccak256
                                                (HexToAddress (recipient a))
                                                (amount a)
                                                (unixNano (answers a)))))
                          /\ calls = [EstimateGas; SendTransaction tx])
         | _ => False
         end.
Proof.
  intros K g [rcp amt [t pk gp eg sg sd why]] [[ca n mux] sub tr] e.
  unfold takes_nonce, fails_after_nonce, ProcessReward. cbn.
  intros -> Htake Hfail. unfold lock. cbn.
  destruct (IsHexAddress rcp); [|discriminate]. cbn in *.
  destruct gp as [gp|]; [|by rewrite andb_false_r in Htake].
  destruct (ca =? 0) eqn:Hca; cbn in *.
  - destruct sg; cbn in *.
    + destruct sd; cbn in *; [discriminate|]. injection Hfail as <-.
      eexists _, [SendTransaction _]. cbn.
      split; [reflexivity|]. cbn. rewrite <- ?app_assoc.
      repeat split; try (intros; by apply dec64_inc64).
      eexists _, _. by repeat split.
    + injection Hfail as <-. eexists _, []. cbn.
      split; [reflexivity|]. cbn. rewrite <- ?app_assoc.
      repeat split; try (intros; by apply dec64_inc64).
  - apply N.eqb_neq in Hca. destruct pk; [|discriminate]. cbn in *.
    destruct eg as [gl|]; cbn in *.
    + destruct sg; cbn in *.
      * destruct sd; cbn in *; [discriminate|]. injection Hfail as <-.
        eexists _, [EstimateGas; SendTransaction _]. cbn.
        split; [reflexivity|]. cbn. rewrite <- ?app_assoc.
        repeat split; try (intros; by apply dec64_inc64).
        eexists _, _. split; [reflexivity|]. eexists. by repeat split.
      * injection Hfail as <-. eexists _, [EstimateGas]. cbn.
        split; [reflexivity|]. cbn. rewrite <- ?app_assoc.
        repeat split; try (intros; by apply dec64_inc64).
    + injection Hfail as <-. eexists _, [EstimateGas]. cbn.
      split; [reflexivity|]. cbn. rewrite <- ?app_assoc.
      repeat split; try (intros; by apply dec64_inc64). exact Hca.
Qed.

Lemma failed_submission_rolls_back_witness :
  let a := mkAttempt alice 1000 send_fails in
  let tx :=
    mkTx 7 192 0 60000 1000000000
      (Some (mkCallData (HexToAddress alice) 1000
               (claimID last32 (HexToAddress alice) 1000
                  (unixNano send_fails)))) in
  nonceMux (client contract_world) = None
  /\ takes_nonce (client contract_world) a = true
  /\ fails_after_nonce (client contract_world) a = Some FailedToSend
  /\ exists w',
      ProcessReward last32 0 a contract_world = (Some (Err FailedToSend), w')
      /\ currentNonce (client w') = currentNonce (client contract_world)
      /\ nonceMux (client w') = None
      /\ submitted w' = submitted contract_world
      /\ trace w' =
           [(0%nat, ACall SuggestGasPrice); (0%nat, ALock);
            (0%nat, ATakeNonce 7); (0%nat, AUnlock);
            (0%nat, ACall EstimateGas);
            (0%nat, ACall (SendTransaction tx));
            (0%nat, ALock); (0%nat, AReturnNonce); (0%nat, AUnlock)].
Proof.
  intros a tx.
  split; [reflexivity|]. split; [vm_compute; reflexivity|].
  split; [reflexivity|].
  destruct (failed_submission_rolls_back last32 0%nat a contract_world
              FailedToSend eq_refl eq_refl eq_refl)
    as (w' & calls & Hrun & _ & Hcur & Hmux & Hsub & Htr & _ & gp & tx'
        & Hgp & gl & Hgl & Htx & Hcalls).
  injection Hgp as <-. injection Hgl as <-. subst tx' calls.
  exists w'. split; [exact Hrun|]. split; [by apply Hcur|].
  split; [exact Hmux|]. split; [exact Hsub|]. exact Htr.
Defined.

(** ** Amounts are not checked by the client *)

(** The contract refuses a zero amount whoever calls, so gas estimation of
    such a call fails on the ledger. *)
Lemma processReward_zero_amount m r c s :
  exists e, processReward m r 0 c s = Err e.
Proof.
  unfold processReward.
  destruct (sender m =? rewardSigner s); [|by eexists].
  destruct (negb (r =? 0)); by eexists.
Qed.

(** C3, as the code has it.  [ProcessReward] makes no check of the amount:
    the format of the recipient is the only argument it checks.  A call
    with a non-positive amount and a well-formed recipient, made while the
    mutex is free, goes as far as any other.  When the call data does not
    pack (contract path) or the gas price request fails, it returns that
    error and has taken no sequence number.  Otherwise it asks the ledger
    for the gas price and takes a sequence number; when no later step
    fails it submits a transaction that pays the recipient the
    non-positive amount and the counter stays advanced; when a later step
    fails (on the contract path gas estimation, where the ledger runs the
    contract's own check) it returns that step's error with the counter
    given back and nothing submitted. *)
Theorem nonpositive_amount_reaches_ledger :
  forall (Keccak256 : list byte -> list byte) (g : nat) (a : Attempt)
         (w : World),
    (amount a <= 0)%Z ->
    IsHexAddress (recipient a) = true ->
    nonceMux (client w) = None ->
    exists r w',
      ProcessReward Keccak256 g a w = (Some r, w')
      /\ if takes_nonce (client w) a then
           exists rest,
             trace w' = trace w ++ (g, ACall SuggestGasPrice) :: rest
             /\ In (g, ATakeNonce (currentNonce (client w))) rest
             /\ match fails_after_nonce (client w) a with
                | None =>
                    exists tx, r = Ok tx
                      /\ tx_nonce tx = currentNonce (client w)
                      /\ pays tx = (HexToAddress (recipient a), amount a)
                      /\ (snd (pays tx) <= 0)%Z
                      /\ (contractAddress (client w) = 0 ->
                          tx_value tx = amount a)
                      /\ submitted w' = submitted w ++ [tx]
                      /\ currentNonce (client w')
                         = inc64 (currentNonce (client w))
                | Some e =>
                    r = Err e
                    /\ submitted w' = submitted w
                    /\ currentNonce (client w')
                       = dec64 (inc64 (currentNonce (client w)))
                end
         else
           client w' = client w
           /\ submitted w' = submitted w
           /\ ((r = Err FailedToPack
                /\ contractAddress (client w) <> 0
                /\ pack_ok (answers a) = false
                /\ trace w' = trace w)
               \/ (r = Err FailedToGetGasPrice
                   /\ suggestGasPrice (answers a) = None
                   /\ trace w' = trace w ++ [(g, ACall SuggestGasPrice)])).
Proof.
  intros K g [rcp amt [t pk gp eg sg sd why]] [[ca n mux] sub tr] Hamt.
  unfold takes_nonce, fails_after_nonce, ProcessReward. cbn in Hamt |- *.
  intros -> ->. unfold lock. cbn.
  destruct (ca =? 0) eqn:Hca; cbn.
  - destruct gp as [gp|]; cbn;
      [|eexists _, _; split; [reflexivity|]; cbn; repeat split; by right].
    destruct sg, sd; cbn; eexists _, _;
      (split; [reflexivity|]); cbn; eexists; rewrite <- ?app_assoc;
      (split; [reflexivity|]); (split; [cbn; tauto|]);
      try (eexists; repeat split; try reflexivity; exact Hamt);
      repeat split.
  - apply N.eqb_neq in Hca.
    destruct pk; cbn;
      [|eexists _, _; split; [reflexivity|]; cbn; repeat split; by left].
    destruct gp as [gp|]; cbn;
      [|eexists _, _; split; [reflexivity|]; cbn; repeat split; by right].
    destruct eg as [gl|], sg, sd; cbn; eexists _, _;
      (split; [reflexivity|]); cbn; eexists; rewrite <- ?app_assoc;
      (split; [reflexivity|]); (split; [cbn; tauto|]);
      try (eexists; repeat split; try reflexivity; try exact Hamt;
           intros; congruence);
      repeat split.
Qed.

Lemma nonpositive_amount_reaches_ledger_witness :
  let a := mkAttempt alice 0 all_ok in
  (amount a <= 0)%Z
  /\ IsHexAddress (recipient a) = true
  /\ nonceMux (client direct_world) = None
  /\ exists tx w',
      ProcessReward last32 0 a direct_world = (Some (Ok tx), w')
      /\ tx_nonce tx = currentNonce (client direct_world)
      /\ pays tx = (HexToAddress (recipient a), amount a)
      /\ tx_value tx = 0%Z
      /\ submitted w' = submitted direct_world ++ [tx]
      /\ currentNonce (client w') = inc64 (currentNonce (client direct_world)).
Proof.
  intros a.
  assert (Hamt : (amount a <= 0)%Z) by (simpl; lia).
  split; [exact Hamt|]. split; [reflexivity|]. split; [reflexivity|].
  destruct (nonpositive_amount_reaches_ledger last32 0%nat a direct_world
              Hamt eq_refl eq_refl)
    as (r & w' & Hrun & rest & _ & _ & tx & -> & Hn & Hp & _ & Hv & Hsub & Hc).
  exists tx, w'. split; [exact Hrun|]. split; [exact Hn|].
  split; [exact Hp|]. split; [by apply Hv|]. split; [exact Hsub | exact Hc].
Defined.

(** C3, as the specification words it, fails: with no contract configured,
    a call with amount 0 is not refused.  It asks for the gas price, takes
    sequence number 7, sends a transfer of value 0 and returns it; the
    counter has moved to 8. *)
Lemma zero_amount_counterexample :
  let tx := mkTx 7 (HexToAddress alice) 0 21000 1000000000 None in
  ProcessReward last32 0 (mkAttempt alice 0 all_ok) direct_world
  = (Some (Ok tx),
     mkWorld (mkClient 0 8 None) [tx]
       [(0%nat, ACall SuggestGasPrice); (0%nat, ALock);
        (0%nat, ATakeNonce 7); (0%nat, AUnlock);
        (0%nat, ACall (SendTransaction tx))]).
Proof. vm_compute. reflexivity. Qed.

(** ** Concurrent calls *)

(** C2 on the code: the interleaving [race_schedule] of three calls, the
    counter starting at 7.  Goroutine 0 returns its gas-estimation error,
    goroutines 1 and 2 both return success, and both submitted
    transactions carry sequence number 8; number 7 is used by nobody and
    the counter ends at 9. *)
Theorem nonce_reissued_after_concurrent_rollback :
  forall Keccak256 : list byte -> list byte,
    let p := schedule Keccak256 race_schedule
               (spawn race_attempts contract_world) in
    map succeeded (returned p) = [false; true; true]
    /\ returned p !! 0%nat = Some (Some (Err FailedToEstimateGas))
    /\ nonces_used (world p) = [8; 8]
    /\ currentNonce (client (world p)) = 9
    /\ nonceMux (client (world p)) = None.
Proof. intros K. vm_compute. repeat split. Qed.

(** What one call does to the counter and to the ledger when no other
    goroutine is inside [ProcessReward]. *)
Lemma ProcessReward_alone K g a w :
  nonceMux (client w) = None ->
  exists r w',
    ProcessReward K g a w = (Some r, w')
    /\ nonceMux (client w') = None
    /\ contractAddress (client w') = contractAddress (client w)
    /\ match r with
       | Ok tx =>
           tx_nonce tx = currentNonce (client w)
           /\ submitted w' = submitted w ++ [tx]
           /\ currentNonce (client w') = inc64 (currentNonce (client w))
       | Err _ =>
           submitted w' = submitted w
           /\ (currentNonce (client w') = currentNonce (client w)
               \/ currentNonce (client w')
                    = dec64 (inc64 (currentNonce (client w))))
       end.
Proof.
  destruct a as [rcp amt [t pk gp eg sg sd why]], w as [[ca n mux] sub tr].
  unfold ProcessReward. cbn. intros ->. unfold lock. cbn.
  destruct (ca =? 0); cbn;
    (destruct (IsHexAddress rcp); cbn; [|eexists _, _; repeat split; by left]).
  - destruct gp as [gp|]; cbn; [|eexists _, _; repeat split; by left].
    destruct sg, sd; cbn; eexists _, _;
      (split; [reflexivity|]); cbn; repeat split; by right.
  - destruct pk; cbn; [|eexists _, _; repeat split; by left].
    destruct gp as [gp|]; cbn; [|eexists _, _; repeat split; by left].
    destruct eg as [gl|], sg, sd; cbn; eexists _, _;
      (split; [reflexivity|]); cbn; repeat split; by right.
Qed.

(** Without interleaving the counter does its work: calls made one after
    the other use consecutive sequence numbers, one per success, with no
    number twice and none left out. *)
Lemma sequential_nonces_consecutive K g attempts : forall w rs w',
  nonceMux (client w) = None ->
  currentNonce (client w) + N.of_nat (length attempts) < UINT64 ->
  in_sequence K g attempts w = (rs, w') ->
  nonces_used w'
    = nonces_used w
      ++ consecutive (currentNonce (client w)) (count_succeeded rs)
  /\ currentNonce (client w')
    = currentNonce (client w) + N.of_nat (count_succeeded rs)
  /\ (count_succeeded rs <= length attempts)%nat.
Proof.
  induction attempts as [|a rest IH]; intros w rs w' Hmux Hn H.
  - injection H as <- <-. cbn. rewrite app_nil_r, N.add_0_r. auto.
  - cbn [in_sequence] in H.
    destruct (ProcessReward_alone K g a w Hmux)
      as (r & w1 & Hr & Hmux1 & _ & Hw1).
    rewrite Hr in H.
    destruct (in_sequence K g rest w1) as [rs1 w2] eqn:Hrest.
    injection H as <- <-. cbn [length] in Hn.
    assert (Hsmall : currentNonce (client w) < UINT64) by lia.
    assert (Hinc : inc64 (currentNonce (client w))
                   = currentNonce (client w) + 1)
      by (unfold inc64; apply N.mod_small; lia).
    destruct r as [tx|e].
    + destruct Hw1 as (Htx & Hsub & Hnonce).
      destruct (IH w1 rs1 w2 Hmux1) as (Hused & Hcnt & Hle);
        [rewrite Hnonce, Hinc; lia | exact Hrest |].
      unfold count_succeeded in *. cbn [List.filter succeeded length].
      split; [|split; [rewrite Hcnt, Hnonce, Hinc; lia | lia]].
      rewrite Hused. unfold nonces_used. rewrite Hsub, map_app. cbn [map].
      rewrite Htx, Hnonce, Hinc, <- app_assoc. reflexivity.
    + destruct Hw1 as (Hsub & Hnonce).
      assert (Hsame : currentNonce (client w1) = currentNonce (client w))
        by (destruct Hnonce as [->| ->]; [reflexivity | by apply dec64_inc64]).
      destruct (IH w1 rs1 w2 Hmux1) as (Hused & Hcnt & Hle);
        [rewrite Hsame; lia | exact Hrest |].
      unfold count_succeeded in *. cbn [List.filter succeeded length].
      split; [|split; [rewrite Hcnt, Hsame; reflexivity | lia]].
      rewrite Hused. unfold nonces_used. by rewrite Hsub, Hsame.
Qed.

(** * The server: proofs *)

(** ** Block monitor *)

Lemma tick_higher block m :
  lastBlock m < Number block ->
  tick (Some block) m
  = mkMonitor (Number block) (blockUpdates m ++ [block])
      (observe block (monitorStats m)).
Proof. intros H. unfold tick. apply N.ltb_lt in H. by rewrite H. Qed.

Lemma tick_not_higher block m :
  Number block <= lastBlock m -> tick (Some block) m = m.
Proof. intros H. unfold tick. apply N.ltb_ge in H. by rewrite H. Qed.

(** C5, as the code has it.  A tick publishes the polled block exactly when
    its height is strictly above the last observed height, which it then
    becomes; a failed poll publishes nothing.  The last observed height
    starts at 0: a monitor that has already observed height 5 publishes two
    events on the polls 5, 5, 6, 8 (heights 6 and 8); a monitor just
    started publishes three (heights 5, 6 and 8), none of them for the
    second 5. *)
Theorem block_published_iff_higher :
  (forall block m,
     (lastBlock m < Number block ->
      blockUpdates (tick (Some block) m) = blockUpdates m ++ [block]
      /\ lastBlock (tick (Some block) m) = Number block)
     /\ (Number block <= lastBlock m -> tick (Some block) m = m))
  /\ (forall m, tick None m = m)
  /\ published (monitor_loop polls_5_5_6_8 (mkMonitor 5 [] no_stats)) = [6; 8]
  /\ published (blockMonitor polls_5_5_6_8 no_stats) = [5; 6; 8].
Proof.
  split; [|split; [reflexivity | split; reflexivity]].
  intros block m. split.
  - intros H. by rewrite tick_higher.
  - apply tick_not_higher.
Qed.

(** C5, as the specification words it, fails: [blockMonitor] polling
    heights 5, 5, 6, 8 from its start publishes three block events, the
    first of them for the first 5. *)
Lemma block_monitor_counterexample :
  published (blockMonitor polls_5_5_6_8 no_stats) = [5; 6; 8]
  /\ length (blockUpdates (blockMonitor polls_5_5_6_8 no_stats)) = 3%nat.
Proof. split; reflexivity. Qed.

(** ** Session earnings *)

(** C9. A heartbeat on a registered session makes one reward call; when
    the call fails the session's [TotalEarned] is what it was, and when it
    succeeds [TotalEarned] has grown by the reward amount.  The heartbeat
    count grows in both cases. *)
Theorem TotalEarned_grows_only_on_success :
  forall (Keccak256 : list byte -> list byte) (config : Config) (g : nat)
         (ans : Answers) (bal : option Z) (session : ClientSession)
         (s : ServerState),
    nonceMux (client (blockchain s)) = None ->
    WalletAddress session <> ""%string ->
    exists r w session' written s',
      ProcessReward Keccak256 g
        (heartbeat_attempt config (WalletAddress session) ans) (blockchain s)
        = (Some r, w)
      /\ handleWSMessage Keccak256 config g MsgHeartbeat ans bal session s
         = WSContinue session' written s'
      /\ (is_ok r = false -> TotalEarned session' = TotalEarned session)
      /\ (is_ok r = true ->
          TotalEarned session'
          = (TotalEarned session + RewardPerHeartbeat config)%Z)
      /\ Heartbeats session' = inc_int64 (Heartbeats session).
Proof.
  intros K config g ans bal session s Hmux Hwallet.
  destruct (ProcessReward_alone K g
              (heartbeat_attempt config (WalletAddress session) ans)
              (blockchain s) Hmux) as (r & w & Hr & _).
  exists r, w. unfold handleWSMessage.
  apply String.eqb_neq in Hwallet. rewrite Hwallet. cbn [WalletAddress].
  unfold heartbeat_attempt in Hr. rewrite Hr.
  destruct r as [tx|e].
  - cbn [WalletAddress Heartbeats TotalEarned].
    destruct (GetBalance g (WalletAddress session) bal w) as [b w1].
    eexists _, _, _. split; [exact Hr|]. split; [reflexivity|].
    cbn. split; [discriminate|]. split; reflexivity.
  - eexists _, _, _. split; [exact Hr|]. split; [reflexivity|].
    cbn. split; [reflexivity|]. split; [discriminate | reflexivity].
Qed.

(** Messages other than a heartbeat on a registered session leave
    [TotalEarned] alone. *)
Lemma TotalEarned_other_messages K config g msg ans bal session s
    session' written s' :
  msg <> MsgHeartbeat \/ WalletAddress session = ""%string ->
  handleWSMessage K config g msg ans bal session s
    = WSContinue session' written s' ->
  TotalEarned session' = TotalEarned session.
Proof.
  intros Hmsg H. destruct msg as [[addr|]| | |]; unfold handleWSMessage in H.
  - destruct (Nat.ltb (String.length addr) 10); [discriminate|].
    by injection H as <- _ _.
  - by injection H as <- _ _.
  - destruct Hmsg as [Hmsg|Hw]; [congruence|].
    rewrite Hw in H. cbn in H. by injection H as <- _ _.
  - by injection H as <- _ _.
  - by injection H as <- _ _.
Qed.

Lemma TotalEarned_grows_only_on_success_witness :
  nonceMux (client (blockchain idle_server)) = None
  /\ WalletAddress registered <> ""%string
  /\ exists r w session' written s',
      ProcessReward last32 1
        (heartbeat_attempt default_config (WalletAddress registered)
           estimate_fails) (blockchain idle_server)
        = (Some r, w)
      /\ handleWSMessage last32 default_config 1 MsgHeartbeat estimate_fails
           None registered idle_server
         = WSContinue session' written s'
      /\ (is_ok r = false -> TotalEarned session' = TotalEarned registered)
      /\ (is_ok r = true ->
          TotalEarned session'
          = (TotalEarned registered + RewardPerHeartbeat default_config)%Z)
      /\ Heartbeats session' = inc_int64 (Heartbeats registered).
Proof.
  split; [reflexivity|]. split; [discriminate|].
  apply (TotalEarned_grows_only_on_success last32 default_config 1%nat
           estimate_fails None registered idle_server).
  - reflexivity.
  - discriminate.
Defined.

(** ** Replies to heartbeats *)

Lemma Error_text_nonempty why e : Error_text why e <> ""%string.
Proof. destruct e; discriminate. Qed.





(** * Mutual exclusion on the sequence counter *)

Lemma mutex_discipline_snoc tr x :
  mutex_discipline (tr ++ [x]) = check_action (mutex_discipline tr) x.
Proof. unfold mutex_discipline. by rewrite fold_left_app. Qed.

Lemma spawn_invariant attempts w :
  nonceMux (client w) = None -> trace w = [] ->
  pool_invariant (spawn attempts w).
Proof.
  intros Hmux Htr. split; cbn.
  - by rewrite Htr, Hmux.
  - intros g a pc H. rewrite Hmux.
    apply list_lookup_fmap_Some in H as (a' & H & _).
    injection H as _ ->. split; discriminate.
Qed.

(** One step keeps the discipline, and moves the mutex only by taking it
    when free or by releasing it when held by the goroutine that steps. *)
Lemma step_mutex K g a pc w pc' w' :
  step K g a pc w = (pc', w') ->
  (holding pc = true <-> nonceMux (client w) = Some g) ->
  mutex_discipline (trace w) = Some (nonceMux (client w)) ->
  mutex_discipline (trace w') = Some (nonceMux (client w'))
  /\ (holding pc' = true <-> nonceMux (client w') = Some g)
  /\ (nonceMux (client w') = nonceMux (client w)
      \/ (nonceMux (client w) = None /\ nonceMux (client w') = Some g)
      \/ (nonceMux (client w) = Some g /\ nonceMux (client w') = None)).
Proof.
  destruct w as [[ca n mux] sub tr]. cbn [client nonceMux trace].
  intros Hstep Hme Htr.
  assert (Hfree : holding pc = false -> mux <> Some g)
    by (intros Hh Hm; apply Hme in Hm; congruence).
  assert (Hheld : holding pc = true -> mux = Some g) by apply Hme.
  clear Hme.
  destruct pc; cbn in Hstep, Hfree, Hheld;
    try specialize (Hfree eq_refl); try specialize (Hheld eq_refl).
  all: unfold lock, unlock in Hstep; cbn in Hstep.
  all: repeat match type of Hstep with
       | context [if ?b then _ else _] => destruct b
       | context [match ?o with Some _ => _ | None => _ end] => destruct o
       end; cbn in Hstep.
  all: injection Hstep as <- <-; cbn.
  all: unfold mutex_discipline in *; rewrite ?fold_left_app, ?Htr; cbn.
  all: repeat case_decide; try congruence.
  all: try (split; [congruence|]).
  all: try (split; [split; congruence|]).
  all: tauto.
Qed.

Lemma sched_step_invariant K g p :
  pool_invariant p -> pool_invariant (sched_step K g p).
Proof.
  intros [Htr Hpc]. unfold sched_step.
  destruct (goroutines p !! g) as [[a pc]|] eqn:Hg; [|by split].
  destruct (step K g a pc (world p)) as [pc' w'] eqn:Hstep.
  destruct (step_mutex K g a pc (world p) pc' w' Hstep (Hpc g a pc Hg) Htr)
    as (Htr' & Hme & Hmux).
  split; [exact Htr'|]. cbn.
  intros g' a' pc'' H.
  destruct (decide (g' = g)) as [->|Hne].
  - rewrite list_lookup_insert_eq in H by (eapply lookup_lt_Some, Hg).
    by injection H as _ <-.
  - rewrite list_lookup_insert_ne in H by done.
    specialize (Hpc g' a' pc'' H).
    destruct Hmux as [->|[[H0 ->]|[H0 ->]]]; [exact Hpc| |]; rewrite H0 in Hpc.
    + split; [intros Hh; apply Hpc in Hh; discriminate | congruence].
    + split; [intros Hh; apply Hpc in Hh; congruence | discriminate].
Qed.

(** Under every schedule the sequence counter is read and written only by
    the goroutine that holds [nonceMux], the mutex is taken only when free
    and released only by its holder, and no goroutine calls the ledger
    while holding it. *)
Lemma mutual_exclusion K sch : forall p,
  pool_invariant p -> pool_invariant (schedule K sch p).
Proof.
  induction sch as [|g sch IH]; intros p Hp; [exact Hp|].
  cbn. by apply IH, sched_step_invariant.
Qed.

Lemma mutual_exclusion_from_start K sch attempts w :
  nonceMux (client w) = None -> trace w = [] ->
  mutex_discipline (trace (world (schedule K sch (spawn attempts w))))
  = Some (nonceMux (client (world (schedule K sch (spawn attempts w))))).
Proof.
  intros Hmux Htr.
  by apply mutual_exclusion, spawn_invariant.
Qed.

(** * Concurrent calls that never roll back *)

Lemma issued_succ k m :
  issued k (S m) = issued k m ++ [(k + N.of_nat m) mod UINT64].
Proof. unfold issued. by rewrite seq_S, map_app. Qed.

Lemma inc64_issued k m :
  inc64 ((k + N.of_nat m) mod UINT64) = (k + N.of_nat (S m)) mod UINT64.
Proof.
  unfold inc64. rewrite N.Div0.add_mod_idemp_l. f_equal. lia.
Qed.

(** Replacing one goroutine changes the numbers in flight by that
    goroutine's number only. *)
Lemma omap_insert_perm {A B} (f : A -> option B) (l : list A) g x y :
  l !! g = Some x ->
  option_list (f x) ++ omap f (<[g := y]> l)
  ≡ₚ option_list (f y) ++ omap f l.
Proof.
  intros Hg.
  rewrite <- (take_drop_middle l g x Hg) at 2.
  rewrite insert_take_drop by (eapply lookup_lt_Some, Hg).
  rewrite !omap_app. cbn [omap list_omap].
  destruct (f x), (f y); cbn; solve_Permutation.
Qed.

(** One step of a call that does not fail after taking its number either
    takes the next number, or submits the number it holds, or leaves the
    counter and the ledger alone. *)
Lemma step_no_rollback K g a pc w pc' w' :
  step K g a pc w = (pc', w') ->
  fails_after_nonce (mkClient (contractAddress (client w)) 0 None) a = None ->
  rolling_back pc = false ->
  (contract_path pc = true -> contractAddress (client w) <> 0) ->
  contractAddress (client w') = contractAddress (client w)
  /\ rolling_back pc' = false
  /\ (contract_path pc' = true -> contractAddress (client w) <> 0)
  /\ ((pc_nonce pc = None /\ pc_nonce pc' = Some (currentNonce (client w))
       /\ currentNonce (client w') = inc64 (currentNonce (client w))
       /\ nonces_used w' = nonces_used w)
      \/ (exists n, pc_nonce pc = Some n /\ pc_nonce pc' = None
           /\ currentNonce (client w') = currentNonce (client w)
           /\ nonces_used w' = nonces_used w ++ [n])
      \/ (pc_nonce pc' = pc_nonce pc
          /\ currentNonce (client w') = currentNonce (client w)
          /\ nonces_used w' = nonces_used w)).
Proof.
  destruct w as [[ca n mux] sub tr], a as [rcp amt [t pk gp eg sg sd why]].
  unfold fails_after_nonce, nonces_used. cbn.
  intros Hstep Hok Hrb Hpath.
  destruct pc; cbn in Hstep, Hrb, Hpath; try discriminate.
  all: unfold lock, unlock in Hstep; cbn in Hstep.
  all: try (specialize (Hpath eq_refl); apply N.eqb_neq in Hpath;
            rewrite Hpath in Hok; cbn in Hok).
  all: repeat match type of Hstep with
       | context [if ?b then _ else _] => destruct b eqn:?
       | context [match ?o with Some _ => _ | None => _ end] =>
           destruct o eqn:?
       end; cbn in Hstep, Hok; try discriminate.
  all: try (destruct (negb (ca =? 0) && negb (answered eg))%bool;
            discriminate Hok).
  all: try (destruct (negb (ca =? 0) && negb (answered eg))%bool, sg;
            discriminate Hok).
  all: injection Hstep as <- <-; cbn.
  all: rewrite ?map_app; cbn.
  all: repeat split; try discriminate; try exact Hpath;
    try (intros _; by apply Hpath); try (intros; by apply N.eqb_neq).
  all: try (by right; right).
  all: try (by left).
  all: try (right; left; eexists; by repeat split).
Qed.

Lemma sched_step_no_rollback K ca k g p :
  no_rollback_invariant ca k p ->
  no_rollback_invariant ca k (sched_step K g p).
Proof.
  intros (Hca & Hgs & m & Hperm & Hcur). unfold sched_step.
  destruct (goroutines p !! g) as [[a pc]|] eqn:Hg;
    [|by (split; [|split; [|exists m]])].
  destruct (step K g a pc (world p)) as [pc' w'] eqn:Hstep.
  destruct (Hgs g a pc Hg) as (Hok & Hrb & Hpath).
  rewrite <- Hca in Hok, Hpath.
  destruct (step_no_rollback K g a pc (world p) pc' w' Hstep Hok Hrb Hpath)
    as (Hca' & Hrb' & Hpath' & Hcase).
  pose proof (omap_insert_perm (fun t => pc_nonce (snd t)) (goroutines p) g
                (a, pc) (a, pc') Hg) as Hins.
  cbn [snd] in Hins. fold (in_flight p) in Hins.
  split; [cbn; congruence|]. split.
  - cbn. intros g' a' pc'' H.
    destruct (decide (g' = g)) as [->|Hne].
    + rewrite list_lookup_insert_eq in H by (eapply lookup_lt_Some, Hg).
      injection H as <- <-. rewrite <- Hca. auto.
    + rewrite list_lookup_insert_ne in H by done. by apply Hgs in H.
  - unfold in_flight at 1. cbn [goroutines world].
    destruct Hcase
      as [(H1 & H2 & H3 & H4)|[(n & H1 & H2 & H3 & H4)|(H1 & H2 & H3)]].
    + exists (S m). rewrite H1, H2 in Hins. cbn in Hins.
      rewrite H3, H4, Hcur, inc64_issued, issued_succ. split; [|reflexivity].
      rewrite Hins, <- Hperm, Hcur. cbn. solve_Permutation.
    + exists m. rewrite H1, H2 in Hins. cbn in Hins.
      rewrite H3, H4, Hcur. split; [|reflexivity].
      rewrite <- Hperm, <- Hins. solve_Permutation.
    + exists m. rewrite H1 in Hins. apply Permutation_app_inv_l in Hins.
      rewrite H2, H3, Hcur. split; [|reflexivity].
      by rewrite Hins.
Qed.


Lemma schedule_no_rollback K ca k sch : forall p,
  no_rollback_invariant ca k p ->
  no_rollback_invariant ca k (schedule K sch p).
Proof.
  induction sch as [|g sch IH]; intros p Hp; [exact Hp|].
  cbn. by apply IH, sched_step_no_rollback.
Qed.

Lemma spawn_in_flight attempts w : in_flight (spawn attempts w) = [].
Proof.
  unfold in_flight. cbn. induction attempts as [|a rest IH]; [reflexivity|].
  exact IH.
Qed.

Lemma spawn_no_rollback attempts w :
  currentNonce (client w) < UINT64 ->
  submitted w = [] ->
  Forall (fun a => fails_after_nonce (client w) a = None) attempts ->
  no_rollback_invariant (contractAddress (client w)) (currentNonce (client w))
    (spawn attempts w).
Proof.
  intros Hk Hsub Hok. split; [reflexivity|]. split.
  - intros g a pc H. cbn in H.
    apply list_lookup_fmap_Some in H as (a' & H & Hin).
    injection H as -> ->. split; [|by split].
    rewrite Forall_forall in Hok. apply Hok. eapply list_elem_of_lookup_2, Hin.
  - exists 0%nat. rewrite spawn_in_flight. unfold nonces_used. cbn.
    rewrite Hsub, N.add_0_r, N.mod_small by exact Hk. done.
Qed.

Lemma issued_NoDup k m : k + N.of_nat m <= UINT64 -> NoDup (issued k m).
Proof.
  intros Hm. unfold issued. apply NoDup_fmap_2_strong; [|apply NoDup_seq].
  intros i j Hi Hj. rewrite !elem_of_seq in Hi, Hj.
  rewrite !N.mod_small by lia. lia.
Qed.

(** When no call fails after taking its sequence number, every schedule
    hands out each number once: the numbers in flight and the numbers
    submitted are, together, the [m] numbers from the starting value on,
    and until the counter wraps no two submitted transactions share one. *)
Lemma concurrent_calls_without_rollback K sch attempts w :
  currentNonce (client w) < UINT64 ->
  submitted w = [] ->
  Forall (fun a => fails_after_nonce (client w) a = None) attempts ->
  let p := schedule K sch (spawn attempts w) in
  exists m,
    in_flight p ++ nonces_used (world p) ≡ₚ issued (currentNonce (client w)) m
    /\ currentNonce (client (world p))
       = (currentNonce (client w) + N.of_nat m) mod UINT64
    /\ (currentNonce (client w) + N.of_nat m <= UINT64 ->
        NoDup (nonces_used (world p))).
Proof.
  intros Hk Hsub Hok p.
  destruct (schedule_no_rollback K _ _ sch _
              (spawn_no_rollback attempts w Hk Hsub Hok))
    as (_ & _ & m & Hperm & Hcur).
  exists m. split; [exact Hperm|]. split; [exact Hcur|].
  intros Hm. apply issued_NoDup in Hm. rewrite <- Hperm in Hm.
  by apply NoDup_app in Hm as (_ & _ & Hm).
Qed.

(** * Further properties of the treasury contract *)

#[local] Set Warnings "-clear-no-such-hyp".

(** The conditions under which [processReward] commits, and its effect. *)
Lemma processReward_spec :
  forall (m : Msg) (r a c : N) (s : State) (s' : State) (evs : list Event),
    processReward m r a c s = Ok (s', evs)
    <-> (sender m = rewardSigner s
         /\ r <> 0 /\ 0 < a
         /\ (c ∉ claimedRewards s)
         /\ a <= balance s
         /\ totalRewardsDistributed s + a <= MAX_UINT256
         /\ totalClaimsProcessed s + 1 <= MAX_UINT256
         /\ earnings s r + a <= MAX_UINT256
         /\ (r = this s \/ accepts m r = true)
         /\ (s', evs) = rewarded m r a c s).
Proof.
  intros m r a c s s' evs. unfold processReward, settle, rewarded.
  destruct (sender m =? rewardSigner s) eqn:Hs; cbn;
    [apply N.eqb_eq in Hs | apply N.eqb_neq in Hs; split; [discriminate|tauto]].
  destruct (r =? 0) eqn:Hr; cbn;
    [apply N.eqb_eq in Hr; split; [discriminate|tauto]
    | apply N.eqb_neq in Hr].
  destruct (0 <? a) eqn:Ha; cbn;
    [apply N.ltb_lt in Ha
    | apply N.ltb_ge in Ha; split; [discriminate|intros; lia]].
  destruct (is_claimed s c) eqn:Hc; cbn;
    [apply is_claimed_true in Hc; split; [discriminate|tauto]
    | apply is_claimed_false in Hc].
  destruct (a <=? balance s) eqn:Hb; cbn;
    [apply N.leb_le in Hb
    | apply N.leb_gt in Hb; split; [discriminate|intros; lia]].
  unfold checked_add.
  destruct (totalRewardsDistributed s + a <=? MAX_UINT256) eqn:H1; cbn;
    [apply N.leb_le in H1
    | apply N.leb_gt in H1; split; [discriminate|intros; lia]].
  destruct (totalClaimsProcessed s + 1 <=? MAX_UINT256) eqn:H2; cbn;
    [apply N.leb_le in H2
    | apply N.leb_gt in H2; split; [discriminate|intros; lia]].
  destruct (earnings s r + a <=? MAX_UINT256) eqn:H3; cbn;
    [apply N.leb_le in H3
    | apply N.leb_gt in H3; split; [discriminate|intros; lia]].
  unfold call_value, record_claim. cbn.
  apply N.leb_le in Hb. rewrite Hb. cbn.
  destruct (r =? this s) eqn:Ht; cbn.
  - apply N.eqb_eq in Ht. apply N.leb_le in Hb.
    split; [intros [= <- <-]; tauto | intros (_ & _ & _ & _ & _ & _ & _ & _ & _ & H)].
    by rewrite H.
  - apply N.eqb_neq in Ht. apply N.leb_le in Hb.
    destruct (accepts m r); cbn.
    + split; [intros [= <- <-]; tauto
             | intros (_ & _ & _ & _ & _ & _ & _ & _ & _ & H)].
      by rewrite H.
    + split; [discriminate|]. intros (_ & _ & _ & _ & _ & _ & _ & _ & [?|?] & _);
        [contradiction | discriminate].
Qed.


(** What the loop of a batch has done when it ends. *)
Lemma batch_loop_spec m entries : forall s evs s' evs',
  batch_loop m entries s evs = Ok (s', evs') ->
  claimedRewards s' = list_to_set (map snd entries) ∪ claimedRewards s
  /\ NoDup (map snd entries)
  /\ Forall (fun e => fst (fst e) <> 0 /\ 0 < snd (fst e)
                      /\ snd e ∉ claimedRewards s) entries
  /\ owner s' = owner s /\ rewardSigner s' = rewardSigner s
  /\ rewardPerHeartbeat s' = rewardPerHeartbeat s /\ this s' = this s
  /\ balance s' <= balance s.
Proof.
  induction entries as [|[[r a] c] rest IH]; intros s evs s' evs' H.
  - injection H as <- _. cbn.
    split; [by rewrite (left_id_L ∅ (∪))|].
    split; [constructor|]. split; [constructor|]. repeat split; lia.
  - cbn in H.
    destruct (r =? 0) eqn:Hr; [discriminate|]. apply N.eqb_neq in Hr.
    destruct (0 <? a) eqn:Ha; [|discriminate]. apply N.ltb_lt in Ha.
    destruct (is_claimed s c) eqn:Hc; [discriminate|].
    apply is_claimed_false in Hc. cbn in H.
    destruct (settle m r a c s) as [[s1 evs1]|] eqn:Hs; [|discriminate].
    cbn in H. apply IH in H as (Hcl & Hnd & Hall & Ho & Hsg & Hrt & Hth & Hb).
    apply settle_ok in Hs
      as (_ & _ & _ & Hcl1 & Ho1 & Hsg1 & Hrt1 & Hth1 & Hb1).
    rewrite Hcl1 in Hcl, Hall.
    cbn [map snd fst]. repeat split; try congruence; try lia.
    + rewrite Hcl. set_solver.
    + constructor; [|exact Hnd].
      intros Hin. rewrite Forall_forall in Hall.
      apply list_elem_of_fmap in Hin as (e & -> & He).
      apply Hall in He as (_ & _ & He). set_solver.
    + constructor; [cbn; auto|].
      eapply Forall_impl; [exact Hall|]. cbn. intros e (? & ? & He).
      repeat split; auto. set_solver.
Qed.

Lemma zip3_claims (rs az cs : list N) :
  length rs = length az -> length az = length cs ->
  map snd (zip3 rs az cs) = cs.
Proof.
  revert az cs. unfold zip3.
  induction rs as [|r rs IH]; intros [|a az] [|c cs] H1 H2;
    try discriminate; [reflexivity|].
  cbn. f_equal. apply IH; simpl in *; lia.
Qed.

Lemma zip3_recipients (rs az cs : list N) :
  length rs = length az -> length az = length cs ->
  map (fun e => fst (fst e)) (zip3 rs az cs) = rs.
Proof.
  revert az cs. unfold zip3.
  induction rs as [|r rs IH]; intros [|a az] [|c cs] H1 H2;
    try discriminate; [reflexivity|].
  cbn. f_equal. apply IH; simpl in *; lia.
Qed.

Lemma sum_amounts_spec az : forall acc t,
  sum_amounts az acc = Ok t -> t = acc + sum_list az.
Proof.
  induction az as [|a az IH]; intros acc t H; cbn in H.
  - injection H as <-. cbn. lia.
  - destruct (checked_add acc a) as [t1|] eqn:H1; [|discriminate].
    cbn in H. apply IH in H. apply checked_add_ok in H1.
    cbn. fold (sum_list az). lia.
Qed.

(** Unfolding a committed batch. *)
Lemma batch_ok m rs az cs s s' evs :
  batchProcessRewards m rs az cs s = Ok (s', evs) ->
  sender m = rewardSigner s
  /\ length rs = length az /\ length az = length cs
  /\ (1 <= length rs <= 100)%nat
  /\ sum_list az <= balance s
  /\ batch_loop m (zip3 rs az cs) s [] = Ok (s', evs).
Proof.
  unfold batchProcessRewards. intros H.
  destruct (sender m =? rewardSigner s) eqn:Hs; [|discriminate].
  destruct (_ && _)%bool eqn:Hlen; [|discriminate].
  destruct (Nat.ltb 0 _) eqn:Hpos; [|discriminate].
  destruct (Nat.leb _ 100) eqn:Hmax; [|discriminate].
  cbn in H. destruct (sum_amounts az 0) as [t|] eqn:Hsum; [|discriminate].
  cbn in H. destruct (t <=? balance s) eqn:Hb; [|discriminate].
  cbn in H. apply andb_prop in Hlen as [H1 H2].
  apply Nat.eqb_eq in H1, H2. apply N.eqb_eq in Hs.
  apply Nat.ltb_lt in Hpos. apply Nat.leb_le in Hmax.
  apply N.leb_le in Hb. apply sum_amounts_spec in Hsum.
  repeat split; auto; lia.
Qed.

Lemma call_claims m c s s' evs :
  call m c s = Ok (s', evs) ->
  claimedRewards s' = list_to_set (claims_of c) ∪ claimedRewards s
  /\ NoDup (claims_of c)
  /\ (forall x, x ∈ claims_of c -> x ∉ claimedRewards s).
Proof.
  intros H.
  assert (Hsame : claimedRewards s' = claimedRewards s ->
                  claims_of c = [] ->
                  claimedRewards s' = list_to_set (claims_of c) ∪ claimedRewards s
                  /\ NoDup (claims_of c)
                  /\ (forall x, x ∈ claims_of c -> x ∉ claimedRewards s)).
  { intros -> ->. cbn. split; [by rewrite (left_id_L ∅ (∪))|].
    split; [constructor|]. intros x Hx. by apply not_elem_of_nil in Hx. }
  destruct c as [v | v | r a cid | rs az cs | ns | rt | to a | o | | u | cid | ];
    cbn in H.
  - unfold fundTreasury in H. destruct (0 <? v); [|discriminate].
    injection H as <- _. by apply Hsame.
  - injection H as <- _. by apply Hsame.
  - apply processReward_spec in H
      as (_ & _ & _ & Hc & _ & _ & _ & _ & _ & [= -> _]).
    cbn. split; [by rewrite (right_id_L ∅ (∪))|].
    split; [apply NoDup_singleton|].
    intros x Hx. apply list_elem_of_singleton in Hx. by subst.
  - apply batch_ok in H as (_ & H1 & H2 & _ & _ & H).
    apply batch_loop_spec in H as (Hcl & Hnd & Hall & _).
    rewrite zip3_claims in Hcl, Hnd by assumption. cbn.
    split; [exact Hcl|]. split; [exact Hnd|].
    intros x Hx. rewrite <- (zip3_claims rs az cs H1 H2) in Hx.
    apply list_elem_of_fmap in Hx as (e & -> & He).
    rewrite Forall_forall in Hall. by apply Hall in He as (_ & _ & He).
  - unfold setRewardSigner in H.
    destruct (sender m =? owner s); [|discriminate].
    destruct (negb (ns =? 0)); [|discriminate].
    injection H as <- _. by apply Hsame.
  - unfold setRewardRate in H.
    destruct (sender m =? owner s); [|discriminate].
    destruct (0 <? rt); [|discriminate].
    injection H as <- _. by apply Hsame.
  - unfold emergencyWithdraw in H.
    destruct (sender m =? owner s); [|discriminate].
    destruct (negb (to =? 0)); [|discriminate].
    destruct (a <=? balance s); [|discriminate].
    cbn in H.
    destruct (call_value m to a s) as [[s1 evs1]|] eqn:Hv; [|discriminate].
    injection H as <- _. apply call_value_frame in Hv as [Hs1 _].
    apply Hsame; [by rewrite Hs1 | reflexivity].
  - unfold transferOwnership in H.
    destruct (sender m =? owner s); [|discriminate].
    destruct (negb (o =? 0)); [|discriminate].
    injection H as <- _. by apply Hsame.
  - injection H as <- _. by apply Hsame.
  - injection H as <- _. by apply Hsame.
  - injection H as <- _. by apply Hsame.
  - injection H as <- _. by apply Hsame.
Qed.

Lemma consumed_cons m c rest s :
  consumed ((m, c) :: rest) s
  = (if is_ok (call m c s) then claims_of c else [])
    ++ consumed rest (transact m c s).
Proof. reflexivity. Qed.

(** X2. Over any sequence of transactions every claim identifier is
    consumed at most once, by [processReward] or inside a batch: the
    identifiers consumed by the committed calls are pairwise distinct, none
    of them was marked before, and [claimedRewards] ends as the old set
    together with exactly these identifiers, so a mark is never removed. *)
Theorem claim_ids_consumed_once :
  forall (tx : list (Msg * Call)) (s : State),
    NoDup (consumed tx s)
    /\ (forall c, c ∈ consumed tx s -> c ∉ claimedRewards s)
    /\ claimedRewards (run tx s)
       = list_to_set (consumed tx s) ∪ claimedRewards s.
Proof.
  induction tx as [|[m c] rest IH]; intros s.
  - cbn. split; [constructor|]. split; [intros c Hc; by apply not_elem_of_nil in Hc|].
    by rewrite (left_id_L ∅ (∪)).
  - rewrite consumed_cons. cbn [run].
    destruct (IH (transact m c s)) as (Hnd & Hfresh & Hrun).
    unfold transact in *.
    destruct (call m c s) as [[s1 evs]|e] eqn:Hcall; cbn [is_ok].
    + destruct (call_claims m c s s1 evs Hcall) as (Hcl & Hnd1 & Hfresh1).
      split; [|split].
      * apply NoDup_app. split; [exact Hnd1|]. split; [|exact Hnd].
        intros x Hx Hx'. apply Hfresh in Hx'. rewrite Hcl in Hx'.
        apply Hx'. apply elem_of_union_l. by apply elem_of_list_to_set.
      * intros x Hx. apply elem_of_app in Hx as [Hx|Hx]; [by apply Hfresh1|].
        apply Hfresh in Hx. rewrite Hcl in Hx.
        intros Hin. apply Hx. by apply elem_of_union_r.
      * rewrite Hrun, Hcl, list_to_set_app_L. set_solver.
    + cbn [app]. split; [exact Hnd|]. split; [exact Hfresh|exact Hrun].
Qed.

(** X3. A batch commits only if the caller is the reward signer, the three
    arrays have one length between 1 and 100, no recipient is null, every
    amount is positive, the claim identifiers are fresh and pairwise
    distinct and the balance covers the sum of the amounts; it then adds
    that sum to the distributed total, the number of entries to the claims
    counter, and exactly its identifiers to [claimedRewards]. *)
Theorem batch_commits_only_if :
  forall (m : Msg) (rs az cs : list N) (s s' : State) (evs : list Event),
    batchProcessRewards m rs az cs s = Ok (s', evs) ->
    sender m = rewardSigner s
    /\ length rs = length az /\ length az = length cs
    /\ (1 <= length rs <= 100)%nat
    /\ Forall (fun r => r <> 0) rs
    /\ Forall (fun a => 0 < a) az
    /\ NoDup cs
    /\ Forall (fun c => c ∉ claimedRewards s) cs
    /\ sum_list az <= balance s
    /\ totalRewardsDistributed s' = totalRewardsDistributed s + sum_list az
    /\ totalClaimsProcessed s'
       = totalClaimsProcessed s + N.of_nat (length cs)
    /\ claimedRewards s' = list_to_set cs ∪ claimedRewards s.
Proof.
  intros m rs az cs s s' evs H.
  apply batch_ok in H as (Hs & H1 & H2 & Hn & Hsum & H).
  pose proof (batch_loop_spec _ _ _ _ _ _ H) as (Hcl & Hnd & Hall & _).
  pose proof (batch_loop_totals _ _ _ _ _ _ H) as (Ht & Hc).
  rewrite zip3_claims in Hcl, Hnd by assumption.
  rewrite zip3_amounts in Ht by assumption.
  assert (Hlen : length (zip3 rs az cs) = length cs)
    by (unfold zip3; rewrite !length_zip_with; lia).
  rewrite Hlen in Hc.
  repeat split; auto; try lia.
  - rewrite <- (zip3_recipients rs az cs H1 H2). apply Forall_map.
    eapply Forall_impl; [exact Hall|]. cbn. tauto.
  - rewrite <- (zip3_amounts rs az cs H1 H2). apply Forall_map.
    eapply Forall_impl; [exact Hall|]. cbn. tauto.
  - rewrite <- (zip3_claims rs az cs H1 H2). apply Forall_map.
    eapply Forall_impl; [exact Hall|]. cbn. tauto.
Qed.

Lemma batch_commits_only_if_witness :
  exists s' evs,
    call by_signer two_rewards deployed = Ok (s', evs)
    /\ NoDup [7; 8]
    /\ totalRewardsDistributed s' = 3000
    /\ totalClaimsProcessed s' = 2.
Proof.
  eexists _, _. split; [vm_compute; reflexivity|].
  match goal with
  | |- context [totalRewardsDistributed ?s'] =>
      destruct (batch_commits_only_if by_signer [5; 6] [1000; 2000] [7; 8]
                  deployed s' _ eq_refl)
        as (_ & _ & _ & _ & _ & _ & Hnd & _ & _ & Ht & Hc & _)
  end.
  split; [exact Hnd|]. split; [exact Ht | exact Hc].
Defined.

Lemma settle_covered m r a c s s' evs :
  settle m r a c s = Ok (s', evs) -> a <= balance s.
Proof.
  unfold settle. intros H.
  destruct (checked_add (totalRewardsDistributed s) a) as [t|]; [|discriminate].
  destruct (checked_add (totalClaimsProcessed s) 1) as [n|]; [|discriminate].
  destruct (checked_add (earnings s r) a) as [e|]; [|discriminate].
  cbn in H. unfold call_value in H. cbn in H.
  destruct (a <=? balance s) eqn:Hb; [by apply N.leb_le in Hb | discriminate].
Qed.

Lemma batch_loop_as_sequence m entries : forall s evs s' evs',
  sender m = rewardSigner s ->
  batch_loop m entries s evs = Ok (s', evs') ->
  run (singles m entries) s = s'
  /\ settled (singles m entries) s = map (fun e => snd (fst e)) entries.
Proof.
  induction entries as [|[[r a] c] rest IH]; intros s evs s' evs' Hs H.
  - injection H as <- _. by split.
  - cbn in H.
    destruct (negb (r =? 0)) eqn:Hr; [|discriminate].
    destruct (0 <? a) eqn:Ha; [|discriminate].
    destruct (is_claimed s c) eqn:Hc; [discriminate|].
    cbn in H.
    destruct (settle m r a c s) as [[s1 evs1]|] eqn:Hset; [|discriminate].
    cbn in H.
    assert (Hp : processReward m r a c s = Ok (s1, evs1)).
    { unfold processReward. apply N.eqb_eq in Hs. rewrite Hs, Hr, Ha, Hc.
      cbn. apply settle_covered in Hset as Hb. apply N.leb_le in Hb.
      rewrite Hb. cbn. exact Hset. }
    pose proof (settle_ok _ _ _ _ _ _ _ Hset) as (_ & _ & _ & _ & _ & Hsg & _).
    apply IH in H as [Hrun Hsettled]; [|congruence].
    cbn [singles map fst snd run settled call transact].
    unfold transact. cbn [call]. rewrite Hp. cbn [is_ok amounts_of app].
    split; [exact Hrun|]. f_equal. exact Hsettled.
Qed.

(** X4. A committed batch leaves the state that its entries leave when
    they are submitted one after the other through [processReward] by the
    same caller, and each of those single calls commits. *)
Theorem batch_as_sequence :
  forall (m : Msg) (rs az cs : list N) (s s' : State) (evs : list Event),
    batchProcessRewards m rs az cs s = Ok (s', evs) ->
    run (singles m (zip3 rs az cs)) s = s'
    /\ settled (singles m (zip3 rs az cs)) s = az.
Proof.
  intros m rs az cs s s' evs H.
  apply batch_ok in H as (Hs & H1 & H2 & _ & _ & H).
  apply batch_loop_as_sequence in H as [Hrun Hset]; [|exact Hs].
  split; [exact Hrun|]. by rewrite Hset, zip3_amounts.
Qed.

Lemma batch_as_sequence_witness :
  exists s' evs,
    call by_signer two_rewards deployed = Ok (s', evs)
    /\ run [(by_signer, CProcessReward 5 1000 7);
            (by_signer, CProcessReward 6 2000 8)] deployed = s'.
Proof.
  eexists _, _. split; [vm_compute; reflexivity|].
  exact (proj1 (batch_as_sequence by_signer [5; 6] [1000; 2000] [7; 8]
                  deployed _ _ eq_refl)).
Defined.

(** X5. Who can move what.  A call from anyone but the owner leaves the
    owner, the reward signer and the reward rate as they are; a call from
    anyone but the reward signer leaves the distributed total, the claims
    counter, the consumed identifiers and every user's earnings as they
    are; and a call from neither of the two never lowers the balance. *)
Theorem only_owner_and_signer_move_state :
  forall (m : Msg) (c : Call) (s : State),
    (sender m <> owner s ->
     owner (transact m c s) = owner s
     /\ rewardSigner (transact m c s) = rewardSigner s
     /\ rewardPerHeartbeat (transact m c s) = rewardPerHeartbeat s)
    /\ (sender m <> rewardSigner s ->
        totalRewardsDistributed (transact m c s) = totalRewardsDistributed s
        /\ totalClaimsProcessed (transact m c s) = totalClaimsProcessed s
        /\ claimedRewards (transact m c s) = claimedRewards s
        /\ userTotalEarnings (transact m c s) = userTotalEarnings s)
    /\ (sender m <> owner s -> sender m <> rewardSigner s ->
        balance s <= balance (transact m c s)).
Proof.
  intros m c s. unfold transact.
  destruct (call m c s) as [[s' evs]|e] eqn:H;
    [|split; [|split]; intros; repeat split; lia].
  destruct c as [v | v | r a cid | rs az cs | ns | rt | to a | o | | u | cid | ];
    cbn in H.
  - unfold fundTreasury in H. destruct (0 <? v); [|discriminate].
    injection H as <- _. cbn. split; [|split]; intros; repeat split; lia.
  - injection H as <- _. cbn. split; [|split]; intros; repeat split; lia.
  - apply processReward_spec in H
      as (Hs & _ & _ & _ & _ & _ & _ & _ & _ & [= -> _]).
    cbn. split; [|split]; intros; try congruence. by repeat split.
  - apply batch_ok in H as (Hs & _ & _ & _ & _ & H).
    apply batch_loop_spec in H as (_ & _ & _ & Ho & Hsg & Hrt & _).
    split; [|split]; intros; try congruence. repeat split; congruence.
  - unfold setRewardSigner in H.
    destruct (sender m =? owner s) eqn:Ho; [|discriminate].
    apply N.eqb_eq in Ho.
    destruct (negb (ns =? 0)); [|discriminate].
    injection H as <- _. cbn.
    split; [|split]; intros; try congruence. by repeat split.
  - unfold setRewardRate in H.
    destruct (sender m =? owner s) eqn:Ho; [|discriminate].
    apply N.eqb_eq in Ho.
    destruct (0 <? rt); [|discriminate].
    injection H as <- _. cbn.
    split; [|split]; intros; try congruence. by repeat split.
  - unfold emergencyWithdraw in H.
    destruct (sender m =? owner s) eqn:Ho; [|discriminate].
    apply N.eqb_eq in Ho.
    destruct (negb (to =? 0)); [|discriminate].
    destruct (a <=? balance s); [|discriminate].
    cbn in H.
    destruct (call_value m to a s) as [[s1 evs1]|] eqn:Hv; [|discriminate].
    injection H as <- _. apply call_value_frame in Hv as [-> _]. cbn.
    split; [|split]; intros; try congruence. by repeat split.
  - unfold transferOwnership in H.
    destruct (sender m =? owner s) eqn:Ho; [|discriminate].
    apply N.eqb_eq in Ho.
    destruct (negb (o =? 0)); [|discriminate].
    injection H as <- _. cbn.
    split; [|split]; intros; try congruence. by repeat split.
  - injection H as <- _. split; [|split]; intros; repeat split; lia.
  - injection H as <- _. split; [|split]; intros; repeat split; lia.
  - injection H as <- _. split; [|split]; intros; repeat split; lia.
  - injection H as <- _. split; [|split]; intros; repeat split; lia.
Qed.

Lemma checked_add_bound a b c : checked_add a b = Ok c -> c <= MAX_UINT256.
Proof.
  unfold checked_add. destruct (a + b <=? MAX_UINT256) eqn:H; [|discriminate].
  intros [= <-]. by apply N.leb_le.
Qed.

Lemma settle_bounds m r a c s s' evs :
  within_bounds s -> settle m r a c s = Ok (s', evs) -> within_bounds s'.
Proof.
  intros (Hsg & Hrt & _ & _) H.
  pose proof (settle_ok _ _ _ _ _ _ _ H) as (_ & _ & _ & _ & _ & Hsg' & Hrt' & _).
  unfold settle in H.
  destruct (checked_add (totalRewardsDistributed s) a) as [t|] eqn:Ht;
    [|discriminate].
  destruct (checked_add (totalClaimsProcessed s) 1) as [n|] eqn:Hn;
    [|discriminate].
  destruct (checked_add (earnings s r) a) as [e|]; [|discriminate].
  cbn in H.
  destruct (call_value m r a (record_claim r c t n e s))
    as [[s2 evs2]|] eqn:Hc; [|discriminate].
  injection H as <- _. apply call_value_frame in Hc as [-> _].
  apply checked_add_bound in Ht, Hn.
  unfold within_bounds. cbn. repeat split; auto.
Qed.

Lemma batch_loop_bounds m entries : forall s evs s' evs',
  within_bounds s ->
  batch_loop m entries s evs = Ok (s', evs') -> within_bounds s'.
Proof.
  induction entries as [|[[r a] c] rest IH]; intros s evs s' evs' Hb H.
  - by injection H as <- _.
  - cbn in H.
    destruct (negb (r =? 0)); [|discriminate].
    destruct (0 <? a); [|discriminate].
    destruct (is_claimed s c); [discriminate|].
    cbn in H.
    destruct (settle m r a c s) as [[s1 evs1]|] eqn:Hs; [|discriminate].
    cbn in H. eapply IH; [|exact H]. eapply settle_bounds; eassumption.
Qed.

Lemma transact_bounds m c s : within_bounds s -> within_bounds (transact m c s).
Proof.
  intros Hb. unfold transact.
  destruct (call m c s) as [[s' evs]|e] eqn:H; [|exact Hb].
  destruct c as [v | v | r a cid | rs az cs | ns | rt | to a | o | | u | cid | ];
    cbn in H.
  - unfold fundTreasury in H. destruct (0 <? v); [|discriminate].
    by injection H as <- _.
  - by injection H as <- _.
  - unfold processReward in H.
    destruct (sender m =? rewardSigner s); [|discriminate].
    destruct (negb (r =? 0)); [|discriminate].
    destruct (0 <? a); [|discriminate].
    destruct (is_claimed s cid); [discriminate|].
    destruct (a <=? balance s); [|discriminate].
    cbn in H. eapply settle_bounds; eassumption.
  - apply batch_ok in H as (_ & _ & _ & _ & _ & H).
    eapply batch_loop_bounds; eassumption.
  - unfold setRewardSigner in H.
    destruct (sender m =? owner s); [|discriminate].
    destruct (ns =? 0) eqn:Hns; [discriminate|]. apply N.eqb_neq in Hns.
    injection H as <- _. destruct Hb as (_ & ? & ? & ?).
    unfold within_bounds. cbn. auto.
  - unfold setRewardRate in H.
    destruct (sender m =? owner s); [|discriminate].
    destruct (0 <? rt) eqn:Hrt; [|discriminate]. apply N.ltb_lt in Hrt.
    injection H as <- _. destruct Hb as (? & _ & ? & ?).
    unfold within_bounds. cbn. auto.
  - unfold emergencyWithdraw in H.
    destruct (sender m =? owner s); [|discriminate].
    destruct (negb (to =? 0)); [|discriminate].
    destruct (a <=? balance s); [|discriminate].
    cbn in H.
    destruct (call_value m to a s) as [[s1 evs1]|] eqn:Hv; [|discriminate].
    injection H as <- _. by apply call_value_frame in Hv as [-> _].
  - unfold transferOwnership in H.
    destruct (sender m =? owner s); [|discriminate].
    destruct (negb (o =? 0)); [|discriminate].
    by injection H as <- _.
  - by injection H as <- _.
  - by injection H as <- _.
  - by injection H as <- _.
  - by injection H as <- _.
Qed.

Lemma reachable_bounds_and_books s :
  reachable s -> within_bounds s /\ treasury_invariant s.
Proof.
  induction 1 as [m value self signer s evs H | m c s _ [IHb IHi]].
  - split; [|eapply constructor_invariant, H].
    unfold constructor in H.
    destruct (signer =? 0) eqn:Hs; [discriminate|]. apply N.eqb_neq in Hs.
    injection H as <- _. unfold within_bounds, MAX_UINT256. cbn.
    repeat split; auto; lia.
  - split; [by apply transact_bounds | by apply transact_invariant].
Qed.

Lemma sum_earnings_lookup (m : gmap N N) k v :
  m !! k = Some v -> v <= sum_earnings m.
Proof.
  intros Hk. rewrite <- (insert_delete_id m k v Hk).
  rewrite sum_earnings_fresh by apply lookup_delete_eq. lia.
Qed.

(** X6. In every reachable state the reward signer is not the null
    address, the reward rate is positive, the two counters are within
    [uint256], and no user's recorded earnings exceed the distributed
    total. *)
Theorem reachable_state_in_range :
  forall s : State,
    reachable s ->
    rewardSigner s <> 0
    /\ 0 < rewardPerHeartbeat s
    /\ totalRewardsDistributed s <= MAX_UINT256
    /\ totalClaimsProcessed s <= MAX_UINT256
    /\ forall user, getUserEarnings s user <= totalRewardsDistributed s.
Proof.
  intros s Hr.
  apply reachable_bounds_and_books in Hr as [(H1 & H2 & H3 & H4) [Hsum _]].
  repeat split; auto.
  intros user. unfold getUserEarnings, earnings. rewrite Hsum.
  destruct (userTotalEarnings s !! user) as [v|] eqn:Hu; cbn; [|lia].
  by apply sum_earnings_lookup in Hu.
Qed.

Lemma reachable_state_in_range_witness :
  let s := run [(by_signer, CProcessReward 5 1000 7)] deployed in
  reachable s
  /\ rewardSigner s <> 0
  /\ 0 < rewardPerHeartbeat s
  /\ totalRewardsDistributed s <= MAX_UINT256
  /\ totalClaimsProcessed s <= MAX_UINT256
  /\ forall user, getUserEarnings s user <= totalRewardsDistributed s.
Proof.
  intros s.
  assert (Hr : reachable s).
  { apply (reachable_call by_signer (CProcessReward 5 1000 7) deployed).
    by apply (reachable_deploy by_owner 10000 100 2 deployed
                [TreasuryFunded 1 10000 10000]). }
  split; [exact Hr|]. exact (reachable_state_in_range s Hr).
Defined.

(** * Further properties of the ledger client *)

Lemma sched_step_holder K g p :
  pool_invariant p -> holder_in_pool p -> holder_in_pool (sched_step K g p).
Proof.
  intros [Htr Hpc] Hin. unfold sched_step.
  destruct (goroutines p !! g) as [[a pc]|] eqn:Hg; [|exact Hin].
  destruct (step K g a pc (world p)) as [pc' w'] eqn:Hstep.
  destruct (step_mutex K g a pc (world p) pc' w' Hstep (Hpc g a pc Hg) Htr)
    as (_ & _ & Hmux).
  intros h Hh. cbn in Hh |- *.
  assert (Hlt : (g < length (goroutines p))%nat) by (eapply lookup_lt_Some, Hg).
  destruct (decide (h = g)) as [->|Hne].
  - rewrite list_lookup_insert_eq by exact Hlt. by eexists.
  - rewrite list_lookup_insert_ne by done. apply Hin.
    destruct Hmux as [H|[[_ H]|[_ H]]]; congruence.
Qed.

Lemma schedule_holder K sch : forall p,
  pool_invariant p -> holder_in_pool p ->
  pool_invariant (schedule K sch p) /\ holder_in_pool (schedule K sch p).
Proof.
  induction sch as [|g sch IH]; intros p Hp Hin; [by split|].
  cbn. apply IH; [by apply sched_step_invariant | by apply sched_step_holder].
Qed.

Lemma spawn_holder attempts w :
  nonceMux (client w) = None -> holder_in_pool (spawn attempts w).
Proof. intros Hmux g Hg. cbn in Hg. congruence. Qed.

(** X7. Under every schedule of concurrent calls that start with the
    mutex free: the trace respects the mutex (it is locked only when
    free, unlocked only by its holder, the counter is touched only by the
    holder, and the holder sends nothing to the ledger); at most one
    goroutine stands between [Lock] and [Unlock]; and the mutex is held
    exactly when one of the calls stands there. *)
Theorem nonce_mutex_exclusive :
  forall (Keccak256 : list byte -> list byte) (sch : list nat)
         (attempts : list Attempt) (w : World),
    nonceMux (client w) = None ->
    trace w = [] ->
    let p := schedule Keccak256 sch (spawn attempts w) in
    mutex_discipline (trace (world p)) = Some (nonceMux (client (world p)))
    /\ (forall g1 g2 a1 a2 pc1 pc2,
          goroutines p !! g1 = Some (a1, pc1) ->
          goroutines p !! g2 = Some (a2, pc2) ->
          holding pc1 = true -> holding pc2 = true -> g1 = g2)
    /\ (forall g,
          nonceMux (client (world p)) = Some g
          <-> exists a pc, goroutines p !! g = Some (a, pc)
                           /\ holding pc = true).
Proof.
  intros K sch attempts w Hmux Htr p.
  destruct (schedule_holder K sch (spawn attempts w)
              (spawn_invariant attempts w Hmux Htr)
              (spawn_holder attempts w Hmux)) as [[Hd Hpc] Hin].
  fold p in Hd, Hpc, Hin.
  split; [exact Hd|]. split.
  - intros g1 g2 a1 a2 pc1 pc2 H1 H2 Hh1 Hh2.
    apply (Hpc g1 a1 pc1 H1) in Hh1. apply (Hpc g2 a2 pc2 H2) in Hh2.
    congruence.
  - intros g. split.
    + intros Hg. destruct (Hin g Hg) as [[a pc] Hl].
      exists a, pc. split; [exact Hl|]. by apply (Hpc g a pc Hl).
    + intros (a & pc & Hl & Hh). by apply (Hpc g a pc Hl).
Qed.

Lemma nonce_mutex_exclusive_witness :
  let p := schedule last32 race_schedule (spawn race_attempts contract_world) in
  nonceMux (client contract_world) = None
  /\ trace contract_world = []
  /\ mutex_discipline (trace (world p)) = Some (nonceMux (client (world p)))
  /\ (forall g1 g2 a1 a2 pc1 pc2,
        goroutines p !! g1 = Some (a1, pc1) ->
        goroutines p !! g2 = Some (a2, pc2) ->
        holding pc1 = true -> holding pc2 = true -> g1 = g2)
  /\ (forall g,
        nonceMux (client (world p)) = Some g
        <-> exists a pc, goroutines p !! g = Some (a, pc)
                         /\ holding pc = true).
Proof.
  intros p. split; [reflexivity|]. split; [reflexivity|].
  exact (nonce_mutex_exclusive last32 race_schedule race_attempts
           contract_world eq_refl eq_refl).
Defined.

(** A step either leaves the goroutine and the world as they are (it
    waits for the mutex, or it has returned) or brings it closer to its
    return. *)
Lemma step_rank K g a pc w pc' w' :
  step K g a pc w = (pc', w') ->
  (pc' = pc /\ w' = w) \/ (rank pc' < rank pc)%nat.
Proof.
  intros Hstep. destruct pc; cbn in Hstep; unfold lock in Hstep.
  all: repeat match type of Hstep with
       | context [if ?b then _ else _] => destruct b
       | context [match ?o with Some _ => _ | None => _ end] => destruct o
       end; cbn in Hstep.
  all: injection Hstep as <- <-; cbn; first [right; lia | by left].
Qed.

(** A goroutine that has not returned moves when the mutex is free or
    its own. *)
Lemma step_moves K g a pc w :
  has_returned pc = false ->
  nonceMux (client w) = None \/ holding pc = true ->
  (rank (fst (step K g a pc w)) < rank pc)%nat.
Proof.
  intros Hr Hm. destruct pc; cbn in Hr, Hm |- *; try discriminate.
  all: unfold lock.
  all: repeat match goal with
       | |- context [if ?b then _ else _] => destruct b
       | |- context [match ?o with Some _ => _ | None => _ end] =>
           destruct o eqn:?
       end; cbn; try lia.
  all: destruct Hm; congruence.
Qed.

Lemma sum_list_with_insert {A} (f : A -> nat) (l : list A) g x y :
  l !! g = Some x ->
  (sum_list_with f (<[g := y]> l) + f x = sum_list_with f l + f y)%nat.
Proof.
  revert g. induction l as [|z l IH]; intros [|g] H; try discriminate.
  - injection H as ->. simpl. lia.
  - simpl in H |- *. specialize (IH g H). lia.
Qed.

Lemma sched_step_work K g p : (work (sched_step K g p) <= work p)%nat.
Proof.
  unfold sched_step, work.
  destruct (goroutines p !! g) as [[a pc]|] eqn:Hg; [|lia].
  destruct (step K g a pc (world p)) as [pc' w'] eqn:Hstep. cbn.
  pose proof (sum_list_with_insert (fun t => rank (snd t)) _ g _ (a, pc') Hg)
    as Hs. cbn in Hs.
  apply step_rank in Hstep as [[-> _]|Hlt]; lia.
Qed.

Lemma schedule_work K sch : forall p,
  (work (schedule K sch p) <= work p)%nat.
Proof.
  induction sch as [|g sch IH]; intros p; [cbn; lia|].
  cbn. etrans; [apply IH | apply sched_step_work].
Qed.

Lemma spawn_work attempts w :
  work (spawn attempts w) = (11 * length attempts)%nat.
Proof.
  unfold work. cbn. induction attempts as [|a rest IH]; [reflexivity|].
  cbn in IH |- *. lia.
Qed.

Lemma work_zero p : work p = 0%nat <-> all_returned p.
Proof.
  unfold work, all_returned.
  induction (goroutines p) as [|[a pc] l IH]; cbn.
  - split; [constructor | reflexivity].
  - rewrite Forall_cons. cbn. rewrite <- IH.
    destruct pc; cbn; split; intros; try lia; try tauto; try (by destruct H).
Qed.

Lemma work_positive p :
  (0 < work p)%nat ->
  exists g a pc, goroutines p !! g = Some (a, pc) /\ has_returned pc = false.
Proof.
  unfold work. induction (goroutines p) as [|[a pc] l IH]; cbn; [lia|].
  intros H. destruct (has_returned pc) eqn:Hr.
  - destruct pc; try discriminate. cbn in H.
    destruct (IH H) as (g & a' & pc' & Hl & Hr').
    by exists (S g), a', pc'.
  - by exists 0%nat, a, pc.
Qed.

(** No deadlock: unless every call has returned, some goroutine's next
    step moves it forward. *)
Lemma runnable K p :
  pool_invariant p -> holder_in_pool p -> (0 < work p)%nat ->
  exists g, (work (sched_step K g p) < work p)%nat.
Proof.
  intros [Htr Hpc] Hin Hw.
  assert (exists g a pc, goroutines p !! g = Some (a, pc)
                         /\ has_returned pc = false
                         /\ (nonceMux (client (world p)) = None
                             \/ holding pc = true))
    as (g & a & pc & Hg & Hr & Hm).
  { destruct (nonceMux (client (world p))) as [h|] eqn:Hmux.
    - destruct (Hin h Hmux) as [[a pc] Hl].
      assert (Hh : holding pc = true) by by apply (Hpc h a pc Hl).
      exists h, a, pc. split; [exact Hl|]. split; [|by right].
      by destruct pc.
    - destruct (work_positive p Hw) as (g & a & pc & Hl & Hr).
      exists g, a, pc. split; [exact Hl|]. split; [exact Hr | by left]. }
  exists g. unfold sched_step, work. rewrite Hg.
  pose proof (step_moves K g a pc (world p) Hr Hm) as Hlt.
  destruct (step K g a pc (world p)) as [pc' w'] eqn:Hstep. cbn in Hlt |- *.
  pose proof (sum_list_with_insert (fun t => rank (snd t)) _ g _ (a, pc') Hg)
    as Hs. cbn in Hs. lia.
Qed.

Lemma finish K n : forall p,
  pool_invariant p -> holder_in_pool p -> (work p <= n)%nat ->
  exists rest,
    (length rest <= n)%nat
    /\ all_returned (schedule K rest p)
    /\ nonceMux (client (world (schedule K rest p))) = None.
Proof.
  induction n as [|n IH]; intros p Hp Hin Hw.
  - exists []. split; [cbn; lia|]. cbn.
    assert (Hall : all_returned p) by (apply work_zero; lia).
    split; [exact Hall|].
    destruct (nonceMux (client (world p))) as [h|] eqn:Hmux; [|reflexivity].
    destruct (Hin h Hmux) as [[a pc] Hl].
    assert (Hh : holding pc = true) by by apply (proj2 Hp h a pc Hl).
    unfold all_returned in Hall. rewrite Forall_forall in Hall.
    specialize (Hall (a, pc) (list_elem_of_lookup_2 _ _ _ Hl)). cbn in Hall.
    by destruct pc.
  - destruct (decide (work p = 0%nat)) as [H0|Hpos].
    + destruct (IH p Hp Hin) as (rest & Hlen & Hr); [lia|].
      exists rest. split; [lia | exact Hr].
    + destruct (runnable K p Hp Hin) as [g Hg]; [lia|].
      destruct (IH (sched_step K g p)) as (rest & Hlen & Hr);
        [by apply sched_step_invariant | by apply sched_step_holder | lia |].
      exists (g :: rest). split; [cbn; lia | exact Hr].
Qed.

(** X8. Concurrent calls never deadlock on the mutex.  From every state
    that a schedule of calls reaches, some goroutine's next step moves it
    forward unless every call has returned; and the calls can be run to
    the end in at most eleven further steps each, after which every call
    has returned and the mutex is free. *)
Theorem concurrent_calls_never_deadlock :
  forall (Keccak256 : list byte -> list byte) (sch : list nat)
         (attempts : list Attempt) (w : World),
    nonceMux (client w) = None ->
    trace w = [] ->
    let p := schedule Keccak256 sch (spawn attempts w) in
    (all_returned p
     \/ exists g a pc,
          goroutines p !! g = Some (a, pc)
          /\ (rank (fst (step Keccak256 g a pc (world p))) < rank pc)%nat)
    /\ exists rest,
         (length rest <= 11 * length attempts)%nat
         /\ all_returned (schedule Keccak256 rest p)
         /\ nonceMux (client (world (schedule Keccak256 rest p))) = None.
Proof.
  intros K sch attempts w Hmux Htr p.
  destruct (schedule_holder K sch (spawn attempts w)
              (spawn_invariant attempts w Hmux Htr)
              (spawn_holder attempts w Hmux)) as [Hp Hin].
  fold p in Hp, Hin.
  assert (Hw : (work p <= 11 * length attempts)%nat).
  { rewrite <- (spawn_work attempts w). apply schedule_work. }
  split; [|by apply finish].
  destruct (decide (work p = 0%nat)) as [H0|Hpos];
    [left; by apply work_zero | right].
  destruct Hp as [Hd Hpc].
  destruct (nonceMux (client (world p))) as [h|] eqn:Hm.
  - destruct (Hin h Hm) as [[a pc] Hl].
    assert (Hh : holding pc = true) by by apply (Hpc h a pc Hl).
    exists h, a, pc. split; [exact Hl|].
    apply step_moves; [by destruct pc | by right].
  - destruct (work_positive p) as (g & a & pc & Hl & Hr); [lia|].
    exists g, a, pc. split; [exact Hl|]. apply step_moves; [exact Hr | by left].
Qed.

Lemma concurrent_calls_never_deadlock_witness :
  let p := schedule last32 [0; 1; 0; 1; 0; 1]%nat
             (spawn race_attempts contract_world) in
  nonceMux (client contract_world) = None
  /\ trace contract_world = []
  /\ (all_returned p
      \/ exists g a pc,
           goroutines p !! g = Some (a, pc)
           /\ (rank (fst (step last32 g a pc (world p))) < rank pc)%nat)
  /\ exists rest,
       (length rest <= 11 * length race_attempts)%nat
       /\ all_returned (schedule last32 rest p)
       /\ nonceMux (client (world (schedule last32 rest p))) = None.
Proof.
  intros p. split; [reflexivity|]. split; [reflexivity|].
  exact (concurrent_calls_never_deadlock last32 [0; 1; 0; 1; 0; 1]%nat
           race_attempts contract_world eq_refl eq_refl).
Defined.

(** X9. A call that fails before it takes a sequence number (recipient
    not well formed, arguments that do not pack, no gas price) returns
    that error having touched neither the mutex nor the counter nor the
    ledger's transactions: the client is as before, whoever holds the
    mutex, and the only request it may have made is the one for the gas
    price. *)
Theorem early_failure_leaves_client_untouched :
  forall (Keccak256 : list byte -> list byte) (g : nat) (a : Attempt)
         (w : World),
    takes_nonce (client w) a = false ->
    exists e w',
      ProcessReward Keccak256 g a w = (Some (Err e), w')
      /\ client w' = client w
      /\ submitted w' = submitted w
      /\ ((e = InvalidRecipientAddress
           /\ IsHexAddress (recipient a) = false
           /\ trace w' = trace w)
          \/ (e = FailedToPack
              /\ contractAddress (client w) <> 0
              /\ pack_ok (answers a) = false
              /\ trace w' = trace w)
          \/ (e = FailedToGetGasPrice
              /\ suggestGasPrice (answers a) = None
              /\ trace w' = trace w ++ [(g, ACall SuggestGasPrice)])).
Proof.
  intros K g [rcp amt [t pk gp eg sg sd why]] [[ca n mux] sub tr].
  unfold takes_nonce, ProcessReward. cbn.
  destruct (ca =? 0) eqn:Hca; cbn;
    (destruct (IsHexAddress rcp); cbn;
     [|intros _; eexists _, _; repeat split; by left]).
  - destruct gp as [gp|]; cbn; [discriminate|].
    intros _. eexists _, _. repeat split. by right; right.
  - apply N.eqb_neq in Hca.
    destruct pk; cbn; [|intros _; eexists _, _; repeat split; by right; left].
    destruct gp as [gp|]; cbn; [discriminate|].
    intros _. eexists _, _. repeat split. by right; right.
Qed.

Lemma early_failure_leaves_client_untouched_witness :
  let a := mkAttempt "0x12" 1000 all_ok in
  let w := mkWorld (mkClient 192 7 (Some 3%nat)) [] [] in
  takes_nonce (client w) a = false
  /\ exists e w',
      ProcessReward last32 0 a w = (Some (Err e), w')
      /\ client w' = client w
      /\ submitted w' = submitted w
      /\ ((e = InvalidRecipientAddress
           /\ IsHexAddress (recipient a) = false
           /\ trace w' = trace w)
          \/ (e = FailedToPack
              /\ contractAddress (client w) <> 0
              /\ pack_ok (answers a) = false
              /\ trace w' = trace w)
          \/ (e = FailedToGetGasPrice
              /\ suggestGasPrice (answers a) = None
              /\ trace w' = trace w ++ [(0%nat, ACall SuggestGasPrice)])).
Proof.
  intros a w. split; [reflexivity|].
  exact (early_failure_leaves_client_untouched last32 0 a w eq_refl).
Defined.

(** What a call that succeeds with the mutex free at its start submits. *)
Lemma ProcessReward_success K g a w :
  nonceMux (client w) = None ->
  takes_nonce (client w) a = true ->
  fails_after_nonce (client w) a = None ->
  exists gp tx w',
    suggestGasPrice (answers a) = Some gp
    /\ ProcessReward K g a w = (Some (Ok tx), w')
    /\ (if contractAddress (client w) =? 0 then
          tx = mkTx (currentNonce (client w)) (HexToAddress (recipient a))
                 (amount a) 21000 gp None
        else
          exists gasLimit,
            estimateGas (answers a) = Some gasLimit
            /\ tx = mkTx (currentNonce (client w)) (contractAddress (client w))
                      0 gasLimit gp
                      (Some (mkCallData (HexToAddress (recipient a)) (amount a)
                               (claimID K (HexToAddress (recipient a))
                                  (amount a) (unixNano (answers a))))))
    /\ client w'
       = mkClient (contractAddress (client w))
           (inc64 (currentNonce (client w))) None
    /\ submitted w' = submitted w ++ [tx]
    /\ trace w'
       = trace w
         ++ [(g, ACall SuggestGasPrice); (g, ALock);
             (g, ATakeNonce (currentNonce (client w))); (g, AUnlock)]
         ++ (if contractAddress (client w) =? 0 then []
             else [(g, ACall EstimateGas)])
         ++ [(g, ACall (SendTransaction tx))].
Proof.
  destruct a as [rcp amt [t pk gp eg sg sd why]], w as [[ca n mux] sub tr].
  unfold takes_nonce, fails_after_nonce, ProcessReward. cbn.
  intros -> Htake Hok. unfold lock. cbn.
  destruct (IsHexAddress rcp); [|discriminate]. cbn in Htake |- *.
  destruct gp as [gp|]; [|by destruct (ca =? 0), pk].
  destruct (ca =? 0); cbn in Htake, Hok |- *.
  - destruct sg; [|discriminate]. destruct sd; [|discriminate]. cbn.
    eexists _, _, _. split; [reflexivity|]. split; [reflexivity|].
    cbn. rewrite <- !app_assoc. by repeat split.
  - destruct pk; [|discriminate]. destruct eg as [gl|]; [|discriminate].
    cbn in Hok |- *.
    destruct sg; [|discriminate]. destruct sd; [|discriminate]. cbn.
    eexists _, _, _. split; [reflexivity|]. split; [reflexivity|].
    cbn. rewrite <- !app_assoc. split; [by eexists|]. by repeat split.
Qed.

(** X10. A call that meets a free mutex and none of whose steps fails
    submits exactly one transaction, with the sequence number the counter
    had and the suggested gas price.  With no contract configured it is a
    plain transfer of the amount to the recipient with gas limit 21000 and
    no data; with a contract it goes to the contract with value zero, the
    estimated gas limit, and the recipient, the amount and the claim
    identifier as call data.  Either way it pays the recipient the amount;
    the counter is advanced by one and the mutex is free again. *)
Theorem successful_call_submits_one_payment :
  forall (Keccak256 : list byte -> list byte) (g : nat) (a : Attempt)
         (w : World),
    nonceMux (client w) = None ->
    takes_nonce (client w) a = true ->
    fails_after_nonce (client w) a = None ->
    exists gp tx w',
      suggestGasPrice (answers a) = Some gp
      /\ ProcessReward Keccak256 g a w = (Some (Ok tx), w')
      /\ (if contractAddress (client w) =? 0 then
            tx = mkTx (currentNonce (client w)) (HexToAddress (recipient a))
                   (amount a) 21000 gp None
          else
            exists gasLimit,
              estimateGas (answers a) = Some gasLimit
              /\ tx = mkTx (currentNonce (client w))
                        (contractAddress (client w)) 0 gasLimit gp
                        (Some (mkCallData (HexToAddress (recipient a))
                                 (amount a)
                                 (claimID Keccak256 (HexToAddress (recipient a))
                                    (amount a) (unixNano (answers a))))))
      /\ pays tx = (HexToAddress (recipient a), amount a)
      /\ client w'
         = mkClient (contractAddress (client w))
             (inc64 (currentNonce (client w))) None
      /\ submitted w' = submitted w ++ [tx].
Proof.
  intros K g a w Hmux Htake Hok.
  destruct (ProcessReward_success K g a w Hmux Htake Hok)
    as (gp & tx & w' & Hgp & Hrun & Htx & Hc & Hsub & _).
  exists gp, tx, w'. repeat split; try assumption.
  destruct (contractAddress (client w) =? 0).
  - by rewrite Htx.
  - destruct Htx as (gl & _ & ->). reflexivity.
Qed.

Lemma successful_call_submits_one_payment_witness :
  let a := mkAttempt alice 1000 all_ok in
  nonceMux (client contract_world) = None
  /\ takes_nonce (client contract_world) a = true
  /\ fails_after_nonce (client contract_world) a = None
  /\ exists gp tx w',
      suggestGasPrice (answers a) = Some gp
      /\ ProcessReward last32 0 a contract_world = (Some (Ok tx), w')
      /\ (if contractAddress (client contract_world) =? 0 then
            tx = mkTx (currentNonce (client contract_world))
                   (HexToAddress (recipient a)) (amount a) 21000 gp None
          else
            exists gasLimit,
              estimateGas (answers a) = Some gasLimit
              /\ tx = mkTx (currentNonce (client contract_world))
                        (contractAddress (client contract_world)) 0 gasLimit gp
                        (Some (mkCallData (HexToAddress (recipient a))
                                 (amount a)
                                 (claimID last32 (HexToAddress (recipient a))
                                    (amount a) (unixNano (answers a))))))
      /\ pays tx = (HexToAddress (recipient a), amount a)
      /\ client w'
         = mkClient (contractAddress (client contract_world))
             (inc64 (currentNonce (client contract_world))) None
      /\ submitted w' = submitted contract_world ++ [tx].
Proof.
  intros a. split; [reflexivity|]. split; [reflexivity|].
  split; [reflexivity|].
  exact (successful_call_submits_one_payment last32 0 a contract_world
           eq_refl eq_refl eq_refl).
Defined.

(** X11. The reward processor, when it is the only caller of
    [ProcessReward], serves its whole queue: every request is either
    submitted or logged as failed, the submitted transactions carry
    consecutive sequence numbers starting at the counter's value, one per
    success with none skipped and none twice, and the counter ends that
    many higher with the mutex free. *)
Theorem rewardProcessor_uses_consecutive_numbers :
  forall (Keccak256 : list byte -> list byte) (g : nat)
         (rewardQueue : list (RewardRequest * Answers)) (w : World),
    nonceMux (client w) = None ->
    currentNonce (client w) + N.of_nat (length rewardQueue) < UINT64 ->
    exists log w',
      rewardProcessor Keccak256 g rewardQueue w = (Some log, w')
      /\ (length log <= length rewardQueue)%nat
      /\ nonces_used w'
         = nonces_used w
           ++ consecutive (currentNonce (client w))
                (length rewardQueue - length log)
      /\ currentNonce (client w')
         = currentNonce (client w)
           + N.of_nat (length rewardQueue - length log)
      /\ nonceMux (client w') = None.
Proof.
  intros K g queue.
  induction queue as [|[req ans] rest IH]; intros w Hmux Hlt.
  - exists [], w. cbn. rewrite app_nil_r, N.add_0_r. by repeat split.
  - cbn [rewardProcessor].
    destruct (ProcessReward_alone K g
                (mkAttempt (rq_WalletAddress req) (rq_Amount req) ans) w Hmux)
      as (r & w1 & -> & Hmux1 & _ & Hr).
    cbn [length] in Hlt.
    destruct r as [tx|e].
    + destruct Hr as (Hn & Hsub & Hcur).
      assert (Hcur' : currentNonce (client w1) = currentNonce (client w) + 1).
      { rewrite Hcur. unfold inc64. apply N.mod_small. lia. }
      destruct (IH w1 Hmux1) as (log & w' & -> & Hlen & Hused & Hc & Hm);
        [lia|].
      exists log, w'. split; [reflexivity|]. split; [cbn; lia|].
      replace (length ((req, ans) :: rest) - length log)%nat
        with (S (length rest - length log)) by (cbn; lia).
      split; [|split; [lia | exact Hm]].
      rewrite Hused, Hcur'. unfold nonces_used at 1. rewrite Hsub, map_app.
      cbn [map]. rewrite Hn, <- app_assoc. reflexivity.
    + destruct Hr as (Hsub & Hcur).
      assert (Hcur' : currentNonce (client w1) = currentNonce (client w)).
      { destruct Hcur as [H|H]; [exact H|]. rewrite H.
        apply dec64_inc64. lia. }
      destruct (IH w1 Hmux1) as (log & w' & -> & Hlen & Hused & Hc & Hm);
        [lia|].
      exists (e :: log), w'. split; [reflexivity|]. split; [cbn; lia|].
      replace (length ((req, ans) :: rest) - length (e :: log))%nat
        with (length rest - length log)%nat by (cbn; lia).
      split; [|split; [lia | exact Hm]].
      rewrite Hused, Hcur'. unfold nonces_used. by rewrite Hsub.
Qed.

Lemma rewardProcessor_uses_consecutive_numbers_witness :
  let queue :=
    [(mkRewardRequest alice 1000 1 0, all_ok);
     (mkRewardRequest null_address 1000 1 0, estimate_fails);
     (mkRewardRequest bob 1000 1 0, all_ok)] in
  nonceMux (client contract_world) = None
  /\ currentNonce (client contract_world) + N.of_nat (length queue) < UINT64
  /\ exists log w',
      rewardProcessor last32 0 queue contract_world = (Some log, w')
      /\ (length log <= length queue)%nat
      /\ nonces_used w'
         = nonces_used contract_world
           ++ consecutive (currentNonce (client contract_world))
                (length queue - length log)
      /\ currentNonce (client w')
         = currentNonce (client contract_world)
           + N.of_nat (length queue - length log)
      /\ nonceMux (client w') = None.
Proof.
  intros queue. split; [reflexivity|]. split; [reflexivity|].
  exact (rewardProcessor_uses_consecutive_numbers last32 0 queue
           contract_world eq_refl eq_refl).
Defined.

(** One step submits a transaction exactly when it returns success, and
    keeps what the goroutine carries in line with its attempt. *)
Lemma step_payment K g a pc w pc' w' :
  step K g a pc w = (pc', w') ->
  carries a pc ->
  carries a pc'
  /\ ((exists tx, ok_tx pc = None /\ ok_tx pc' = Some tx
                  /\ submitted w' = submitted w ++ [tx])
      \/ (ok_tx pc' = ok_tx pc /\ submitted w' = submitted w)).
Proof.
  destruct w as [[ca n mux] sub tr], a as [rcp amt [t pk gp eg sg sd why]].
  intros Hstep Hc.
  destruct pc; cbn in Hstep, Hc; unfold lock, unlock in Hstep; cbn in Hstep.
  all: repeat match type of Hstep with
       | context [if ?b then _ else _] => destruct b
       | context [match ?o with Some _ => _ | None => _ end] => destruct o
       end; cbn in Hstep.
  all: injection Hstep as <- <-; cbn.
  all: split; [first [exact Hc | exact I | reflexivity
                      | by rewrite Hc | idtac]|].
  all: try (by right).
  all: try (left; eexists; by repeat split).
  all: try (unfold pays; cbn; by injection Hc as -> ->).
Qed.

Lemma sched_step_payments K w0 attempts g p :
  payments_invariant w0 attempts p ->
  payments_invariant w0 attempts (sched_step K g p).
Proof.
  intros (Hat & Hsub & Hc). unfold sched_step.
  destruct (goroutines p !! g) as [[a pc]|] eqn:Hg; [|by repeat split].
  destruct (step K g a pc (world p)) as [pc' w'] eqn:Hstep.
  destruct (step_payment K g a pc (world p) pc' w' Hstep (Hc g a pc Hg))
    as (Hc' & Hcase).
  pose proof (omap_insert_perm (fun t => ok_tx (snd t)) (goroutines p) g
                (a, pc) (a, pc') Hg) as Hins.
  cbn [snd] in Hins. fold (reported p) in Hins.
  split; [|split]; cbn [goroutines world].
  - rewrite <- Hat. rewrite list_fmap_insert. cbn.
    apply list_insert_id. rewrite list_lookup_fmap, Hg. reflexivity.
  - unfold reported at 1. cbn [goroutines].
    destruct Hcase as [(tx & H1 & H2 & H3)|(H1 & H2)].
    + rewrite H1, H2 in Hins. cbn in Hins.
      rewrite H3, Hsub, Hins. solve_Permutation.
    + rewrite H1 in Hins. apply Permutation_app_inv_l in Hins.
      by rewrite H2, Hsub, Hins.
  - intros g' a' pc'' H.
    destruct (decide (g' = g)) as [->|Hne].
    + rewrite list_lookup_insert_eq in H by (eapply lookup_lt_Some, Hg).
      by injection H as <- <-.
    + rewrite list_lookup_insert_ne in H by done. by apply Hc in H.
Qed.

Lemma schedule_payments K w0 attempts sch : forall p,
  payments_invariant w0 attempts p ->
  payments_invariant w0 attempts (schedule K sch p).
Proof.
  induction sch as [|g sch IH]; intros p Hp; [exact Hp|].
  cbn. by apply IH, sched_step_payments.
Qed.

Lemma spawn_payments attempts w :
  payments_invariant w attempts (spawn attempts w).
Proof.
  split; [|split]; cbn.
  - rewrite <- list_fmap_compose. apply list_fmap_id.
  - unfold reported. cbn.
    replace (omap _ _) with (@nil Tx); [by rewrite app_nil_r|].
    induction attempts as [|a rest IH]; [reflexivity | exact IH].
  - intros g a pc H.
    apply list_lookup_fmap_Some in H as (a' & H & _).
    by injection H as _ ->.
Qed.

(** X12. Under every schedule of concurrent calls the transactions the
    ledger has accepted are those it had before and, one for one, those
    that returned calls report as their success; a call that has not
    returned success has none among them.  Each reported transaction pays
    the recipient and the amount of the call that reports it. *)
Theorem submitted_are_the_reported_payments :
  forall (Keccak256 : list byte -> list byte) (sch : list nat)
         (attempts : list Attempt) (w : World),
    let p := schedule Keccak256 sch (spawn attempts w) in
    map fst (goroutines p) = attempts
    /\ submitted (world p) ≡ₚ submitted w ++ reported p
    /\ length (submitted (world p))
       = (length (submitted w) + count_succeeded (returned p))%nat
    /\ forall g a tx,
         goroutines p !! g = Some (a, PcReturn (Ok tx)) ->
         pays tx = (HexToAddress (recipient a), amount a)
         /\ tx ∈ submitted (world p).
Proof.
  intros K sch attempts w p.
  destruct (schedule_payments K w attempts sch _ (spawn_payments attempts w))
    as (Hat & Hsub & Hc).
  fold p in Hat, Hsub, Hc.
  split; [exact Hat|]. split; [exact Hsub|]. split.
  - rewrite Hsub, length_app. f_equal.
    unfold reported, count_succeeded, returned.
    generalize (goroutines p). clear. intros l.
    induction l as [|[a pc] l IH]; [reflexivity|].
    cbn. destruct pc as [| | | | | | | | | | |[tx|e]]; cbn; by rewrite ?IH.
  - intros g a tx Hg. split; [exact (Hc g a _ Hg)|].
    rewrite Hsub. apply elem_of_app. right.
    unfold reported. apply list_elem_of_omap. exists (a, PcReturn (Ok tx)).
    split; [eapply list_elem_of_lookup_2, Hg | reflexivity].
Qed.







(** * The reward rate of the contract *)

Lemma settle_rate m r a c s rate :
  settle m r a c (set_rewardPerHeartbeat rate s)
  = with_rate rate (settle m r a c s).
Proof.
  destruct s as [th bal ow sg tot cnt rt cl ue].
  unfold settle, checked_add, earnings, call_value, record_claim. cbn.
  destruct (tot + a <=? MAX_UINT256); [|reflexivity].
  destruct (cnt + 1 <=? MAX_UINT256); [|reflexivity].
  destruct (default 0 (ue !! r) + a <=? MAX_UINT256); [|reflexivity].
  cbn. destruct (a <=? bal); [|reflexivity]. cbn.
  destruct (r =? th); [reflexivity|]. by destruct (accepts m r).
Qed.

Lemma batch_loop_rate m entries rate : forall s evs,
  batch_loop m entries (set_rewardPerHeartbeat rate s) evs
  = with_rate rate (batch_loop m entries s evs).
Proof.
  induction entries as [|[[r a] c] rest IH]; intros s evs; [reflexivity|].
  cbn [batch_loop].
  destruct (negb (r =? 0)); [|reflexivity].
  destruct (0 <? a); [|reflexivity].
  replace (is_claimed (set_rewardPerHeartbeat rate s) c) with (is_claimed s c)
    by reflexivity.
  destruct (is_claimed s c); [reflexivity|]. cbn.
  rewrite settle_rate.
  destruct (settle m r a c s) as [[s1 evs1]|e]; [|reflexivity].
  cbn. apply IH.
Qed.

(** Every function but [setRewardRate] does under another rate what it
    does under this one. *)
Lemma call_rate m c s rate :
  (forall r, c <> CSetRewardRate r) ->
  call m c (set_rewardPerHeartbeat rate s) = with_rate rate (call m c s).
Proof.
  intros Hc.
  destruct c as [v | v | r a cid | rs az cs | ns | rt | to a | o | | u | cid | ];
    cbn [call]; try reflexivity.
  - unfold fundTreasury. cbn. by destruct (0 <? v).
  - unfold processReward. cbn.
    destruct (sender m =? rewardSigner s); [|reflexivity].
    destruct (negb (r =? 0)); [|reflexivity].
    destruct (0 <? a); [|reflexivity].
    replace (is_claimed (set_rewardPerHeartbeat rate s) cid)
      with (is_claimed s cid) by reflexivity.
    destruct (is_claimed s cid); [reflexivity|].
    destruct (a <=? balance s); [|reflexivity].
    cbn. apply settle_rate.
  - unfold batchProcessRewards.
    replace (rewardSigner (set_rewardPerHeartbeat rate s))
      with (rewardSigner s) by reflexivity.
    replace (balance (set_rewardPerHeartbeat rate s))
      with (balance s) by reflexivity.
    destruct (sender m =? rewardSigner s); [|reflexivity].
    destruct (_ && _)%bool; [|reflexivity].
    destruct (Nat.ltb 0 (length rs)); [|reflexivity].
    destruct (Nat.leb (length rs) 100); [|reflexivity].
    destruct (sum_amounts az 0) as [t|]; [|reflexivity].
    cbn [require mbind result_bind rbind].
    destruct (t <=? balance s); [|reflexivity].
    apply batch_loop_rate.
  - unfold setRewardSigner. cbn.
    destruct (sender m =? owner s); [|reflexivity].
    by destruct (negb (ns =? 0)).
  - by destruct (Hc rt).
  - destruct s as [th bal ow sg tot cnt rt cl ue].
    unfold emergencyWithdraw, call_value. cbn.
    destruct (sender m =? ow); [|reflexivity].
    destruct (negb (to =? 0)); [|reflexivity].
    destruct (a <=? bal); [|reflexivity]. cbn.
    destruct (to =? th); [reflexivity|]. by destruct (accepts m to).
  - unfold transferOwnership. cbn.
    destruct (sender m =? owner s); [|reflexivity].
    by destruct (negb (o =? 0)).
Qed.

Lemma transact_rate m c s rate :
  is_ok (call m c (set_rewardPerHeartbeat rate s)) = is_ok (call m c s)
  /\ match call m c (set_rewardPerHeartbeat rate s) with
     | Ok _ => None
     | Err e => Some e
     end = match call m c s with Ok _ => None | Err e => Some e end
  /\ exists rate',
       transact m c (set_rewardPerHeartbeat rate s)
       = set_rewardPerHeartbeat rate' (transact m c s).
Proof.
  assert (Hcase : (exists r, c = CSetRewardRate r)
                  \/ forall r, c <> CSetRewardRate r)
    by (destruct c; first [by right | left; by eexists]).
  destruct Hcase as [[r ->]|Hc].
  - unfold transact. cbn. unfold setRewardRate. cbn.
    destruct (sender m =? owner s); cbn;
      [|split; [reflexivity | split; [reflexivity | by exists rate]]].
    destruct (0 <? r); cbn;
      [|split; [reflexivity | split; [reflexivity | by exists rate]]].
    split; [reflexivity | split; [reflexivity | by exists r]].
  - unfold transact. rewrite (call_rate m c s rate Hc).
    destruct (call m c s) as [[s' evs]|e]; cbn;
      (split; [reflexivity | split; [reflexivity | by exists rate]]).
Qed.

(** X14. The reward rate stored in the contract is bookkeeping only: it
    decides no payout and no permission.  Started from the same state
    under any other rate, every list of transactions commits and reverts
    the same calls, with the same revert reasons, settles the same
    amounts, consumes the same claim identifiers and ends in the same
    state, the stored rate apart. *)
Theorem reward_rate_decides_nothing :
  forall (tx : list (Msg * Call)) (s : State) (rate : N),
    outcomes tx (set_rewardPerHeartbeat rate s) = outcomes tx s
    /\ settled tx (set_rewardPerHeartbeat rate s) = settled tx s
    /\ consumed tx (set_rewardPerHeartbeat rate s) = consumed tx s
    /\ exists rate',
         run tx (set_rewardPerHeartbeat rate s)
         = set_rewardPerHeartbeat rate' (run tx s).
Proof.
  induction tx as [|[m c] rest IH]; intros s rate.
  - split; [reflexivity|]. split; [reflexivity|]. split; [reflexivity|].
    by exists rate.
  - destruct (transact_rate m c s rate) as (Hok & Hout & rate' & Ht).
    cbn [outcomes settled consumed run]. rewrite Hok, Hout, Ht.
    destruct (IH (transact m c s) rate') as (H0 & H1 & H2 & H3).
    by rewrite H0, H1, H2.
Qed.

(** * Reading the contract *)

Lemma be_fixed_length len n : length (be_fixed len n) = len.
Proof. induction len as [|k IH]; [reflexivity|]. cbn. by rewrite IH. Qed.

Lemma SetBytes_be_fixed_acc len : forall n acc,
  fold_left (fun acc b => 256 * acc + Byte.to_N b) (be_fixed len n) acc
  = acc * 256 ^ N.of_nat len + n mod 256 ^ N.of_nat len.
Proof.
  induction len as [|k IH]; intros n acc.
  - cbn. rewrite N.mod_1_r. lia.
  - cbn [be_fixed fold_left]. rewrite IH, byte_of_N_value.
    rewrite Nat2N.inj_succ, N.pow_succ_r'.
    rewrite (N.mul_comm 256 (256 ^ N.of_nat k)).
    rewrite (N.Div0.mod_mul_r n (256 ^ N.of_nat k) 256). lia.
Qed.

(** Reading back the [len]-byte encoding of a value that fits. *)
Lemma SetBytes_be_fixed len n :
  n < 256 ^ N.of_nat len -> SetBytes (be_fixed len n) = n.
Proof.
  intros H. unfold SetBytes. rewrite SetBytes_be_fixed_acc.
  rewrite N.mod_small by exact H. lia.
Qed.

Lemma word_at i n pre rest :
  length pre = (32 * i)%nat -> n <= MAX_UINT256 ->
  word i (pre ++ be_fixed 32 n ++ rest) = n.
Proof.
  intros Hpre H. unfold word.
  rewrite drop_app_length' by (symmetry; exact Hpre).
  rewrite take_app_length' by (symmetry; apply be_fixed_length).
  apply SetBytes_be_fixed. unfold MAX_UINT256 in H.
  change (256 ^ N.of_nat 32) with (2 ^ 256). lia.
Qed.

Lemma reachable_earnings s user :
  reachable s ->
  getUserEarnings s user <= totalRewardsDistributed s
  /\ totalRewardsDistributed s <= MAX_UINT256
  /\ totalClaimsProcessed s <= MAX_UINT256.
Proof.
  intros Hr.
  apply reachable_bounds_and_books in Hr as [(_ & _ & H3 & H4) [Hsum _]].
  split; [|by split].
  unfold getUserEarnings, earnings. rewrite Hsum.
  destruct (userTotalEarnings s !! user) as [v|] eqn:Hu; cbn; [|lia].
  by apply sum_earnings_lookup in Hu.
Qed.

(** X15. Reading a user's earnings through the client returns what the
    contract holds: for a deployed contract in any reachable state, a
    client configured with a contract and a well-formed address, the
    32-byte reply of the ledger to [getUserEarnings] is decoded to the
    user's recorded earnings, with exactly one request made; a malformed
    address is refused before any request. *)
Theorem GetUserEarnings_reads_contract :
  forall (s : State) (c : Client) (address : string),
    reachable s ->
    contractAddress c <> 0 ->
    (IsHexAddress address = true ->
     GetUserEarnings c address true
       (Some (eth_call s (QGetUserEarnings (HexToAddress address))))
     = (Ok (getUserEarnings s (HexToAddress address)),
        [RCallContract (contractAddress c)
           (QGetUserEarnings (HexToAddress address))]))
    /\ (IsHexAddress address = false ->
        forall packs reply,
          GetUserEarnings c address packs reply
          = (Err InvalidAddressFormat, [])).
Proof.
  intros s c address Hr Hc. apply N.eqb_neq in Hc.
  unfold GetUserEarnings. rewrite Hc.
  split; intros Hhex; rewrite Hhex; cbn [negb]; [|reflexivity].
  cbn [eth_call]. rewrite be_fixed_length.
  change (Nat.ltb 32 32) with false. cbn iota.
  destruct (reachable_earnings s (HexToAddress address) Hr) as (H1 & H2 & _).
  pose proof (word_at 0 (getUserEarnings s (HexToAddress address)) [] []) as Hw.
  cbn [app] in Hw. rewrite app_nil_r in Hw. rewrite Hw; [reflexivity..|lia].
Qed.

Lemma GetUserEarnings_reads_contract_witness :
  let s := run [(by_signer, CProcessReward (HexToAddress alice) 1000 7)]
             deployed in
  let c := mkClient 100 7 None in
  reachable s
  /\ contractAddress c <> 0
  /\ (IsHexAddress alice = true ->
      GetUserEarnings c alice true
        (Some (eth_call s (QGetUserEarnings (HexToAddress alice))))
      = (Ok (getUserEarnings s (HexToAddress alice)),
         [RCallContract (contractAddress c)
            (QGetUserEarnings (HexToAddress alice))]))
  /\ (IsHexAddress alice = false ->
      forall packs reply,
        GetUserEarnings c alice packs reply = (Err InvalidAddressFormat, [])).
Proof.
  intros s c.
  assert (Hr : reachable s).
  { apply (reachable_call by_signer
             (CProcessReward (HexToAddress alice) 1000 7) deployed).
    by apply (reachable_deploy by_owner 10000 100 2 deployed
                [TreasuryFunded 1 10000 10000]). }
  assert (Hc : contractAddress c <> 0) by discriminate.
  split; [exact Hr|]. split; [exact Hc|].
  exact (GetUserEarnings_reads_contract s c alice Hr Hc).
Defined.

Lemma Int64_small n : n < 2 ^ 63 -> Int64 n = Z.of_N n.
Proof.
  intros H. unfold Int64. rewrite N.mod_small by lia.
  destruct (Z.ltb_spec (Z.of_N n) (2 ^ 63)); lia.
Qed.

Lemma Int64_large n : 2 ^ 63 <= n < 2 ^ 64 -> (Int64 n < 0)%Z.
Proof.
  intros H. unfold Int64. rewrite N.mod_small by lia.
  destruct (Z.ltb_spec (Z.of_N n) (2 ^ 63)); lia.
Qed.

(** X16. Reading the statistics through the client returns what the
    contract holds: the reply of the ledger to [getStats] for a reachable
    state is decoded to the contract's balance, distributed total and
    reward rate, with one request made.  The number of claims goes
    through a signed 64-bit integer: it is the contract's count below
    2^63, and negative for a count from 2^63 up to 2^64. *)
Theorem GetContractStats_reads_contract :
  forall (s : State) (c : Client) (signerAddress : N) (rewardWei : Z)
         (signerBalance : option Z) (balanceResult : option (list byte)),
    reachable s ->
    contractAddress c <> 0 ->
    balance s <= MAX_UINT256 ->
    rewardPerHeartbeat s <= MAX_UINT256 ->
    exists stats,
      GetContractStats c signerAddress rewardWei true signerBalance
        (Some (eth_call s QGetStats)) balanceResult
      = (Ok stats, [RCallContract (contractAddress c) QGetStats])
      /\ cs_Balance stats = Some (Z.of_N (getTreasuryBalance s))
      /\ cs_TotalDistributed stats = Z.of_N (totalRewardsDistributed s)
      /\ cs_RewardRate stats = Z.of_N (rewardPerHeartbeat s)
      /\ cs_TotalClaims stats = Int64 (totalClaimsProcessed s)
      /\ (totalClaimsProcessed s < 2 ^ 63 ->
          cs_TotalClaims stats = Z.of_N (totalClaimsProcessed s))
      /\ (2 ^ 63 <= totalClaimsProcessed s < 2 ^ 64 ->
          (cs_TotalClaims stats < 0)%Z).
Proof.
  intros s c signer reward sb br Hr Hc Hbal Hrate. apply N.eqb_neq in Hc.
  destruct (reachable_earnings s 0 Hr) as (_ & Htot & Hcnt).
  unfold GetContractStats, Unpack_getStats. rewrite Hc. cbn [negb].
  cbn [eth_call getStats].
  set (A := be_fixed 32 (balance s)).
  set (B := be_fixed 32 (totalRewardsDistributed s)).
  set (C := be_fixed 32 (totalClaimsProcessed s)).
  set (D := be_fixed 32 (rewardPerHeartbeat s)).
  assert (Hlen : length (A ++ B ++ C ++ D) = 128%nat)
    by (rewrite !length_app; unfold A, B, C, D;
        by rewrite !be_fixed_length).
  rewrite Hlen. cbn [Nat.ltb Nat.leb].
  assert (H0 : word 0 (A ++ B ++ C ++ D) = balance s)
    by (apply (word_at 0 _ []); [reflexivity | exact Hbal]).
  assert (H1 : word 1 (A ++ B ++ C ++ D) = totalRewardsDistributed s)
    by (apply (word_at 1 _ A); [apply be_fixed_length | exact Htot]).
  assert (H2 : word 2 (A ++ B ++ C ++ D) = totalClaimsProcessed s).
  { rewrite (app_assoc A B). apply (word_at 2 _ (A ++ B));
      [|exact Hcnt].
    rewrite length_app. unfold A, B. by rewrite !be_fixed_length. }
  assert (H3 : word 3 (A ++ B ++ C ++ D) = rewardPerHeartbeat s).
  { rewrite (app_assoc B C), (app_assoc A (B ++ C)).
    rewrite <- (app_nil_r D). apply (word_at 3 _ (A ++ B ++ C));
      [|exact Hrate].
    rewrite !length_app. unfold A, B, C. by rewrite !be_fixed_length. }
  destruct (Nat.ltb_spec 128 128) as [Hlt|_]; [lia|].
  rewrite H0, H1, H2, H3.
  eexists. split; [reflexivity|]. cbn.
  repeat split; [apply Int64_small | apply Int64_large].
Qed.

Lemma GetContractStats_reads_contract_witness :
  let s := run [(by_signer, CProcessReward (HexToAddress alice) 1000 7)]
             deployed in
  let c := mkClient 100 7 None in
  reachable s
  /\ contractAddress c <> 0
  /\ balance s <= MAX_UINT256
  /\ rewardPerHeartbeat s <= MAX_UINT256
  /\ exists stats,
      GetContractStats c 2 1000 true None (Some (eth_call s QGetStats)) None
      = (Ok stats, [RCallContract (contractAddress c) QGetStats])
      /\ cs_Balance stats = Some (Z.of_N (getTreasuryBalance s))
      /\ cs_TotalDistributed stats = Z.of_N (totalRewardsDistributed s)
      /\ cs_RewardRate stats = Z.of_N (rewardPerHeartbeat s)
      /\ cs_TotalClaims stats = Int64 (totalClaimsProcessed s)
      /\ (totalClaimsProcessed s < 2 ^ 63 ->
          cs_TotalClaims stats = Z.of_N (totalClaimsProcessed s))
      /\ (2 ^ 63 <= totalClaimsProcessed s < 2 ^ 64 ->
          (cs_TotalClaims stats < 0)%Z).
Proof.
  intros s c.
  assert (Hr : reachable s).
  { apply (reachable_call by_signer
             (CProcessReward (HexToAddress alice) 1000 7) deployed).
    by apply (reachable_deploy by_owner 10000 100 2 deployed
                [TreasuryFunded 1 10000 10000]). }
  assert (Hc : contractAddress c <> 0) by discriminate.
  assert (Hb : balance s <= MAX_UINT256) by (vm_compute; discriminate).
  assert (Hrt : rewardPerHeartbeat s <= MAX_UINT256)
    by (vm_compute; discriminate).
  split; [exact Hr|]. split; [exact Hc|]. split; [exact Hb|].
  split; [exact Hrt|].
  exact (GetContractStats_reads_contract s c 2 1000 None None Hr Hc Hb Hrt).
Defined.

(** What the polling loop has done when it ends. *)
Lemma poll_spec {Receipt} (receipts : nat -> option Receipt) left :
  forall i r requests slept,
    poll Receipt receipts i left = (r, requests, slept) ->
    match r with
    | Some receipt =>
        (i <= slept < i + left)%nat
        /\ receipts slept = Some receipt
        /\ (forall j, (i <= j < slept)%nat -> receipts j = None)
        /\ requests = S slept
    | None =>
        (forall j, (i <= j < i + left)%nat -> receipts j = None)
        /\ requests = (i + left)%nat /\ slept = (i + left)%nat
    end.
Proof.
  induction left as [|left IH]; intros i r requests slept H; cbn in H.
  - injection H as <- <- <-. split; [intros; lia | lia].
  - destruct (receipts i) as [receipt|] eqn:Hi.
    + injection H as <- <- <-.
      split; [lia|]. split; [exact Hi|]. split; [intros; lia | reflexivity].
    + apply IH in H. destruct r as [receipt|].
      * destruct H as (H1 & H2 & H3 & H4).
        split; [lia|]. split; [exact H2|]. split; [|exact H4].
        intros j Hj. destruct (decide (j = i)) as [->|Hne]; [exact Hi|].
        apply H3. lia.
      * destruct H as (H1 & H2 & H3).
        split; [|lia]. intros j Hj.
        destruct (decide (j = i)) as [->|Hne]; [exact Hi|]. apply H1. lia.
Qed.

(** X17. [WaitForTransaction] gives back the receipt of [WaitMined] when
    there is one, without asking further.  Otherwise it asks for the
    receipt at most thirty times, one second apart: it returns the first
    receipt it is given, having slept one second for each request
    before, and it times out after thirty requests and thirty seconds
    exactly when none of them is answered. *)
Theorem WaitForTransaction_returns_first_receipt :
  forall (Receipt : Type) (waitMined : option Receipt)
         (receipts : nat -> option Receipt),
    exists r requests slept,
      WaitForTransaction Receipt waitMined receipts = (r, requests, slept)
      /\ (requests <= 30)%nat /\ (slept <= 30)%nat
      /\ match waitMined, r with
         | Some receipt, _ => r = Some receipt /\ requests = 0%nat
         | None, Some receipt =>
             (slept < 30)%nat
             /\ receipts slept = Some receipt
             /\ (forall j, (j < slept)%nat -> receipts j = None)
             /\ requests = S slept
         | None, None =>
             (forall j, (j < 30)%nat -> receipts j = None)
             /\ requests = 30%nat /\ slept = 30%nat
         end.
Proof.
  intros Receipt waitMined receipts. unfold WaitForTransaction.
  destruct waitMined as [receipt|].
  - exists (Some receipt), 0%nat, 0%nat. repeat split; lia.
  - destruct (poll Receipt receipts 0 30) as [[r requests] slept] eqn:H.
    exists r, requests, slept. split; [reflexivity|].
    apply poll_spec in H. destruct r as [receipt|].
    + destruct H as (H1 & H2 & H3 & H4).
      repeat split; try lia; try assumption. intros j Hj. apply H3. lia.
    + destruct H as (H1 & H2 & H3).
      repeat split; try lia. intros j Hj. apply H1. lia.
Qed.

(** * Further properties of the server *)

(** ** Block monitor *)

Lemma monitor_loop_spec polls : forall m,
  exists new,
    blockUpdates (monitor_loop polls m) = blockUpdates m ++ new
    /\ Sorted N.lt (lastBlock m :: map Number new)
    /\ lastBlock (monitor_loop polls m)
       = default (lastBlock m) (last (map Number new))
    /\ (forall b, Some b ∈ polls -> Number b <= lastBlock (monitor_loop polls m))
    /\ (forall b, b ∈ new -> Some b ∈ polls)
    /\ TotalHeartbeats (monitorStats (monitor_loop polls m))
       = TotalHeartbeats (monitorStats m)
    /\ TotalRewards (monitorStats (monitor_loop polls m))
       = TotalRewards (monitorStats m)
    /\ BlockHeight (monitorStats (monitor_loop polls m))
       = match new with
         | [] => BlockHeight (monitorStats m)
         | _ => lastBlock (monitor_loop polls m)
         end.
Proof.
  induction polls as [|poll polls IH]; intros m.
  - exists []. rewrite app_nil_r. split; [reflexivity|].
    split; [cbn; by repeat constructor|]. split; [reflexivity|].
    split; [intros b Hb; by apply elem_of_nil in Hb|].
    split; [intros b Hb; by apply elem_of_nil in Hb|].
    by repeat split.
  - cbn [monitor_loop fold_left]. fold (monitor_loop polls (tick poll m)).
    destruct (IH (tick poll m))
      as (new & Hup & Hs & Hl & Hle & Hin & Hh & Hr & Hb).
    assert (Hmono : lastBlock (tick poll m)
                    <= lastBlock (monitor_loop polls (tick poll m))).
    { rewrite Hl. clear -Hs. apply Sorted_StronglySorted in Hs;
        [|intros ???; apply N.lt_trans].
      apply StronglySorted_inv in Hs as [_ Hall].
      destruct (last (map Number new)) as [h|] eqn:Hlast; cbn; [|lia].
      rewrite Forall_forall in Hall. apply N.lt_le_incl, Hall.
      apply last_Some in Hlast as [l' ->].
      apply elem_of_app. right. by apply list_elem_of_singleton. }
    destruct poll as [block|]; cbn [tick] in *.
    + destruct (lastBlock m <? Number block) eqn:Hlt; cbn in *.
      * apply N.ltb_lt in Hlt. exists (block :: new).
        rewrite Hup, <- app_assoc. split; [reflexivity|].
        split. { cbn [map]. constructor; [exact Hs|]. constructor. exact Hlt. }
        split. { rewrite Hl. cbn [map]. rewrite last_cons.
                 by destruct (last (map Number new)). }
        split. { intros b Hb'. apply elem_of_cons in Hb' as [[= ->]|Hb'];
                   [exact Hmono | by apply Hle]. }
        split. { intros b Hb'. apply elem_of_cons in Hb' as [->|Hb'];
                   [by left | right; by apply Hin]. }
        split; [exact Hh|]. split; [exact Hr|].
        destruct new as [|b' new']; [|exact Hb].
        cbn in Hl. by rewrite Hb, Hl.
      * apply N.ltb_ge in Hlt. exists new.
        split; [exact Hup|]. split; [exact Hs|]. split; [exact Hl|].
        split. { intros b Hb'. apply elem_of_cons in Hb' as [[= ->]|Hb'];
                   [lia | by apply Hle]. }
        split. { intros b Hb'. right. by apply Hin. }
        by repeat split.
    + exists new. split; [exact Hup|]. split; [exact Hs|]. split; [exact Hl|].
      split. { intros b Hb'. apply elem_of_cons in Hb' as [[=]|Hb'].
               by apply Hle. }
      split. { intros b Hb'. right. by apply Hin. }
      by repeat split.
Qed.

(** X18. Whatever the polls return, the heights the block monitor
    publishes are strictly increasing and above the height it last saw at
    the start: no block is published twice and none below one already
    published.  What it publishes are polled blocks; its last height ends
    at the last published height, at least as high as every polled block;
    the heartbeat and reward statistics are left alone, and the block
    height of the statistics is that last height once a block has been
    published. *)
Theorem published_heights_strictly_increase :
  forall (polls : list (option BlockInfo)) (m : Monitor),
    exists new,
      blockUpdates (monitor_loop polls m) = blockUpdates m ++ new
      /\ StronglySorted N.lt (lastBlock m :: map Number new)
      /\ lastBlock (monitor_loop polls m)
         = default (lastBlock m) (last (map Number new))
      /\ (forall b, Some b ∈ polls ->
                    Number b <= lastBlock (monitor_loop polls m))
      /\ (forall b, b ∈ new -> Some b ∈ polls)
      /\ TotalHeartbeats (monitorStats (monitor_loop polls m))
         = TotalHeartbeats (monitorStats m)
      /\ TotalRewards (monitorStats (monitor_loop polls m))
         = TotalRewards (monitorStats m)
      /\ BlockHeight (monitorStats (monitor_loop polls m))
         = match new with
           | [] => BlockHeight (monitorStats m)
           | _ => lastBlock (monitor_loop polls m)
           end.
Proof.
  intros polls m.
  destruct (monitor_loop_spec polls m) as (new & H1 & H2 & H3).
  exists new. split; [exact H1|]. split; [|exact H3].
  apply Sorted_StronglySorted; [|exact H2]. intros ???. apply N.lt_trans.
Qed.

(** ** The socket loop *)

Lemma GetBalance_frame g addr bal w b w1 :
  GetBalance g addr bal w = (b, w1) ->
  client w1 = client w /\ submitted w1 = submitted w.
Proof.
  unfold GetBalance. destruct (negb (IsHexAddress addr)); intros [= <- <-];
    by split.
Qed.

Lemma rewardReply_shape session rewardWei r bal :
  is_reward (rewardReply session rewardWei r bal) = true
  /\ is_success (rewardReply session rewardWei r bal) = is_ok r
  /\ is_failure (rewardReply session rewardWei r bal) = negb (is_ok r)
  /\ rewardReply session rewardWei r bal !! "reward_wei"%string
     = Some (VInt rewardWei).
Proof.
  assert (Ht : rewardReply session rewardWei r bal !! "type"%string
               = Some (VString "reward"))
    by (unfold rewardReply; destruct r, bal; by simplify_map_eq).
  assert (Hs : rewardReply session rewardWei r bal !! "success"%string
               = Some (VBool (is_ok r)))
    by (unfold rewardReply; destruct r, bal; by simplify_map_eq).
  assert (Hr : is_reward (rewardReply session rewardWei r bal) = true)
    by (unfold is_reward; by rewrite Ht).
  unfold is_success, is_failure. rewrite Hs, Hr.
  repeat split. unfold rewardReply. destruct r, bal; by simplify_map_eq.
Qed.

Lemma successes_app out1 out2 :
  successes (out1 ++ out2) = (successes out1 + successes out2)%nat.
Proof. unfold successes. by rewrite List.filter_app, length_app. Qed.

Lemma failures_app out1 out2 :
  failures (out1 ++ out2) = (failures out1 + failures out2)%nat.
Proof. unfold failures. by rewrite List.filter_app, length_app. Qed.

(** One message read from a socket, with no other goroutine inside the
    reward call. *)
Lemma handleWSMessage_alone K config g msg ans bal session s :
  nonceMux (client (blockchain s)) = None ->
  if short_register msg then
    handleWSMessage K config g msg ans bal session s = WSPanic
  else
    exists session' out s',
      handleWSMessage K config g msg ans bal session s
      = WSContinue session' out s'
      /\ nonceMux (client (blockchain s')) = None
      /\ stats s' = stats s
      /\ TotalEarned session'
         = (TotalEarned session
            + RewardPerHeartbeat config * Z.of_nat (successes out))%Z
      /\ length (submitted (blockchain s'))
         = (length (submitted (blockchain s)) + successes out)%nat
      /\ Forall (loop_reply config) out.
Proof.
  intros Hmux.
  assert (Hnone : forall session0 s0,
            nonceMux (client (blockchain s0)) = None ->
            exists session' out s',
              WSContinue session0 [] s0 = WSContinue session' out s'
              /\ nonceMux (client (blockchain s')) = None
              /\ stats s' = stats s0
              /\ TotalEarned session'
                 = (TotalEarned session0
                    + RewardPerHeartbeat config * Z.of_nat (successes out))%Z
              /\ length (submitted (blockchain s'))
                 = (length (submitted (blockchain s0)) + successes out)%nat
              /\ Forall (loop_reply config) out).
  { intros session0 s0 H0. exists session0, [], s0.
    unfold successes. cbn. repeat split; try done; lia. }
  destruct msg as [[addr|]| | |]; cbn [short_register handleWSMessage].
  - destruct (Nat.ltb (String.length addr) 10); [reflexivity|].
    destruct (Hnone (mkClientSession addr (Heartbeats session)
                       (TotalEarned session)) s Hmux)
      as (session' & out & s' & H). by exists session', out, s'.
  - by apply Hnone.
  - destruct (String.eqb (WalletAddress session) ""); [by apply Hnone|].
    cbn [WalletAddress Heartbeats TotalEarned].
    destruct (ProcessReward_alone K g
                (mkAttempt (WalletAddress session) (RewardPerHeartbeat config)
                   ans) (blockchain s) Hmux) as (r & w & -> & Hm & _ & Hr).
    destruct r as [tx|e].
    + destruct Hr as (_ & Hsub & _).
      destruct (GetBalance g (WalletAddress session) bal w) as [b w1] eqn:Hb.
      apply GetBalance_frame in Hb as [Hc Hs].
      eexists _, _, _. split; [reflexivity|].
      cbn [blockchain stats TotalEarned].
      match goal with
      | |- context [successes [?reply]] =>
          assert (Hshape : loop_reply config reply
                           /\ successes [reply] = 1%nat)
      end.
      { match goal with
        | |- loop_reply _ (rewardReply ?a ?b ?c ?d) /\ _ =>
            destruct (rewardReply_shape a b c d) as (H1 & H2 & H3 & H4)
        end.
        split; [right; by rewrite H1, H2, H3, H4|].
        unfold successes. cbn [List.filter]. by rewrite H2. }
      destruct Hshape as [Hshape ->].
      rewrite Hc, Hs, Hsub, length_app. cbn.
      repeat split; try done; try lia. by constructor.
    + destruct Hr as (Hsub & _).
      eexists _, _, _. split; [reflexivity|].
      cbn [blockchain stats TotalEarned].
      match goal with
      | |- context [successes [?reply]] =>
          assert (Hshape : loop_reply config reply
                           /\ successes [reply] = 0%nat)
      end.
      { match goal with
        | |- loop_reply _ (rewardReply ?a ?b ?c ?d) /\ _ =>
            destruct (rewardReply_shape a b c d) as (H1 & H2 & H3 & H4)
        end.
        split; [right; by rewrite H1, H2, H3, H4|].
        unfold successes. cbn [List.filter]. by rewrite H2. }
      destruct Hshape as [Hshape ->].
      rewrite Hsub. repeat split; try done; try lia. by constructor.
  - exists session, [<["type"%string := VString "pong"]> ∅], s.
    split; [reflexivity|].
    assert (Hp : successes [<["type"%string := VString "pong"]> ∅] = 0%nat)
      by (vm_compute; reflexivity).
    rewrite Hp. repeat split; try done; try lia.
    constructor; [|constructor]. left. by vm_compute.
  - by apply Hnone.
Qed.

(** The socket loop with no other goroutine inside the reward call, from
    any replies already written. *)
Lemma handleWSMessages_alone K config g msgs :
  forall session written s session' written' s',
    nonceMux (client (blockchain s)) = None ->
    handleWSMessages K config g msgs session written s
    = WSContinue session' written' s' ->
    exists out,
      written' = written ++ out
      /\ Forall (loop_reply config) out
      /\ TotalEarned session'
         = (TotalEarned session
            + RewardPerHeartbeat config * Z.of_nat (successes out))%Z
      /\ length (submitted (blockchain s'))
         = (length (submitted (blockchain s)) + successes out)%nat
      /\ stats s' = stats s
      /\ nonceMux (client (blockchain s')) = None.
Proof.
  induction msgs as [|[[msg ans] bal] rest IH];
    intros session written s session' written' s' Hmux H.
  - injection H as <- <- <-. exists []. rewrite app_nil_r.
    unfold successes. cbn. repeat split; try done; lia.
  - cbn [handleWSMessages] in H.
    pose proof (handleWSMessage_alone K config g msg ans bal session s Hmux)
      as H1.
    destruct (short_register msg); [by rewrite H1 in H|].
    destruct H1 as (session1 & out1 & s1 & Heq & Hm1 & Hst1 & Hte1 & Hsub1 & Hf1).
    rewrite Heq in H.
    destruct (IH _ _ _ _ _ _ Hm1 H)
      as (out & -> & Hf & Hte & Hsub & Hst & Hm).
    exists (out1 ++ out). rewrite app_assoc. split; [reflexivity|].
    split; [by apply Forall_app|]. rewrite successes_app.
    split; [lia|]. split; [lia|]. split; [congruence | exact Hm].
Qed.

(** X19. The socket loop, with no other goroutine inside the reward
    call, keeps the session's earnings in step with the ledger: when it
    has handled the messages read, what it has written are answers to
    pings and reward replies carrying the configured reward; the
    session's [TotalEarned] has grown by the reward once for each reply
    that reports success, the ledger has accepted exactly that many more
    transactions, and the server's own statistics are as before. *)
Theorem socket_loop_accounting :
  forall (Keccak256 : list byte -> list byte) (config : Config) (g : nat)
         (msgs : list (WSMessage * Answers * option Z))
         (session : ClientSession) (written : list (gmap string Value))
         (s : ServerState) (session' : ClientSession)
         (written' : list (gmap string Value)) (s' : ServerState),
    nonceMux (client (blockchain s)) = None ->
    handleWSMessages Keccak256 config g msgs session written s
    = WSContinue session' written' s' ->
    exists out,
      written' = written ++ out
      /\ Forall (loop_reply config) out
      /\ TotalEarned session'
         = (TotalEarned session
            + RewardPerHeartbeat config * Z.of_nat (successes out))%Z
      /\ length (submitted (blockchain s'))
         = (length (submitted (blockchain s)) + successes out)%nat
      /\ stats s' = stats s
      /\ nonceMux (client (blockchain s')) = None.
Proof.
  intros K config g msgs session written s session' written' s' Hmux H.
  exact (handleWSMessages_alone K config g msgs _ _ _ _ _ _ Hmux H).
Qed.

Lemma socket_loop_accounting_witness :
  let msgs := [(MsgPing, all_ok, None);
               (MsgHeartbeat, all_ok, Some 5000%Z);
               (MsgHeartbeat, send_fails, None)] in
  nonceMux (client (blockchain idle_server)) = None
  /\ exists session' written' s',
      handleWSMessages last32 default_config 1 msgs registered [] idle_server
      = WSContinue session' written' s'
      /\ exists out,
          written' = [] ++ out
          /\ Forall (loop_reply default_config) out
          /\ TotalEarned session'
             = (TotalEarned registered
                + RewardPerHeartbeat default_config
                  * Z.of_nat (successes out))%Z
          /\ length (submitted (blockchain s'))
             = (length (submitted (blockchain idle_server))
                + successes out)%nat
          /\ stats s' = stats idle_server
          /\ nonceMux (client (blockchain s')) = None.
Proof.
  intros msgs. split; [reflexivity|].
  eexists _, _, _. split; [vm_compute; reflexivity|].
  apply (socket_loop_accounting last32 default_config 1 msgs registered []
           idle_server); [reflexivity | vm_compute; reflexivity].
Defined.

(** X20. The socket loop panics exactly when a [register] message
    carries an address shorter than ten bytes, the empty one included:
    line 494 slices ten bytes off the address it has just stored.  With
    no other goroutine inside the reward call the loop never waits. *)
Theorem socket_loop_panics_iff_short_register :
  forall (Keccak256 : list byte -> list byte) (config : Config) (g : nat)
         (msgs : list (WSMessage * Answers * option Z))
         (session : ClientSession) (written : list (gmap string Value))
         (s : ServerState),
    nonceMux (client (blockchain s)) = None ->
    (handleWSMessages Keccak256 config g msgs session written s = WSPanic
     <-> Exists (fun m => short_register (fst (fst m)) = true) msgs)
    /\ handleWSMessages Keccak256 config g msgs session written s
       <> WSBlocked.
Proof.
  intros K config g msgs.
  induction msgs as [|[[msg ans] bal] rest IH]; intros session written s Hmux.
  - cbn. split; [|discriminate]. split; [discriminate|].
    intros H. by apply Exists_nil in H.
  - cbn [handleWSMessages].
    pose proof (handleWSMessage_alone K config g msg ans bal session s Hmux)
      as H1.
    destruct (short_register msg) eqn:Hshort.
    + rewrite H1. split; [|discriminate]. split; [|reflexivity].
      intros _. by left.
    + destruct H1 as (session1 & out1 & s1 & -> & Hm1 & _).
      destruct (IH session1 (written ++ out1) s1 Hm1) as [Hiff Hnb].
      split; [|exact Hnb]. rewrite Hiff. rewrite Exists_cons. cbn.
      rewrite Hshort. split; [by right | intros [?|?]; [discriminate | done]].
Qed.

Lemma socket_loop_panics_iff_short_register_witness :
  let msgs := [(MsgPing, all_ok, None);
               (MsgRegister (Some "0x1234"%string), all_ok, None)] in
  nonceMux (client (blockchain idle_server)) = None
  /\ (handleWSMessages last32 default_config 1 msgs unregistered []
        idle_server = WSPanic
      <-> Exists (fun m => short_register (fst (fst m)) = true) msgs)
  /\ handleWSMessages last32 default_config 1 msgs unregistered []
       idle_server <> WSBlocked.
Proof.
  intros msgs. split; [reflexivity|].
  exact (socket_loop_panics_iff_short_register last32 default_config 1 msgs
           unregistered [] idle_server eq_refl).
Defined.

(** ** Heartbeats over HTTP *)

(** A call that returns success has submitted the transaction it
    reports, and that transaction pays what the call was asked to pay. *)
Lemma ProcessReward_ok_pays K g a w tx w' :
  ProcessReward K g a w = (Some (Ok tx), w') ->
  pays tx = (HexToAddress (recipient a), amount a)
  /\ submitted w' = submitted w ++ [tx]
  /\ nonceMux (client w') = None.
Proof.
  destruct a as [rcp amt [t pk gp eg sg sd why]], w as [[ca n mux] sub tr].
  unfold ProcessReward. cbn. unfold lock. cbn.
  destruct (ca =? 0), (IsHexAddress rcp), pk, gp as [gp|], mux as [h|],
    eg as [gl|], sg, sd; cbn; intros H; try discriminate H.
  all: injection H as <- <-; by repeat split.
Qed.

(** X21. A heartbeat over HTTP that carries a wallet is answered with
    the configured reward and the outcome of one reward call.  When the
    answer reports success, the ledger has accepted exactly one more
    transaction, the one named in the answer, and it pays the wallet of
    the request the configured reward; the heartbeat and reward
    statistics have grown by one and by the reward.  When it reports
    failure, the ledger and the statistics are as before and the answer
    names no transaction. *)
Theorem heartbeat_success_pays_the_wallet :
  forall (Keccak256 : list byte -> list byte) (config : Config) (g : nat)
         (req : HeartbeatRequest) (ans : Answers) (bal : option Z)
         (s : ServerState),
    nonceMux (client (blockchain s)) = None ->
    req_WalletAddress req <> ""%string ->
    exists resp s',
      handleHeartbeat Keccak256 config g (Some req) ans bal s
      = (Some (HttpJSON resp), s')
      /\ RewardWei resp = RewardPerHeartbeat config
      /\ nonceMux (client (blockchain s')) = None
      /\ if Success resp then
           exists tx,
             TxHash resp = Some tx
             /\ pays tx = (HexToAddress (req_WalletAddress req),
                           RewardPerHeartbeat config)
             /\ submitted (blockchain s') = submitted (blockchain s) ++ [tx]
             /\ TotalHeartbeats (stats s')
                = inc_int64 (TotalHeartbeats (stats s))
             /\ TotalRewards (stats s')
                = (TotalRewards (stats s) + RewardPerHeartbeat config)%Z
         else
           TxHash resp = None
           /\ NewBalance resp = None
           /\ submitted (blockchain s') = submitted (blockchain s)
           /\ stats s' = stats s.
Proof.
  intros K config g req ans bal s Hmux Hwallet.
  apply String.eqb_neq in Hwallet.
  unfold handleHeartbeat. rewrite Hwallet.
  destruct (ProcessReward_alone K g
              (mkAttempt (req_WalletAddress req) (RewardPerHeartbeat config)
                 ans) (blockchain s) Hmux) as (r & w & Hrun & Hm & _ & Hr).
  rewrite Hrun. destruct r as [tx|e].
  - apply ProcessReward_ok_pays in Hrun as (Hpays & Hsub & _).
    destruct (GetBalance g (req_WalletAddress req) bal w) as [b w1] eqn:Hb.
    apply GetBalance_frame in Hb as [Hc Hs].
    eexists _, _. split; [reflexivity|]. cbn. rewrite Hc, Hs.
    split; [reflexivity|]. split; [exact Hm|].
    exists tx. by repeat split.
  - destruct Hr as (Hsub & _).
    eexists _, _. split; [reflexivity|]. cbn. by repeat split.
Qed.

Lemma heartbeat_success_pays_the_wallet_witness :
  let req := mkHeartbeatRequest alice "ad-1" 5000 in
  nonceMux (client (blockchain idle_server)) = None
  /\ req_WalletAddress req <> ""%string
  /\ exists resp s',
      handleHeartbeat last32 default_config 1 (Some req) all_ok
        (Some 5000%Z) idle_server
      = (Some (HttpJSON resp), s')
      /\ RewardWei resp = RewardPerHeartbeat default_config
      /\ nonceMux (client (blockchain s')) = None
      /\ if Success resp then
           exists tx,
             TxHash resp = Some tx
             /\ pays tx = (HexToAddress (req_WalletAddress req),
                           RewardPerHeartbeat default_config)
             /\ submitted (blockchain s')
                = submitted (blockchain idle_server) ++ [tx]
             /\ TotalHeartbeats (stats s')
                = inc_int64 (TotalHeartbeats (stats idle_server))
             /\ TotalRewards (stats s')
                = (TotalRewards (stats idle_server)
                   + RewardPerHeartbeat default_config)%Z
         else
           TxHash resp = None
           /\ NewBalance resp = None
           /\ submitted (blockchain s') = submitted (blockchain idle_server)
           /\ stats s' = stats idle_server.
Proof.
  intros req.
  assert (Hw : req_WalletAddress req <> ""%string) by discriminate.
  split; [reflexivity|]. split; [exact Hw|].
  exact (heartbeat_success_pays_the_wallet last32 default_config 1 req all_ok
           (Some 5000%Z) idle_server eq_refl Hw).
Defined.

(** * The frontend and the socket loop *)

(** What the frontend makes of the replies of the socket loop. *)
Lemma onmessage_loop_replies config out : forall app,
  Forall (loop_reply config) out ->
  exists app',
    ChainPayApp.onmessage out app = Some app'
    /\ ChainPayApp.sessionEarnings app'
       = (ChainPayApp.sessionEarnings app
          + RewardPerHeartbeat config
            * Z.of_nat (successes out + failures out))%Z
    /\ (ChainPayApp.heartbeatCount app
        + N.of_nat (successes out + failures out) <= 2 ^ 53 ->
        ChainPayApp.heartbeatCount app'
        = ChainPayApp.heartbeatCount app
          + N.of_nat (successes out + failures out))
    /\ ((successes out + failures out = 0)%nat -> app' = app)
    /\ ((0 < successes out + failures out)%nat ->
        ChainPayApp.walletBalance app' = ChainPayApp.sessionEarnings app').
Proof.
  induction out as [|reply out IH]; intros app Hall.
  - exists app. unfold successes, failures. cbn.
    split; [reflexivity|]. split; [lia|]. split; [lia|].
    split; [reflexivity | lia].
  - apply Forall_cons in Hall as [Hreply Hall].
    change (reply :: out) with ([reply] ++ out).
    rewrite successes_app, failures_app.
    cbn [List.app ChainPayApp.onmessage].
    unfold ChainPayApp.handleWebSocketMessage.
    destruct Hreply as [(Hr & Hs & Hf)|(Hr & Hw & Hsf)].
    + assert (Hsame : match reply !! "type"%string with
                      | Some (VString t) =>
                          if String.eqb t "reward"
                          then ChainPayApp.handleRewardMessage reply app
                          else Some app
                      | _ => Some app
                      end = Some app).
      { unfold is_reward in Hr.
        destruct (reply !! "type"%string) as [[t| | |]|]; try reflexivity.
        by rewrite Hr. }
      rewrite Hsame. cbn [mbind option_bind].
      destruct (IH app Hall) as (app' & -> & He & Hc & H0 & Hb).
      exists app'. split; [reflexivity|].
      unfold successes, failures in *. cbn [List.filter].
      rewrite Hs, Hf. cbn [length Nat.add]. by repeat split.
    + assert (Hsame : match reply !! "type"%string with
                      | Some (VString t) =>
                          if String.eqb t "reward"
                          then ChainPayApp.handleRewardMessage reply app
                          else Some app
                      | _ => Some app
                      end = ChainPayApp.handleRewardMessage reply app).
      { unfold is_reward in Hr.
        destruct (reply !! "type"%string) as [[t| | |]|]; try discriminate.
        by rewrite Hr. }
      rewrite Hsame. unfold ChainPayApp.handleRewardMessage at 1.
      unfold ChainPayApp.reward_of. rewrite Hw. cbn [mbind option_bind].
      set (app1 := ChainPayApp.mkApp _ _ _).
      destruct (IH app1 Hall) as (app' & -> & He & Hc & H0 & Hb).
      exists app'. split; [reflexivity|].
      assert (Hone : (successes [reply] + failures [reply] = 1)%nat).
      { unfold successes, failures. cbn [List.filter]. rewrite Hsf.
        by destruct (is_failure reply). }
      replace (successes [reply] + successes out
               + (failures [reply] + failures out))%nat
        with (S (successes out + failures out)) by lia.
      subst app1. cbn in He, Hc, Hb, H0.
      unfold ChainPayApp.increment in Hc, H0.
      split; [lia|]. split; [|split; [lia|]].
      * intros Hle.
        destruct (N.ltb_spec (ChainPayApp.heartbeatCount app) (2 ^ 53));
          [|lia].
        rewrite Hc by lia. lia.
      * intros _. destruct (decide (successes out + failures out = 0)%nat)
          as [Hz|Hpos]; [|apply Hb; lia].
        by rewrite (H0 Hz).
Qed.

(** X22. The frontend counts rewards the server did not pay.  For the
    replies that the socket loop writes to a client from the start of its
    session, the frontend adds the reward to its session earnings and
    counts a heartbeat for every reward reply, failed ones included,
    while the server's session adds it for the successful ones only: the
    frontend's earnings exceed the server's by the reward for each failed
    reply, and the wallet balance it displays is set to them. *)
Theorem frontend_counts_failed_rewards :
  forall (Keccak256 : list byte -> list byte) (config : Config) (g : nat)
         (msgs : list (WSMessage * Answers * option Z))
         (session : ClientSession) (s : ServerState)
         (session' : ClientSession) (written : list (gmap string Value))
         (s' : ServerState) (app : ChainPayApp.App),
    nonceMux (client (blockchain s)) = None ->
    handleWSMessages Keccak256 config g msgs session [] s
    = WSContinue session' written s' ->
    exists app',
      ChainPayApp.onmessage written app = Some app'
      /\ (ChainPayApp.sessionEarnings app' - ChainPayApp.sessionEarnings app
          = TotalEarned session' - TotalEarned session
            + RewardPerHeartbeat config * Z.of_nat (failures written))%Z
      /\ (ChainPayApp.heartbeatCount app
          + N.of_nat (successes written + failures written) <= 2 ^ 53 ->
          ChainPayApp.heartbeatCount app'
          = ChainPayApp.heartbeatCount app
            + N.of_nat (successes written + failures written))
      /\ ((0 < successes written + failures written)%nat ->
          ChainPayApp.walletBalance app' = ChainPayApp.sessionEarnings app').
Proof.
  intros K config g msgs session s session' written s' app Hmux H.
  destruct (handleWSMessages_alone K config g msgs _ _ _ _ _ _ Hmux H)
    as (out & Hw & Hall & Hte & _).
  cbn in Hw. subst out.
  destruct (onmessage_loop_replies config written app Hall)
    as (app' & Hrun & He & Hc & _ & Hb).
  exists app'. split; [exact Hrun|]. split; [|by split].
  rewrite He, Hte, Nat2Z.inj_add. lia.
Qed.

Lemma frontend_counts_failed_rewards_witness :
  let msgs := [(MsgHeartbeat, all_ok, Some 5000%Z);
               (MsgHeartbeat, send_fails, None)] in
  let app := ChainPayApp.mkApp 0 0 0 in
  nonceMux (client (blockchain idle_server)) = None
  /\ exists session' written s',
      handleWSMessages last32 default_config 1 msgs registered [] idle_server
      = WSContinue session' written s'
      /\ exists app',
          ChainPayApp.onmessage written app = Some app'
          /\ (ChainPayApp.sessionEarnings app'
              - ChainPayApp.sessionEarnings app
              = TotalEarned session' - TotalEarned registered
                + RewardPerHeartbeat default_config
                  * Z.of_nat (failures written))%Z
          /\ (ChainPayApp.heartbeatCount app
              + N.of_nat (successes written + failures written) <= 2 ^ 53 ->
              ChainPayApp.heartbeatCount app'
              = ChainPayApp.heartbeatCount app
                + N.of_nat (successes written + failures written))
          /\ ((0 < successes written + failures written)%nat ->
              ChainPayApp.walletBalance app'
              = ChainPayApp.sessionEarnings app').
Proof.
  intros msgs app. split; [reflexivity|].
  eexists _, _, _. split; [vm_compute; reflexivity|].
  eapply (frontend_counts_failed_rewards last32 default_config 1 msgs
            registered idle_server); [reflexivity | vm_compute; reflexivity].
Defined.

(** * The events account for the balance *)








(** * The counter under rollbacks *)

Lemma dec64_issued k m :
  dec64 ((k + N.of_nat (S m)) mod UINT64) = (k + N.of_nat m) mod UINT64.
Proof.
  unfold dec64.
  rewrite <- N.add_sub_assoc by (unfold UINT64; lia).
  rewrite N.Div0.add_mod_idemp_l.
  replace (k + N.of_nat (S m) + (UINT64 - 1))
    with (k + N.of_nat m + 1 * UINT64) by (unfold UINT64; lia).
  apply N.Div0.mod_add.
Qed.

(** One step takes a number, submits the one it holds, gives it back, or
    leaves the counter and the ledger alone. *)
Lemma step_owes K g a pc w pc' w' :
  step K g a pc w = (pc', w') ->
  (owes pc' = owes pc
   /\ currentNonce (client w') = currentNonce (client w)
   /\ submitted w' = submitted w)
  \/ (owes pc = false /\ owes pc' = true
      /\ currentNonce (client w') = inc64 (currentNonce (client w))
      /\ submitted w' = submitted w)
  \/ (owes pc = true /\ owes pc' = false
      /\ currentNonce (client w') = currentNonce (client w)
      /\ exists tx, submitted w' = submitted w ++ [tx])
  \/ (owes pc = true /\ owes pc' = false
      /\ currentNonce (client w') = dec64 (currentNonce (client w))
      /\ submitted w' = submitted w).
Proof.
  destruct w as [[ca n mux] sub tr], a as [rcp amt [t pk gp eg sg sd why]].
  intros Hstep.
  destruct pc; cbn in Hstep; unfold lock, unlock in Hstep; cbn in Hstep.
  all: repeat match type of Hstep with
       | context [if ?b then _ else _] => destruct b
       | context [match ?o with Some _ => _ | None => _ end] => destruct o
       end; cbn in Hstep.
  all: injection Hstep as <- <-; cbn.
  all: first [ by left
             | by right; left
             | right; right; left; repeat split; by eexists
             | by right; right; right ].
Qed.

Lemma outstanding_reported_length p :
  (outstanding p + length (reported p) <= length (goroutines p))%nat.
Proof.
  unfold outstanding, reported.
  induction (goroutines p) as [|[a pc] l IH]; [reflexivity|].
  cbn. destruct pc as [| | | | | | | | | | |[tx|e]]; cbn; lia.
Qed.

Lemma all_returned_outstanding p : all_returned p -> outstanding p = 0%nat.
Proof.
  unfold all_returned, outstanding.
  induction (goroutines p) as [|[a pc] l IH]; [reflexivity|].
  rewrite Forall_cons. cbn. intros [Hr Hl].
  destruct pc; try discriminate. cbn. by apply IH.
Qed.

Lemma sched_step_counter K k g p :
  currentNonce (client (world p))
  = (k + N.of_nat (outstanding p + length (submitted (world p)))) mod UINT64 ->
  currentNonce (client (world (sched_step K g p)))
  = (k + N.of_nat (outstanding (sched_step K g p)
                   + length (submitted (world (sched_step K g p)))))
    mod UINT64.
Proof.
  intros Hc. unfold sched_step.
  destruct (goroutines p !! g) as [[a pc]|] eqn:Hg; [|exact Hc].
  destruct (step K g a pc (world p)) as [pc' w'] eqn:Hstep.
  pose proof (sum_list_with_insert
                (fun t => if owes (snd t) then 1%nat else 0%nat)
                _ g _ (a, pc') Hg) as Hs.
  cbn [snd] in Hs. fold (outstanding p) in Hs.
  unfold outstanding at 1. cbn [goroutines world].
  apply step_owes in Hstep
    as [(H1 & H2 & H3)|[(H1 & H2 & H3 & H4)|[(H1 & H2 & H3 & tx & H4)
                                            |(H1 & H2 & H3 & H4)]]].
  - rewrite H1 in Hs. rewrite H2, H3, Hc. do 2 f_equal. lia.
  - rewrite H1, H2 in Hs. rewrite H3, H4, Hc, inc64_issued.
    do 2 f_equal. lia.
  - rewrite H1, H2 in Hs. rewrite H3, H4, Hc, length_app. cbn.
    do 2 f_equal. lia.
  - rewrite H1, H2 in Hs. rewrite H3, H4, Hc.
    assert (Ho : outstanding p = S (sum_list_with
                   (fun t => if owes (snd t) then 1%nat else 0%nat)
                   (<[g := (a, pc')]> (goroutines p)))) by lia.
    rewrite Ho. cbn [Nat.add]. rewrite dec64_issued. reflexivity.
Qed.

Lemma schedule_counter K k sch : forall p,
  currentNonce (client (world p))
  = (k + N.of_nat (outstanding p + length (submitted (world p)))) mod UINT64 ->
  currentNonce (client (world (schedule K sch p)))
  = (k + N.of_nat (outstanding (schedule K sch p)
                   + length (submitted (world (schedule K sch p)))))
    mod UINT64.
Proof.
  induction sch as [|g sch IH]; intros p Hp; [exact Hp|].
  cbn. by apply IH, sched_step_counter.
Qed.

(** X24. The counter keeps count whatever is rolled back.  Under every
    schedule of concurrent calls, failing ones included, the counter is
    its starting value plus the sequence numbers that calls hold at that
    moment plus the transactions submitted; so when all calls have
    returned it has advanced by exactly the number of transactions the
    ledger accepted. *)
Theorem counter_counts_submitted_transactions :
  forall (Keccak256 : list byte -> list byte) (sch : list nat)
         (attempts : list Attempt) (w : World),
    currentNonce (client w) + N.of_nat (length attempts) < UINT64 ->
    submitted w = [] ->
    let p := schedule Keccak256 sch (spawn attempts w) in
    currentNonce (client (world p))
    = currentNonce (client w)
      + N.of_nat (outstanding p + length (submitted (world p)))
    /\ (all_returned p ->
        currentNonce (client (world p))
        = currentNonce (client w)
          + N.of_nat (length (submitted (world p)))).
Proof.
  intros K sch attempts w Hk Hsub p.
  assert (H0 : currentNonce (client (world (spawn attempts w)))
               = (currentNonce (client w)
                  + N.of_nat (outstanding (spawn attempts w)
                              + length (submitted (world (spawn attempts w)))))
                 mod UINT64).
  { cbn [world spawn]. rewrite Hsub.
    replace (outstanding _) with 0%nat.
    - cbn. rewrite N.add_0_r, N.mod_small; [reflexivity | lia].
    - unfold outstanding. cbn.
      induction attempts as [|a rest IH]; [reflexivity|]. cbn in Hk.
      cbn. apply IH. lia. }
  apply (schedule_counter K _ sch) in H0. fold p in H0.
  destruct (schedule_payments K w attempts sch _ (spawn_payments attempts w))
    as (Hat & Hrep & _).
  fold p in Hat, Hrep. rewrite Hsub in Hrep. cbn in Hrep.
  pose proof (outstanding_reported_length p) as Hl.
  apply Permutation_length in Hrep. rewrite <- Hrep in Hl.
  rewrite <- Hat, length_map in Hk.
  rewrite N.mod_small in H0 by lia.
  split; [exact H0|]. intros Hall.
  by rewrite all_returned_outstanding in H0.
Qed.

Lemma counter_counts_submitted_transactions_witness :
  let p := schedule last32 race_schedule (spawn race_attempts contract_world) in
  currentNonce (client contract_world) + N.of_nat (length race_attempts)
  < UINT64
  /\ submitted contract_world = []
  /\ currentNonce (client (world p))
     = currentNonce (client contract_world)
       + N.of_nat (outstanding p + length (submitted (world p)))
  /\ (all_returned p ->
      currentNonce (client (world p))
      = currentNonce (client contract_world)
        + N.of_nat (length (submitted (world p)))).
Proof.
  intros p. split; [reflexivity|]. split; [reflexivity|].
  exact (counter_counts_submitted_transactions last32 race_schedule
           race_attempts contract_world eq_refl eq_refl).
Defined.
